(** * ROS2 universal porting framework: the spec patch pipeline and its helpers

    A shallow embedding of the text transforms of [pipeline/scripts/fix_specs.py],
    the naming, version and archive code of [pipeline/scripts/gen_tarballs.py],
    the version reader of [pipeline/scripts/legacy/split_legacy.py] and the
    package-list loaders, then of the loops of [main] of [fix_specs.py],
    [gen_tarballs.py] and [gen_template_specs.py], of [find_input_spec],
    [find_git_root] and [safe_copytree], followed by the properties of these
    functions.

    A Python [str] is modelled as a list of characters.  A character is an
    [ascii], read as the code point of the same number, so the documents
    covered are those whose code points are below 256; the character classes
    ([str.isspace], the [\s] and [\w] of [re], the line boundaries of
    [str.splitlines]) are those of CPython on that range. *)

From Stdlib Require Import List Ascii String Bool Arith Lia Sorted Permutation.
Import ListNotations.

Open Scope string_scope.
Open Scope nat_scope.
Open Scope list_scope.
Open Scope bool_scope.

Set Warnings "-register-all".

(* ===================================================================== *)
(** * Part I: the embedding                                              *)
(* ===================================================================== *)

(** ** Python strings *)

Definition text := list ascii.

Definition txt (s : string) : text := list_ascii_of_string s.

Definition code (c : ascii) : nat := nat_of_ascii c.

Definition lf : ascii := ascii_of_nat 10.
Definition cr : ascii := ascii_of_nat 13.
Definition dq : ascii := ascii_of_nat 34.
Definition sp : ascii := ascii_of_nat 32.

Definition is_lf (c : ascii) : bool := Ascii.eqb c lf.

Definition is_dq (c : ascii) : bool := Ascii.eqb c dq.

(** [str.isspace] on one character, which is also [\s] of [re]. *)
Definition is_space (c : ascii) : bool :=
  let n := code c in
  ((9 <=? n) && (n <=? 13)) || ((28 <=? n) && (n <=? 32))
  || (n =? 133) || (n =? 160).

(** [\w] of [re] on a [str] pattern: alphanumeric or underscore. *)
Definition is_word (c : ascii) : bool :=
  let n := code c in
  ((48 <=? n) && (n <=? 57)) || ((65 <=? n) && (n <=? 90)) || (n =? 95)
  || ((97 <=? n) && (n <=? 122))
  || (n =? 170) || (n =? 178) || (n =? 179) || (n =? 181) || (n =? 185)
  || (n =? 186) || ((188 <=? n) && (n <=? 190))
  || ((192 <=? n) && (n <=? 214)) || ((216 <=? n) && (n <=? 246))
  || (248 <=? n).

(** The line boundaries of [str.splitlines]. *)
Definition is_linebreak (c : ascii) : bool :=
  let n := code c in
  ((10 <=? n) && (n <=? 13)) || ((28 <=? n) && (n <=? 30)) || (n =? 133).

Fixpoint text_eqb (a b : text) : bool :=
  match a, b with
  | [], [] => true
  | x :: a', y :: b' => Ascii.eqb x y && text_eqb a' b'
  | _, _ => false
  end.

(** [s.startswith(p)] *)
Fixpoint starts_with (p s : text) : bool :=
  match p, s with
  | [], _ => true
  | a :: p', b :: s' => Ascii.eqb a b && starts_with p' s'
  | _ :: _, [] => false
  end.

(** [p in s] *)
Fixpoint contains (p s : text) : bool :=
  starts_with p s
  || match s with
     | [] => false
     | _ :: s' => contains p s'
     end.

Fixpoint drop_while (f : ascii -> bool) (s : text) : text :=
  match s with
  | [] => []
  | c :: s' => if f c then drop_while f s' else s
  end.

Fixpoint take_while (f : ascii -> bool) (s : text) : text :=
  match s with
  | [] => []
  | c :: s' => if f c then c :: take_while f s' else []
  end.

Definition lstrip (s : text) : text := drop_while is_space s.
Definition rstrip (s : text) : text := rev (drop_while is_space (rev s)).
Definition strip (s : text) : text := rstrip (lstrip s).

(** [s.lstrip("\n")] and [s.rstrip("\n")] *)
Definition lstrip_lf (s : text) : text := drop_while is_lf s.
Definition rstrip_lf (s : text) : text := rev (drop_while is_lf (rev s)).

(** [sep.join(parts)] *)
Fixpoint join (sep : text) (parts : list text) : text :=
  match parts with
  | [] => []
  | [p] => p
  | p :: rest => p ++ sep ++ join sep rest
  end.

(** [s.splitlines(keepends)]: [cur] is the line read so far.  A carriage
    return followed by a line feed is one boundary. *)
Fixpoint splitlines_from (keepends : bool) (cur : text) (s : text) : list text :=
  match s with
  | [] => match cur with [] => [] | _ => [cur] end
  | c :: s' =>
      if is_linebreak c then
        match s' with
        | c2 :: s'' =>
            if Ascii.eqb c cr && is_lf c2 then
              (cur ++ if keepends then [c; c2] else []) :: splitlines_from keepends [] s''
            else
              (cur ++ if keepends then [c] else []) :: splitlines_from keepends [] s'
        | [] => [cur ++ if keepends then [c] else []]
        end
      else splitlines_from keepends (cur ++ [c]) s'
  end.

Definition splitlines (s : text) : list text := splitlines_from false [] s.
Definition splitlines_keepends (s : text) : list text := splitlines_from true [] s.

(** [s.split()]: the maximal runs of characters that are not whitespace. *)
Fixpoint split_from (cur : text) (s : text) : list text :=
  match s with
  | [] => match cur with [] => [] | _ => [cur] end
  | c :: s' =>
      if is_space c then
        match cur with
        | [] => split_from [] s'
        | _ => cur :: split_from [] s'
        end
      else split_from (cur ++ [c]) s'
  end.

Definition split_ws (s : text) : list text := split_from [] s.

(** [s.split(sep)] for a one-character separator: the empty pieces are kept. *)
Fixpoint split_on_from (sep : ascii) (cur : text) (s : text) : list text :=
  match s with
  | [] => [cur]
  | c :: s' =>
      if Ascii.eqb c sep then cur :: split_on_from sep [] s'
      else split_on_from sep (cur ++ [c]) s'
  end.

Definition split_on (sep : ascii) (s : text) : list text := split_on_from sep [] s.

(** [s.replace(a, b)] for one-character [a] and [b]. *)
Definition replace_char (a b : ascii) (s : text) : text :=
  map (fun c => if Ascii.eqb c a then b else c) s.

(** ** Regular-expression searches of [re]

    Every pattern of the source is written out as the matcher it denotes.
    With [re.MULTILINE], [^] holds at the start of the text and after a line
    feed; the flag [bol] records that fact for the current position. *)

(** [re.search] of a pattern that begins with [^]: the leftmost line start
    whose remainder satisfies [test].  The result is the text before the
    match and the text from its start. *)
Fixpoint search_ml (test : text -> bool) (bol : bool) (s : text) : option (text * text) :=
  if bol && test s then Some ([], s)
  else match s with
       | [] => None
       | c :: s' =>
           match search_ml test (is_lf c) s' with
           | Some (pre, suf) => Some (c :: pre, suf)
           | None => None
           end
       end.

Section ReSub.
(** [matcher bol s] tries the pattern at the start of [s] and returns the
    replacement of the match and the text after the match. *)
Variable matcher : bool -> text -> option (text * text).

(** [re.sub]: the matches are found from left to right and do not overlap;
    [skip] counts the characters of the current match still to be passed. *)
Fixpoint re_sub_from (bol : bool) (skip : nat) (s : text) : text :=
  match skip with
  | S k =>
      match s with
      | [] => []
      | c :: s' => re_sub_from (is_lf c) k s'
      end
  | O =>
      match s with
      | [] => []
      | c :: s' =>
          match matcher bol s with
          | Some (repl, rest) =>
              repl ++ re_sub_from (is_lf c) (List.length s' - List.length rest) s'
          | None => c :: re_sub_from (is_lf c) 0 s'
          end
      end
  end.

Definition re_sub (s : text) : text := re_sub_from true 0 s.
End ReSub.

(** The rest of the current line, from the first line feed on: what follows
    a greedy [.*] or [[^\n]*]. *)
Definition after_line (s : text) : text := drop_while (fun c => negb (is_lf c)) s.

(** [lit\b] at the start of [s], for a literal that ends in a word character. *)
Definition lit_boundary (lit : text) (s : text) : bool :=
  starts_with lit s
  && match skipn (List.length lit) s with
     | [] => true
     | c :: _ => negb (is_word c)
     end.

(** ** Notions used to state the properties *)

Definition not_lf (c : ascii) : bool := negb (is_lf c).

(** The current line up to its line feed. *)
Definition first_line (s : text) : text := take_while not_lf s.

Definition no_lf (s : text) : bool := forallb not_lf s.

(** Whether [^] holds after the prefix [pre], when it holds or not before. *)
Fixpoint bol_after (bol : bool) (pre : text) : bool :=
  match pre with
  | [] => bol
  | c :: r => bol_after (is_lf c) r
  end.

(** [P] holds of the text from every line start on. *)
Fixpoint all_bol (P : text -> Prop) (bol : bool) (s : text) : Prop :=
  (bol = true -> P s)
  /\ match s with
     | [] => True
     | c :: s' => all_bol P (is_lf c) s'
     end.

(** The number of line starts where [test] holds. *)
Fixpoint count_ml (test : text -> bool) (bol : bool) (s : text) : nat :=
  (if bol && test s then 1 else 0)
  + match s with
    | [] => 0
    | c :: s' => count_ml test (is_lf c) s'
    end.

(** [re.sub] from the end of a line on: what is left of the line is kept
    and the substitution goes on at the next line start. *)
Definition re_sub_tail (matcher : bool -> text -> option (text * text)) (x : text) : text :=
  match x with
  | [] => []
  | c :: s2 => c :: re_sub_from matcher true 0 s2
  end.

(** [rest] is what is left of [s] after some prefix. *)
Definition suffix_of (rest s : text) : Prop := exists x, s = x ++ rest.

(** A text that is empty or begins with a line feed: what is left of a line
    after its last character. *)
Definition line_end (x : text) : Prop := x = [] \/ exists r, x = lf :: r.

(** A text that is empty or begins with whitespace. *)
Definition space_end (x : text) : Prop :=
  match x with
  | [] => True
  | c :: _ => is_space c = true
  end.

(** ** [pipeline/scripts/fix_specs.py] *)

Module fix_specs.

(** *** [ensure_bconds] *)

Definition bcond_prefix : text := txt "%bcond_without".

Definition needed : list text :=
  [txt "%bcond_without tests"; txt "%bcond_without weak_deps"].

(** The stripped lines that start with [%bcond_without]; the source keeps
    them in a set, of which only membership is used. *)
Definition existing (t : text) : list text :=
  filter (starts_with bcond_prefix) (map strip (splitlines t)).

Definition missing (t : text) : list text :=
  filter (fun l => negb (existsb (text_eqb l) (existing t))) needed.

Definition ensure_bconds (t : text) : text :=
  match missing t with
  | [] => t
  | m => join [lf] m ++ [lf; lf] ++ lstrip_lf t
  end.

(** *** [ensure_debug_disabled] *)

(** [%(?:global|define)\s+debug_package\b] at the start of [s]. *)
Definition debug_directive_at (s : text) : bool :=
  (starts_with (txt "%global") s || starts_with (txt "%define") s)
  && match skipn 7 s with
     | c :: r => is_space c && lit_boundary (txt "debug_package") (drop_while is_space r)
     | [] => false
     end.

Definition has_debug_directive (t : text) : bool :=
  match search_ml debug_directive_at true t with
  | Some _ => true
  | None => false
  end.

Definition is_bcond_line (l : text) : bool := starts_with bcond_prefix (lstrip l).

(** The index of the last line that satisfies [is_bcond_line], counted
    from [i]; [None] is the source's [-1]. *)
Fixpoint last_bcond_from (i : nat) (ls : list text) : option nat :=
  match ls with
  | [] => None
  | l :: r =>
      match last_bcond_from (S i) r with
      | Some j => Some j
      | None => if is_bcond_line l then Some i else None
      end
  end.

Definition is_blank (l : text) : bool := text_eqb (strip l) [].

(** The number of blank lines at the head of [ls]: the steps of the
    [while] loop. *)
Fixpoint count_blank (ls : list text) : nat :=
  match ls with
  | l :: r => if is_blank l then S (count_blank r) else 0
  | [] => 0
  end.

Definition debug_line : text := txt "%global debug_package %{nil}" ++ [lf].

Definition ensure_debug_disabled (t : text) : text :=
  if has_debug_directive t then t
  else
    let lines := splitlines_keepends t in
    match last_bcond_from 0 lines with
    | Some idx =>
        let insert_pos := S idx + count_blank (skipn (S idx) lines) in
        List.concat (firstn insert_pos lines ++ [debug_line; [lf]] ++ skipn insert_pos lines)
    | None => debug_line ++ [lf] ++ lstrip_lf t
    end.

(** *** [fix_name] *)

Definition name_replacement (rpm_name : text) : text :=
  txt "Name:           " ++ rpm_name.

(** [^Name:\s*.*$]: the text after the match.  [\s*] runs over line
    feeds too; [.*] then runs to the end of the line it stopped in. *)
Definition name_match (bol : bool) (s : text) : option text :=
  if bol && starts_with (txt "Name:") s
  then Some (after_line (drop_while is_space (skipn 5 s)))
  else None.

Definition name_matcher (rpm_name : text) (bol : bool) (s : text) : option (text * text) :=
  match name_match bol s with
  | Some rest => Some (name_replacement rpm_name, rest)
  | None => None
  end.

Definition has_name (t : text) : bool :=
  match search_ml (starts_with (txt "Name:")) true t with
  | Some _ => true
  | None => false
  end.

(** The replacement is taken as it is written: [re] expands backslash
    escapes in it, and a package name has none. *)
Definition fix_name (t rpm_name : text) : text :=
  if has_name t then re_sub (name_matcher rpm_name) t
  else name_replacement rpm_name ++ [lf] ++ t.

(** *** [fix_source0] *)

Definition source_tail : text := txt "%{name}_%{version}.orig.tar.gz".

(** [Source0?:] at the start of [s]: the length of the keyword. *)
Definition source_keyword (s : text) : option nat :=
  if starts_with (txt "Source0:") s then Some 8
  else if starts_with (txt "Source:") s then Some 7
  else None.

(** The pattern of [fix_source0], [^] then group 1 = [Source0?:\s*] then
    [.*$]: group 1 and the text after the match. *)
Definition source_match (bol : bool) (s : text) : option (text * text) :=
  if bol then
    match source_keyword s with
    | Some k =>
        let ws := take_while is_space (skipn k s) in
        Some (firstn k s ++ ws, after_line (drop_while is_space (skipn k s)))
    | None => None
    end
  else None.

Definition source_matcher (bol : bool) (s : text) : option (text * text) :=
  match source_match bol s with
  | Some (g1, rest) => Some (g1 ++ source_tail, rest)
  | None => None
  end.

Definition source_at (s : text) : bool :=
  match source_keyword s with Some _ => true | None => false end.

Definition has_source (t : text) : bool :=
  match search_ml source_at true t with
  | Some _ => true
  | None => false
  end.

Definition new_source_line : text := txt "Source0: " ++ source_tail.

(** The licence pattern, [^] then [License:\s*.*] then [$]: the text up to
    the end of the first match and the text from there. *)
Definition license_end (t : text) : option (text * text) :=
  match search_ml (starts_with (txt "License:")) true t with
  | Some (pre, suf) =>
      let rest := after_line (drop_while is_space (skipn 8 suf)) in
      Some (firstn (List.length t - List.length rest) t, rest)
  | None => None
  end.

Definition fix_source0 (t : text) : text :=
  if has_source t then re_sub source_matcher t
  else
    match license_end t with
    | Some (upto, rest) => upto ++ [lf] ++ new_source_line ++ rest
    | None => rstrip t ++ [lf] ++ new_source_line ++ [lf]
    end.

(** *** [fix_cmake_prefixes] *)

(** What follows the flag name in the patterns of [fix_cmake_prefixes]: a
    run of whitespace or one [=], an optional double quote, the longest
    run of characters that are neither whitespace nor a double quote, and
    an optional double quote.  The result is the text after it. *)
Definition flag_value (s : text) : option text :=
  match s with
  | [] => None
  | c :: r =>
      let after_sep :=
        if is_space c then Some (drop_while is_space r)
        else if Ascii.eqb c (ascii_of_nat 61) then Some r
        else None in
      match after_sep with
      | None => None
      | Some v =>
          let v1 := match v with
                    | q :: v' => if is_dq q then v' else v
                    | [] => v
                    end in
          let v2 := drop_while (fun x => negb (is_space x || is_dq x)) v1 in
          Some match v2 with
               | q :: v' => if is_dq q then v' else v2
               | [] => v2
               end
      end
  end.

(** As in [fix_name], the replacement is taken as it is written: the
    prefix [/opt/ros/<distro>] has no backslash for [re] to expand. *)
Definition flag_matcher (flag ros_prefix : text) (bol : bool) (s : text)
  : option (text * text) :=
  if starts_with flag s then
    match flag_value (skipn (List.length flag) s) with
    | Some rest => Some (flag ++ txt "=" ++ [dq] ++ ros_prefix ++ [dq], rest)
    | None => None
    end
  else None.

Definition cmake_flags : list text :=
  [txt "-DCMAKE_INSTALL_PREFIX"; txt "-DAMENT_PREFIX_PATH"; txt "-DCMAKE_PREFIX_PATH"].

Definition fix_cmake_prefixes (t ros_prefix : text) : text :=
  fold_left (fun acc flag => re_sub (flag_matcher flag ros_prefix) acc) cmake_flags t.

(** *** [fix_py3_install] *)

(** The pattern of [fix_py3_install]: group 1 is [--prefix] and a run of
    whitespace or one [=]; group 2 is a double-quoted run without double
    quotes or else [\S+].  The result is group 1 and the text after the
    match. *)
Definition prefix_match (s : text) : option (text * text) :=
  if starts_with (txt "--prefix") s then
    match skipn 8 s with
    | [] => None
    | c :: r =>
        let sep_rest :=
          if is_space c then Some (c :: take_while is_space r, drop_while is_space r)
          else if Ascii.eqb c (ascii_of_nat 61) then Some ([c], r)
          else None in
        match sep_rest with
        | None => None
        | Some (sep, v) =>
            match v with
            | [] => None
            | q :: v' =>
                let quoted :=
                  if is_dq q then
                    match drop_while (fun x => negb (is_dq x)) v' with
                    | _ :: after => Some after
                    | [] => None
                    end
                  else None in
                match quoted with
                | Some after => Some (txt "--prefix" ++ sep, after)
                | None =>
                    if is_space q then None
                    else Some (txt "--prefix" ++ sep, drop_while (fun x => negb (is_space x)) v)
                end
            end
        end
    end
  else None.

Definition prefix_matcher (ros_prefix : text) (bol : bool) (s : text)
  : option (text * text) :=
  match prefix_match s with
  | Some (g1, rest) => Some (g1 ++ [dq] ++ ros_prefix ++ [dq], rest)
  | None => None
  end.

Definition fix_py3_line (ros_prefix line : text) : text :=
  if negb (contains (txt "%py3_install") line) then line
  else if contains (txt "--prefix") line then re_sub (prefix_matcher ros_prefix) line
  else
    let stripped := rstrip_lf line in
    (if contains (txt "--") stripped
     then stripped ++ txt " --prefix " ++ [dq] ++ ros_prefix ++ [dq]
     else stripped ++ txt " -- --prefix " ++ [dq] ++ ros_prefix ++ [dq])
    ++ [lf].

Definition fix_py3_install (t ros_prefix : text) : text :=
  List.concat (map (fix_py3_line ros_prefix) (splitlines_keepends t)).

(** *** [inject_ros_pythonpath] *)

Definition marker : text := txt "# BEGIN ros_pythonpath".

Definition block (ros_prefix : text) : text :=
  marker ++ [lf]
  ++ txt "export ROS_PREFIX=" ++ [dq] ++ ros_prefix ++ [dq; lf]
  ++ txt "export PYTHONPATH=" ++ [dq]
  ++ txt "$ROS_PREFIX/lib64/python%{python3_version}/site-packages:"
  ++ txt "$ROS_PREFIX/lib/python%{python3_version}/site-packages:${PYTHONPATH}"
  ++ [dq; lf]
  ++ txt "# END ros_pythonpath" ++ [lf].

(** [%section\b[^\n]*\n] at the start of [s]. *)
Definition section_header_at (section : text) (s : text) : bool :=
  lit_boundary (txt "%" ++ section) s
  && match after_line s with
     | [] => false
     | _ :: _ => true
     end.

(** The text up to the end of the first header line of [section] and the
    text from there. *)
Definition section_header_end (section : text) (t : text) : option (text * text) :=
  match search_ml (section_header_at section) true t with
  | Some (pre, suf) =>
      match after_line suf with
      | _ :: rest => Some (firstn (List.length t - List.length rest) t, rest)
      | [] => None
      end
  | None => None
  end.

Definition inject_section (ros_prefix : text) (t : text) (section : text) : text :=
  match section_header_end section t with
  | Some (upto, rest) => upto ++ block ros_prefix ++ [lf] ++ rest
  | None => t
  end.

Definition sections : list text := [txt "build"; txt "install"; txt "check"].

Definition inject_ros_pythonpath (t ros_prefix : text) : text :=
  if contains marker t then t
  else fold_left (inject_section ros_prefix) sections t.

(** *** [fix_files_section] *)

Definition changelog_at (s : text) : bool := lit_boundary (txt "%changelog") s.

(** [^%files[^\n]*\n.*?(?=^%changelog\b)] at the start of [s] (a line
    start): the matched block and the text from the look-ahead on.  The
    lazy [.*?] stops at the first line start at or after the end of the
    header line where [%changelog\b] holds. *)
Definition files_block_at (s : text) : option (text * text) :=
  if starts_with (txt "%files") s then
    match after_line s with
    | [] => None
    | _ :: body =>
        match search_ml changelog_at true body with
        | Some (_, suf) => Some (firstn (List.length s - List.length suf) s, suf)
        | None => None
        end
    end
  else None.

Definition files_block_test (s : text) : bool :=
  match files_block_at s with Some _ => true | None => false end.

(** [files_block_pattern.search(text)]: the text before the match, the
    match, and the text after it. *)
Definition files_block_search (t : text) : option (text * text * text) :=
  match search_ml files_block_test true t with
  | Some (pre, s) =>
      match files_block_at s with
      | Some (blk, suf) => Some (pre, blk, suf)
      | None => None
      end
  | None => None
  end.

Definition new_block (ros_prefix : text) : text :=
  txt "%files" ++ [lf] ++ ros_prefix ++ [lf].

Definition fix_files_section (t ros_prefix : text) : text :=
  match files_block_search t with
  | Some (pre, _, suf) => pre ++ new_block ros_prefix ++ suf
  | None =>
      match search_ml changelog_at true t with
      | Some (pre, suf) => pre ++ new_block ros_prefix ++ [lf] ++ suf
      | None => rstrip t ++ [lf; lf] ++ new_block ros_prefix ++ [lf]
      end
  end.

(** *** [patch_spec_text] *)

Definition patch_spec_text (t rpm_name ros_prefix : text) : text :=
  let t := ensure_bconds t in
  let t := ensure_debug_disabled t in
  let t := fix_name t rpm_name in
  let t := fix_source0 t in
  let t := fix_cmake_prefixes t ros_prefix in
  let t := fix_py3_install t ros_prefix in
  let t := inject_ros_pythonpath t ros_prefix in
  let t := fix_files_section t ros_prefix in
  t.

(** *** The names computed in [main] *)

Definition hyphenate (pkg_name : text) : text :=
  replace_char (ascii_of_nat 95) (ascii_of_nat 45) pkg_name.

Definition rpm_name_of (ros_distro pkg_name : text) : text :=
  txt "ros-" ++ ros_distro ++ txt "-" ++ hyphenate pkg_name.

Definition ros_prefix_of (ros_distro : text) : text := txt "/opt/ros/" ++ ros_distro.

Definition spec_basename (pkg_name : text) : text := hyphenate pkg_name ++ txt ".spec".

End fix_specs.

(** ** The package list: one [<pkg_name> <pkg_path>] per line

    The three loaders ([load_pkg_list] of [fix_specs.py] and of
    [gen_template_specs.py], the loop of [main] in [gen_tarballs.py]) treat
    a line in the same way. *)

Inductive line_result :=
| LineIgnored                             (* blank or comment: [continue] *)
| LineWarned (stripped : text)            (* fewer than two fields: warning, [continue] *)
| LineEntry (pkg_name pkg_path : text).

Definition pkg_line (line : text) : line_result :=
  let line := strip line in
  if text_eqb line [] || starts_with (txt "#") line then LineIgnored
  else
    match split_ws line with
    | pkg_name :: pkg_path :: _ => LineEntry pkg_name pkg_path
    | _ => LineWarned line
    end.

Module pkg_list.

(** *** [load_pkg_list] of [fix_specs.py]: the entries and the warnings
    (line number and stripped line) written to the standard error. *)
Fixpoint load_from (lineno : nat) (lines : list text)
  : list (text * text) * list (nat * text) :=
  match lines with
  | [] => ([], [])
  | line :: rest =>
      let '(entries, warns) := load_from (S lineno) rest in
      match pkg_line line with
      | LineIgnored => (entries, warns)
      | LineWarned l => (entries, (lineno, l) :: warns)
      | LineEntry pkg_name pkg_path => ((pkg_name, pkg_path) :: entries, warns)
      end
  end.

Definition load_pkg_list (lines : list text) := load_from 1 lines.

(** *** [load_pkg_list] of [gen_template_specs.py]: an entry carries its
    line number. *)
Fixpoint load_numbered_from (lineno : nat) (lines : list text)
  : list (text * text * nat) * list (nat * text) :=
  match lines with
  | [] => ([], [])
  | line :: rest =>
      let '(entries, warns) := load_numbered_from (S lineno) rest in
      match pkg_line line with
      | LineIgnored => (entries, warns)
      | LineWarned l => (entries, (lineno, l) :: warns)
      | LineEntry pkg_name pkg_path => ((pkg_name, pkg_path, lineno) :: entries, warns)
      end
  end.

Definition load_pkg_list_numbered (lines : list text) := load_numbered_from 1 lines.

End pkg_list.

(** ** [pipeline/scripts/gen_tarballs.py] and [legacy/split_legacy.py] *)

(** An element of [xml.etree.ElementTree]: tag, text and children. *)
Inductive element :=
| Element (tag : text) (etext : option text) (children : list element).

Definition tag_of (e : element) : text := match e with Element t _ _ => t end.
Definition text_of (e : element) : option text := match e with Element _ x _ => x end.
Definition children_of (e : element) : list element := match e with Element _ _ c => c end.

(** [root.iter()]: the element and its descendants in document order. *)
Fixpoint iter (e : element) : list element :=
  match e with
  | Element _ _ ch => e :: flat_map iter ch
  end.

(** What reading [package.xml] gives: [None] when the file does not exist,
    else the result of [ET.parse]. *)
Inductive parse_result :=
| Parsed (root : element)
| ParseError                 (* [ET.ParseError] *)
| OtherError.                (* any other exception, such as [OSError] *)

Definition package_xml := option parse_result.

(** The result of a call: the value returned and the warnings written, or
    an exception that leaves the function. *)
Inductive outcome (A : Type) :=
| Returns (value : A) (warnings : list text)
| Raises.
Arguments Returns {A} value warnings.
Arguments Raises {A}.

Definition ends_with (p s : text) : bool := starts_with (rev p) (rev s).

Definition nonempty (s : text) : bool := match s with [] => false | _ => true end.

Module gen_tarballs.

(** The [for] loop of [read_version_from_package_xml]; [version_text] is
    the variable of the same name. *)
Fixpoint scan_version (version_text : option text) (elems : list element) : option text :=
  match elems with
  | [] => version_text
  | elem :: rest =>
      match text_of elem with
      | Some x =>
          if ends_with (txt "version") (tag_of elem) && nonempty x then
            let v := strip x in
            if nonempty v then Some v else scan_version (Some v) rest
          else scan_version version_text rest
      | None => scan_version version_text rest
      end
  end.

Definition warn_not_found (pkg_root : text) : text :=
  txt "[WARN] package.xml not found in " ++ pkg_root ++ txt ", skip.".
Definition warn_parse (pkg_root : text) : text :=
  txt "[WARN] Failed to parse " ++ pkg_root ++ txt "/package.xml".
Definition warn_no_version (pkg_root : text) : text :=
  txt "[WARN] No <version> tag found in " ++ pkg_root ++ txt "/package.xml, skip.".

Definition read_version_from_package_xml (pkg_root : text) (xml : package_xml)
  : outcome (option text) :=
  match xml with
  | None => Returns None [warn_not_found pkg_root]
  | Some ParseError => Returns None [warn_parse pkg_root]
  | Some OtherError => Raises
  | Some (Parsed root) =>
      match scan_version None (iter root) with
      | Some ((_ :: _) as v) => Returns (Some v) []
      | _ => Returns None [warn_no_version pkg_root]
      end
  end.

(** *** The fallback archiver *)

(** A source tree: a directory lists its entries in sorted order, as
    [tarfile] visits them; any entry that is not a directory is a leaf. *)
Inductive node :=
| File (name : text)
| Dir (name : text) (entries : list node).

Definition node_name (n : node) : text :=
  match n with File x => x | Dir x _ => x end.

Definition slash : ascii := ascii_of_nat 47.

(** [os.path.join(a, b)] on POSIX *)
Definition path_join (a b : text) : text :=
  if starts_with [slash] b then b
  else if text_eqb a [] || ends_with [slash] a then a ++ b
  else a ++ [slash] ++ b.

(** The member name [tarfile] gives to [arcname]: leading slashes go. *)
Definition member_name (arcname : text) : text :=
  drop_while (fun c => Ascii.eqb c slash) arcname.

(** [tar_filter_exclude_git]: [true] when the member is kept. *)
Definition tar_filter_exclude_git (name : text) : bool :=
  negb (existsb (text_eqb (txt ".git")) (split_on slash name)).

(** [TarFile.add(name, arcname, filter=filter)] of the standard library:
    the member names written, in order.  A member the filter rejects is
    left out together with everything below it. *)
Fixpoint tar_add (filter : text -> bool) (arcname : text) (n : node) : list text :=
  if filter (member_name arcname) then
    match n with
    | File _ => [member_name arcname]
    | Dir _ entries =>
        member_name arcname
        :: flat_map (fun e => tar_add filter (path_join arcname (node_name e)) e) entries
    end
  else [].

(** The direct enumeration of a source tree, to compare the archive with:
    the member name of every entry of the tree, the root first, each
    directory before its entries. *)
Fixpoint tree_paths (arcname : text) (n : node) : list text :=
  member_name arcname
  :: match n with
     | File _ => []
     | Dir _ entries =>
         flat_map (fun e => tree_paths (path_join arcname (node_name e)) e) entries
     end.

(** The names a directory listing can hold have no slash. *)
Fixpoint well_named (n : node) : bool :=
  match n with
  | File _ => true
  | Dir _ entries =>
      forallb (fun e => negb (existsb (Ascii.eqb slash) (node_name e)) && well_named e)
              entries
  end.

(** [run_fallback_tar_archive]: [src] is what [src_path] names ([None]
    when nothing is there), [os_error] tells whether writing the archive
    raises [OSError].  [None] is the source's [False]; otherwise the
    members of the archive written. *)
Definition run_fallback_tar_archive (src : option node) (os_error : bool)
           (prefix_dir : text) : option (list text) :=
  match src with
  | Some ((Dir _ _) as d) =>
      if os_error then None
      else Some (tar_add tar_filter_exclude_git prefix_dir d)
  | _ => None
  end.

(** *** The names computed by [process_package] *)

Definition name_hyphen (pkg_name : text) : text :=
  replace_char (ascii_of_nat 95) (ascii_of_nat 45) pkg_name.

Definition ros_pkg_name (ros_distro pkg_name : text) : text :=
  txt "ros-" ++ ros_distro ++ txt "-" ++ name_hyphen pkg_name.

Definition tarball_name (ros_distro pkg_name version : text) : text :=
  ros_pkg_name ros_distro pkg_name ++ txt "_" ++ version ++ txt ".orig.tar.gz".

Definition prefix_dir (ros_distro pkg_name version : text) : text :=
  ros_pkg_name ros_distro pkg_name ++ txt "-" ++ version.

(** What [process_package] observes of its environment. *)
Record package_env := {
  pkg_root : text;
  pkg_root_is_dir : bool;
  manifest : package_xml;
  dest_exists : bool;
  in_git_repo : bool;             (* [find_git_root] finds a repository *)
  git_archive_ok : bool;          (* [run_git_archive] returns [True] *)
  source_tree : option node;
  tar_os_error : bool
}.

Inductive status :=
| git_ok | fallback_ok | skipped_exist | no_version | failed.

Definition fallback (env : package_env) (pfx : text) : status :=
  match run_fallback_tar_archive (source_tree env) (tar_os_error env) pfx with
  | Some _ => fallback_ok
  | None => failed
  end.

Definition process_package (env : package_env) (ros_distro pkg_name : text)
           (force : bool) : outcome status :=
  if negb (pkg_root_is_dir env) then Returns failed []
  else
    match read_version_from_package_xml (pkg_root env) (manifest env) with
    | Raises => Raises
    | Returns None w => Returns no_version w
    | Returns (Some version) w =>
        let pfx := prefix_dir ros_distro pkg_name version in
        if dest_exists env && negb force then Returns skipped_exist w
        else if negb (in_git_repo env) then Returns (fallback env pfx) w
        else if git_archive_ok env then Returns git_ok w
        else Returns (fallback env pfx) w
    end.

End gen_tarballs.

Module split_legacy.

(** [root.findtext(path, default)] for a plain tag: the text of the first
    child with that tag, the empty string when it has none. *)
Definition findtext (root : element) (tag default : text) : text :=
  match find (fun e => text_eqb (tag_of e) tag) (children_of root) with
  | Some e => match text_of e with Some x => x | None => [] end
  | None => default
  end.

Definition fallback_version : text := txt "0.0.0".

(** [parse_version]: every exception is caught, and nothing is printed. *)
Definition parse_version (xml : package_xml) : outcome text :=
  match xml with
  | Some (Parsed root) =>
      let ver := strip (findtext root (txt "version") fallback_version) in
      let ver := filter (fun c => negb (is_space c)) ver in
      if nonempty ver then Returns ver [] else Returns fallback_version []
  | _ => Returns fallback_version []
  end.

End split_legacy.

(** ** Canonical lines and sample data, for the statements of Part II *)

(** A [Name:] line as [fix_name] writes it, up to the end of its line. *)
Definition canonical_name_line (rpm_name s : text) : Prop :=
  exists r, s = fix_specs.name_replacement rpm_name ++ r /\ line_end r.

(** A [Source:] or [Source0:] line as [fix_source0] leaves it: the keyword,
    the whitespace that followed it, and the archive name up to the end of
    the line. *)
Definition canonical_source_line (s : text) : Prop :=
  exists kw ws r,
    (kw = txt "Source:" \/ kw = txt "Source0:")
    /\ forallb is_space ws = true
    /\ s = kw ++ ws ++ fix_specs.source_tail ++ r
    /\ line_end r.

(** The text from a line start is no [Name:] line or a canonical one; the
    same for the source line. *)
Definition name_ok (rpm_name s : text) : Prop :=
  starts_with (txt "Name:") s = true -> canonical_name_line rpm_name s.

Definition source_ok (s : text) : Prop :=
  fix_specs.source_at s = true -> canonical_source_line s.

(** The two lines that [ensure_bconds] looks for. *)
Definition tests_line : text := txt "%bcond_without tests".
Definition weak_deps_line : text := txt "%bcond_without weak_deps".

(** A text that begins with a character other than whitespace. *)
Definition starts_nonspace (s : text) : bool :=
  match s with
  | [] => false
  | c :: _ => negb (is_space c)
  end.

(** Whether a member name has [.git] among its path components. *)
Definition has_git (p : text) : bool :=
  existsb (text_eqb (txt ".git")) (split_on gen_tarballs.slash p).

(** The lines of a document, each closed by a line feed. *)
Definition doc (lines : list string) : text :=
  List.concat (map (fun l => txt l ++ [lf]) lines).

(** A document with a files section between two changelog sections. *)
Definition changelog_twice : text :=
  doc ["%changelog"; "* old"; "%files"; "/usr"; "%changelog"; "* new"].

(** Sample documents for the pipeline. *)
Definition jazzy_prefix : text := txt "/opt/ros/jazzy".
Definition jazzy_foo : text := txt "ros-jazzy-foo".

(** Two directives that disable the debug package. *)
Definition two_debug_directives : text :=
  doc ["%global debug_package %{nil}"; "%define debug_package %{nil}";
       "Name: foo"; "%files"; "/usr"; "%changelog"; "* first release"].

(** A files section and no changelog section. *)
Definition files_without_changelog : text :=
  doc ["Name: foo"; "%files"; "/usr"].

(** Build and install sections; no check section, no marker, no
    changelog section. *)
Definition build_install_only : text :=
  doc ["%build"; "make"; "%install"; "make install"].

(** The same with a files and a changelog section. *)
Definition build_install_files : text :=
  doc ["Name: foo"; "License: MIT"; "%build"; "make"; "%install"; "make install";
       "%files"; "/usr"; "%changelog"; "* first release"].

Definition sample_list_line : text := txt "  demo_nodes  src/demo/demo_nodes  extra  more ".

Definition sample_tree : gen_tarballs.node :=
  gen_tarballs.Dir (txt "foo_bar")
    [gen_tarballs.Dir (txt ".git") [gen_tarballs.File (txt "HEAD")];
     gen_tarballs.File (txt ".gitignore");
     gen_tarballs.File (txt "package.xml");
     gen_tarballs.Dir (txt "src")
       [gen_tarballs.Dir (txt ".git") [];
        gen_tarballs.File (txt "main.cpp")]].

(** ** Further notions, for the statements of Part III *)

(** An element that [read_version_from_package_xml] stops at: its tag ends
    with [version] and its text is not blank. *)
Definition names_version (e : element) : bool :=
  ends_with (txt "version") (tag_of e)
  && match text_of e with
     | Some x => nonempty (strip x)
     | None => false
     end.

(** ** [main] of [gen_tarballs.py]

    The loop over the lines of the package list and its counters; what
    [main] prints is left out.  [env_at n] is what [process_package]
    observes when it is called for line [n]. *)

Module gen_tarballs_main.

(** The string [process_package] returns for a status. *)
Definition status_string (s : gen_tarballs.status) : text :=
  match s with
  | gen_tarballs.git_ok => txt "git-ok"
  | gen_tarballs.fallback_ok => txt "fallback-ok"
  | gen_tarballs.skipped_exist => txt "skipped-exist"
  | gen_tarballs.no_version => txt "no-version"
  | gen_tarballs.failed => txt "failed"
  end.

(** The counters of [main] and the list [failed_pkgs]. *)
Record counters := {
  total : nat;
  git_ok : nat;
  fb_ok : nat;
  skipped_exist : nat;
  no_version : nat;
  no_git : nat;
  failed : nat;
  failed_pkgs : list text
}.

Definition start : counters := Build_counters 0 0 0 0 0 0 0 [].

(** [total += 1], then the [if]/[elif] chain on the status string. *)
Definition tally (status pkg_name : text) (c : counters) : counters :=
  let t := S (total c) in
  if text_eqb status (txt "git-ok") then
    Build_counters t (S (git_ok c)) (fb_ok c) (skipped_exist c) (no_version c)
                   (no_git c) (failed c) (failed_pkgs c)
  else if text_eqb status (txt "fallback-ok") then
    Build_counters t (git_ok c) (S (fb_ok c)) (skipped_exist c) (no_version c)
                   (no_git c) (failed c) (failed_pkgs c)
  else if text_eqb status (txt "skipped-exist") then
    Build_counters t (git_ok c) (fb_ok c) (S (skipped_exist c)) (no_version c)
                   (no_git c) (failed c) (failed_pkgs c)
  else if text_eqb status (txt "no-version") then
    Build_counters t (git_ok c) (fb_ok c) (skipped_exist c) (S (no_version c))
                   (no_git c) (failed c) (failed_pkgs c)
  else if text_eqb status (txt "no-git") then
    Build_counters t (git_ok c) (fb_ok c) (skipped_exist c) (no_version c)
                   (S (no_git c)) (failed c) (failed_pkgs c)
  else if text_eqb status (txt "failed") then
    Build_counters t (git_ok c) (fb_ok c) (skipped_exist c) (no_version c)
                   (no_git c) (S (failed c)) (failed_pkgs c ++ [pkg_name])
  else
    Build_counters t (git_ok c) (fb_ok c) (skipped_exist c) (no_version c)
                   (no_git c) (failed c) (failed_pkgs c).

(** The [for] loop; [None] when an exception leaves [process_package],
    and with it [main]. *)
Fixpoint main_loop (env_at : nat -> gen_tarballs.package_env) (ros_distro : text)
         (force : bool) (line_no : nat) (lines : list text) (c : counters)
  : option counters :=
  match lines with
  | [] => Some c
  | line :: rest =>
      match pkg_line line with
      | LineIgnored | LineWarned _ =>
          main_loop env_at ros_distro force (S line_no) rest c
      | LineEntry pkg_name pkg_path =>
          match gen_tarballs.process_package (env_at line_no) ros_distro pkg_name force with
          | Raises => None
          | Returns status _ =>
              main_loop env_at ros_distro force (S line_no) rest
                        (tally (status_string status) pkg_name c)
          end
      end
  end.

Definition main (env_at : nat -> gen_tarballs.package_env) (ros_distro : text)
           (force : bool) (lines : list text) : option counters :=
  main_loop env_at ros_distro force 1 lines start.

End gen_tarballs_main.

(** ** [find_git_root] of [gen_tarballs.py] *)

Module git_root.

(** [os.path.dirname] on POSIX: the text up to the last slash, without
    its trailing slashes unless it is made of slashes only. *)
Definition dirname (p : text) : text :=
  let head := rev (drop_while (fun c => negb (Ascii.eqb c gen_tarballs.slash)) (rev p)) in
  if nonempty head && negb (forallb (Ascii.eqb gen_tarballs.slash) head)
  then rev (drop_while (Ascii.eqb gen_tarballs.slash) (rev head))
  else head.

(** The [while True] loop, from the absolute path [cur]; [isdir] is
    [os.path.isdir].  The outer [None] is a loop that has not ended within
    [fuel] rounds, the inner one the [None] of the source. *)
Fixpoint find_git_root_loop (fuel : nat) (isdir : text -> bool) (cur : text)
  : option (option text) :=
  match fuel with
  | 0 => None
  | S fuel' =>
      let git_dir := gen_tarballs.path_join cur (txt ".git") in
      if isdir git_dir then Some (Some cur)
      else
        let parent := dirname cur in
        if text_eqb parent cur then Some None
        else find_git_root_loop fuel' isdir parent
  end.

Definition find_git_root (isdir : text -> bool) (cur : text) : option (option text) :=
  find_git_root_loop (S (List.length cur)) isdir cur.

End git_root.

(** ** [gen_template_specs.py] *)

Module gen_template_specs.

(** How the call of [subprocess.run] ends. *)
Inductive run_end :=
| NotFound                              (* [FileNotFoundError] *)
| TimeoutExpired
| Completed (returncode_is_zero : bool)
| RunRaises.                            (* any other exception *)

(** What the worker of one package observes. *)
Record package_obs := {
  pkg_root_is_dir : bool;
  bloom_run : run_end;
  template_src_exists : bool;           (* [rpm/template.spec] after the run *)
  makedirs_raises : bool;
  template_dst_exists : bool;
  copyfile_raises : bool
}.

(** [None] stands for an exception that leaves the function. *)
Definition run_bloom_generate_rpm (o : package_obs) : option text :=
  if negb (pkg_root_is_dir o) then Some (txt "error")
  else
    match bloom_run o with
    | NotFound => Some (txt "error")
    | TimeoutExpired => Some (txt "timeout")
    | RunRaises => None
    | Completed zero => if zero then Some (txt "ok") else Some (txt "error")
    end.

Definition copy_template_spec_to_repos (o : package_obs) (force : bool) : option text :=
  if negb (template_src_exists o) then Some (txt "missing-source")
  else if makedirs_raises o then None
  else if template_dst_exists o && negb force then Some (txt "skipped-existing")
  else if copyfile_raises o then None
  else Some (txt "copied").

Definition process_one_package (o : package_obs) (pkg_name : text) (force : bool)
  : option (text * text * option text) :=
  match run_bloom_generate_rpm o with
  | None => None
  | Some bloom_status =>
      if text_eqb bloom_status (txt "timeout") then Some (pkg_name, txt "timeout", None)
      else if text_eqb bloom_status (txt "error") then Some (pkg_name, txt "error", None)
      else
        match copy_template_spec_to_repos o force with
        | None => None
        | Some copy_status => Some (pkg_name, txt "ok", Some copy_status)
        end
  end.

(** The counters of [main] and its two lists of names. *)
Record counters := {
  total : nat;
  bloom_ok : nat;
  bloom_error : nat;
  bloom_timeout : nat;
  copied : nat;
  skipped_existing : nat;
  missing_source : nat;
  timeout_pkgs : list text;
  error_pkgs : list text
}.

Definition start (total : nat) : counters := Build_counters total 0 0 0 0 0 0 [] [].

(** The first [if]/[elif] chain of the loop over the finished workers. *)
Definition tally_bloom (pkg_name bloom_status : text) (c : counters) : counters :=
  if text_eqb bloom_status (txt "ok") then
    Build_counters (total c) (S (bloom_ok c)) (bloom_error c) (bloom_timeout c)
                   (copied c) (skipped_existing c) (missing_source c)
                   (timeout_pkgs c) (error_pkgs c)
  else if text_eqb bloom_status (txt "error") then
    Build_counters (total c) (bloom_ok c) (S (bloom_error c)) (bloom_timeout c)
                   (copied c) (skipped_existing c) (missing_source c)
                   (timeout_pkgs c) (error_pkgs c ++ [pkg_name])
  else if text_eqb bloom_status (txt "timeout") then
    Build_counters (total c) (bloom_ok c) (bloom_error c) (S (bloom_timeout c))
                   (copied c) (skipped_existing c) (missing_source c)
                   (timeout_pkgs c ++ [pkg_name]) (error_pkgs c)
  else c.

(** The second chain; a [copy_status] that is [None] equals none of the
    strings. *)
Definition tally_copy (copy_status : option text) (c : counters) : counters :=
  match copy_status with
  | None => c
  | Some s =>
      if text_eqb s (txt "copied") then
        Build_counters (total c) (bloom_ok c) (bloom_error c) (bloom_timeout c)
                       (S (copied c)) (skipped_existing c) (missing_source c)
                       (timeout_pkgs c) (error_pkgs c)
      else if text_eqb s (txt "skipped-existing") then
        Build_counters (total c) (bloom_ok c) (bloom_error c) (bloom_timeout c)
                       (copied c) (S (skipped_existing c)) (missing_source c)
                       (timeout_pkgs c) (error_pkgs c)
      else if text_eqb s (txt "missing-source") then
        Build_counters (total c) (bloom_ok c) (bloom_error c) (bloom_timeout c)
                       (copied c) (skipped_existing c) (S (missing_source c))
                       (timeout_pkgs c) (error_pkgs c)
      else c
  end.

(** One round of the loop: [result] is what [future.result()] gives, [None]
    when it raises. *)
Definition tally (pkg_name : text) (result : option (text * text * option text))
           (c : counters) : counters :=
  match result with
  | None =>
      Build_counters (total c) (bloom_ok c) (S (bloom_error c)) (bloom_timeout c)
                     (copied c) (skipped_existing c) (missing_source c)
                     (timeout_pkgs c) (error_pkgs c ++ [pkg_name])
  | Some (_, bloom_status, copy_status) =>
      tally_copy copy_status (tally_bloom pkg_name bloom_status c)
  end.

(** [main] for the entries [pkgs] of the package list; [completed] is the
    order in which [as_completed] hands the workers back, and [obs_at n]
    what the worker of line [n] observes. *)
Definition round (obs_at : nat -> package_obs) (force : bool)
           (c : counters) (e : text * text * nat) : counters :=
  let pkg_name := fst (fst e) in
  tally pkg_name (process_one_package (obs_at (snd e)) pkg_name force) c.

Definition main (obs_at : nat -> package_obs) (force : bool)
           (pkgs completed : list (text * text * nat)) : counters :=
  fold_left (round obs_at force) completed (start (List.length pkgs)).

End gen_template_specs.

(** ** [find_input_spec] and [main] of [fix_specs.py] *)

Module fix_specs_main.

(** The regular files of a directory [repos/<pkg_name>]: name and content.
    Names are those of a directory listing: without slash, each once. *)
Definition directory := list (text * text).

Definition listdir (d : directory) : list text := map fst d.

Definition exists_file (name : text) (d : directory) : bool :=
  existsb (text_eqb name) (listdir d).

Definition read_file (name : text) (d : directory) : option text :=
  match find (fun e => text_eqb (fst e) name) d with
  | Some e => Some (snd e)
  | None => None
  end.

Fixpoint write_file (name content : text) (d : directory) : directory :=
  match d with
  | [] => [(name, content)]
  | e :: rest =>
      if text_eqb (fst e) name then (name, content) :: rest
      else e :: write_file name content rest
  end.

Definition remove_file (name : text) (d : directory) : directory :=
  filter (fun e => negb (text_eqb (fst e) name)) d.

(** [find_input_spec]: the name of the file chosen, inside [spec_dir]. *)
Definition find_input_spec (spec_dir : directory) : option text :=
  if exists_file (txt "template.spec") spec_dir then Some (txt "template.spec")
  else
    match filter (ends_with (txt ".spec")) (listdir spec_dir) with
    | [f] => Some f
    | _ => None
    end.

(** The [OSError]s of one round: of opening the input, of opening the
    output for writing, of [os.remove]. *)
Record io_errors := {
  read_fails : bool;
  write_fails : bool;
  remove_fails : bool
}.

Definition no_errors : io_errors := Build_io_errors false false false.

Inductive verdict := Patched | Skipped.

(** One round of the loop of [main], for a package name without slash:
    [spec_dir] is [None] when [repos/<pkg_name>] is no directory.  The
    result is the counter that goes up and the directory afterwards. *)
Definition patch_package (ros_distro : text) (dry_run : bool) (io : io_errors)
           (pkg_name : text) (spec_dir : option directory)
  : verdict * option directory :=
  match spec_dir with
  | None => (Skipped, None)
  | Some d =>
      match find_input_spec d with
      | None => (Skipped, Some d)
      | Some input_spec =>
          match (if read_fails io then None else read_file input_spec d) with
          | None => (Skipped, Some d)
          | Some original =>
              let rpm_name := fix_specs.rpm_name_of ros_distro pkg_name in
              let new_text :=
                fix_specs.patch_spec_text original rpm_name
                                          (fix_specs.ros_prefix_of ros_distro) in
              let output_spec := fix_specs.spec_basename pkg_name in
              if dry_run then (Patched, Some d)
              else if write_fails io then (Skipped, Some d)
              else
                let d := write_file output_spec new_text d in
                if text_eqb input_spec (txt "template.spec")
                   && negb (text_eqb input_spec output_spec)
                then (Patched, Some (if remove_fails io then d else remove_file input_spec d))
                else (Patched, Some d)
          end
      end
  end.

Record counters := {
  total : nat;
  patched : nat;
  skipped : nat
}.

(** The directories below [repos], by package name. *)
Definition repos := text -> option directory.

Definition set_dir (pkg_name : text) (d : option directory) (r : repos) : repos :=
  fun name => if text_eqb name pkg_name then d else r name.

(** The loop of [main] over the entries of the package list; [io_at i]
    gives the errors of round [i]. *)
Fixpoint main_loop (ros_distro : text) (dry_run : bool) (io_at : nat -> io_errors)
         (i : nat) (pkgs : list (text * text)) (r : repos) (c : counters)
  : counters * repos :=
  match pkgs with
  | [] => (c, r)
  | (pkg_name, _) :: rest =>
      let '(v, d) := patch_package ros_distro dry_run (io_at i) pkg_name (r pkg_name) in
      let c := match v with
               | Patched => Build_counters (S (total c)) (S (patched c)) (skipped c)
               | Skipped => Build_counters (S (total c)) (patched c) (S (skipped c))
               end in
      main_loop ros_distro dry_run io_at (S i) rest (set_dir pkg_name d r) c
  end.

Definition main (ros_distro : text) (dry_run : bool) (io_at : nat -> io_errors)
           (pkgs : list (text * text)) (r : repos) : counters * repos :=
  main_loop ros_distro dry_run io_at 0 pkgs r (Build_counters 0 0 0).

End fix_specs_main.

(** ** [safe_copytree] and the names of [process_one], [legacy/split_legacy.py] *)

Module legacy.

Definition ig : list text :=
  [txt ".git"; txt ".svn"; txt ".hg"; txt "build"; txt "install"; txt "log";
   txt "__pycache__"].

(** [_ignore]: [ig.intersection(names)] *)
Definition _ignore (names : list text) : list text :=
  filter (fun n => existsb (text_eqb n) names) ig.

(** [safe_copytree]: what was at [dst] is removed first, so that the tree
    at [dst] afterwards is the one [shutil.copytree(src, dst,
    ignore=_ignore)] writes; it is given here under the name of the
    source. *)
Fixpoint safe_copytree (src : gen_tarballs.node) : gen_tarballs.node :=
  match src with
  | gen_tarballs.File x => gen_tarballs.File x
  | gen_tarballs.Dir x entries =>
      let ignored_names := _ignore (map gen_tarballs.node_name entries) in
      gen_tarballs.Dir x
        (flat_map (fun e =>
                     if existsb (text_eqb (gen_tarballs.node_name e)) ignored_names
                     then [] else [safe_copytree e])
                  entries)
  end.

(** No entry below the root has a name of [ig]. *)
Fixpoint clean (n : gen_tarballs.node) : bool :=
  match n with
  | gen_tarballs.File _ => true
  | gen_tarballs.Dir _ entries =>
      forallb (fun e => negb (existsb (text_eqb (gen_tarballs.node_name e)) ig) && clean e)
              entries
  end.

(** The names of [process_one] *)
Definition hy (name : text) : text :=
  replace_char (ascii_of_nat 95) (ascii_of_nat 45) name.

Definition topdir (distro name ver : text) : text :=
  txt "ros-" ++ distro ++ txt "-" ++ hy name ++ txt "-" ++ ver.

Definition tar_name (distro name ver : text) : text :=
  topdir distro name ver ++ txt ".orig.tar.gz".

End legacy.

(** ** Sample data and notions for Part III *)

Definition sample_env : gen_tarballs.package_env :=
  gen_tarballs.Build_package_env
    (txt "/ws/src/demo/demo_nodes") true
    (Some (Parsed (Element (txt "package") None
                           [Element (txt "version") (Some (txt "0.3.1")) []])))
    false false false (Some sample_tree) false.

(** Two summaries of [gen_template_specs.py] that differ at most in the
    order of the names listed. *)
Definition same_summary (a b : gen_template_specs.counters) : Prop :=
  gen_template_specs.total a = gen_template_specs.total b
  /\ gen_template_specs.bloom_ok a = gen_template_specs.bloom_ok b
  /\ gen_template_specs.bloom_error a = gen_template_specs.bloom_error b
  /\ gen_template_specs.bloom_timeout a = gen_template_specs.bloom_timeout b
  /\ gen_template_specs.copied a = gen_template_specs.copied b
  /\ gen_template_specs.skipped_existing a = gen_template_specs.skipped_existing b
  /\ gen_template_specs.missing_source a = gen_template_specs.missing_source b
  /\ Permutation (gen_template_specs.timeout_pkgs a) (gen_template_specs.timeout_pkgs b)
  /\ Permutation (gen_template_specs.error_pkgs a) (gen_template_specs.error_pkgs b).

Definition sample_obs : gen_template_specs.package_obs :=
  gen_template_specs.Build_package_obs true (gen_template_specs.Completed true)
                                       true false false false.

(** A package directory as [gen_template_specs.py] and [gen_tarballs.py]
    leave it. *)
Definition sample_dir : fix_specs_main.directory :=
  [(txt "template.spec", build_install_files);
   (txt "ros-jazzy-foo_1.0.orig.tar.gz", txt "archive")].

(** A text whose only line boundaries are line feeds and whose last line,
    if there is one, is closed by a line feed. *)
Definition unix_lines (t : text) : bool :=
  forallb (fun c => negb (is_linebreak c) || is_lf c) t
  && match rev t with
     | [] => true
     | c :: _ => is_lf c
     end.

(** Whether the document has a header line of the section, as
    [inject_ros_pythonpath] looks for it. *)
Definition has_header (section t : text) : bool :=
  match search_ml (fix_specs.section_header_at section) true t with
  | Some _ => true
  | None => false
  end.

(** A member name that is the directory [pfx] or lies below it. *)
Definition under_dir (pfx m : text) : Prop :=
  m = pfx \/ starts_with (pfx ++ [gen_tarballs.slash]) m = true.

(** A test that looks at the current line only. *)
Definition line_local (test : text -> bool) : Prop :=
  forall u x y, test (u ++ lf :: x) = test (u ++ lf :: y).

(** The lines of the block of [inject_ros_pythonpath] and the empty line
    that follows it. *)
Definition block_lines (ros_prefix : text) : list text :=
  [fix_specs.marker;
   txt "export ROS_PREFIX=" ++ [dq] ++ ros_prefix ++ [dq];
   txt "export PYTHONPATH=" ++ [dq]
   ++ txt "$ROS_PREFIX/lib64/python%{python3_version}/site-packages:"
   ++ txt "$ROS_PREFIX/lib/python%{python3_version}/site-packages:${PYTHONPATH}"
   ++ [dq];
   txt "# END ros_pythonpath";
   []].

(** A line of the package list that the loaders pass over in silence. *)
Definition ignored_line (line : text) : bool :=
  match pkg_line line with
  | LineIgnored => true
  | _ => false
  end.

(* ===================================================================== *)
(** * Part II: properties                                                *)
(* ===================================================================== *)

(** ** Characters and prefixes *)

Lemma text_eqb_eq (a b : text) : text_eqb a b = true <-> a = b.
Proof.
  revert b; induction a as [|x a IH]; intros [|y b]; simpl; split;
    try congruence; try reflexivity.
  - intros H. apply andb_true_iff in H as [H1 H2].
    apply Ascii.eqb_eq in H1. apply IH in H2. congruence.
  - intros H. injection H as -> ->.
    rewrite Ascii.eqb_refl. simpl. now apply IH.
Qed.

Lemma text_eqb_refl (a : text) : text_eqb a a = true.
Proof. now apply text_eqb_eq. Qed.

Lemma text_eqb_neq (a b : text) : text_eqb a b = false <-> a <> b.
Proof.
  split.
  - intros H E. apply text_eqb_eq in E. congruence.
  - intros H. destruct (text_eqb a b) eqn:E; [|reflexivity].
    apply text_eqb_eq in E. contradiction.
Qed.

Lemma starts_with_app (p s : text) : starts_with p (p ++ s) = true.
Proof.
  induction p as [|a p IH]; simpl; [reflexivity|].
  now rewrite Ascii.eqb_refl.
Qed.

Lemma starts_with_iff (p s : text) :
  starts_with p s = true <-> exists r, s = p ++ r.
Proof.
  split.
  - revert s; induction p as [|a p IH]; intros s H.
    + now exists s.
    + destruct s as [|b s]; simpl in H; [discriminate|].
      apply andb_true_iff in H as [H1 H2].
      apply Ascii.eqb_eq in H1. subst b.
      destruct (IH _ H2) as [r ->]. now exists r.
  - intros [r ->]. apply starts_with_app.
Qed.

Lemma starts_with_skipn (p s : text) :
  starts_with p s = true -> s = p ++ skipn (List.length p) s.
Proof.
  intros H. apply starts_with_iff in H as [r ->].
  now rewrite skipn_app, skipn_all, Nat.sub_diag.
Qed.

Lemma drop_while_app_take (f : ascii -> bool) (s : text) :
  take_while f s ++ drop_while f s = s.
Proof.
  induction s as [|c s IH]; simpl; [reflexivity|].
  destruct (f c); simpl; [now rewrite IH | reflexivity].
Qed.

Lemma take_while_all (f : ascii -> bool) (s : text) :
  forallb f (take_while f s) = true.
Proof.
  induction s as [|c s IH]; simpl; [reflexivity|].
  destruct (f c) eqn:E; simpl; [now rewrite E | reflexivity].
Qed.

Lemma drop_while_head (f : ascii -> bool) (s : text) :
  match drop_while f s with
  | [] => True
  | c :: _ => f c = false
  end.
Proof.
  induction s as [|c s IH]; simpl; [exact I|].
  destruct (f c) eqn:E; [exact IH | exact E].
Qed.

Lemma drop_while_all (f : ascii -> bool) (w s : text) :
  forallb f w = true -> drop_while f (w ++ s) = drop_while f s.
Proof.
  induction w as [|c w IH]; simpl; [reflexivity|].
  intros H. apply andb_true_iff in H as [H1 H2]. now rewrite H1, IH.
Qed.

Lemma drop_while_stop (f : ascii -> bool) (s : text) :
  match s with [] => True | c :: _ => f c = false end ->
  drop_while f s = s.
Proof. destruct s as [|c s]; simpl; [reflexivity|]. now intros ->. Qed.

Lemma drop_while_length (f : ascii -> bool) (s : text) :
  List.length (drop_while f s) <= List.length s.
Proof.
  induction s as [|c s IH]; simpl; [lia|].
  destruct (f c); simpl; lia.
Qed.

Lemma forallb_rev (f : ascii -> bool) (s : text) :
  forallb f (rev s) = forallb f s.
Proof.
  induction s as [|c s IH]; simpl; [reflexivity|].
  rewrite forallb_app, IH. simpl. rewrite andb_true_r. apply andb_comm.
Qed.

(** ** [rstrip]: the text is the result followed by whitespace only *)

Lemma rstrip_split (s : text) :
  exists w, s = rstrip s ++ w /\ forallb is_space w = true.
Proof.
  exists (rev (take_while is_space (rev s))). split.
  - unfold rstrip. rewrite <- rev_app_distr, drop_while_app_take.
    now rewrite rev_involutive.
  - rewrite forallb_rev. apply take_while_all.
Qed.

Lemma rstrip_last (s : text) :
  match rev (rstrip s) with
  | [] => True
  | c :: _ => is_space c = false
  end.
Proof.
  unfold rstrip. rewrite rev_involutive. apply drop_while_head.
Qed.

Lemma rstrip_app_space (s w : text) :
  forallb is_space w = true -> rstrip (s ++ w) = rstrip s.
Proof.
  intros H. unfold rstrip. rewrite rev_app_distr.
  rewrite drop_while_all; [reflexivity|]. now rewrite forallb_rev.
Qed.

Lemma rstrip_fixed (s : text) :
  match rev s with [] => True | c :: _ => is_space c = false end ->
  rstrip s = s.
Proof.
  intros H. unfold rstrip. rewrite drop_while_stop by exact H.
  apply rev_involutive.
Qed.

(** ** The package list *)

Section PackageList.

Import pkg_list.

Lemma split_from_lstrip (s : text) :
  split_from [] (lstrip s) = split_from [] s.
Proof.
  unfold lstrip. induction s as [|c s IH]; simpl; [reflexivity|].
  destruct (is_space c) eqn:E; [exact IH|]. simpl. now rewrite E.
Qed.

Lemma split_from_spaces (cur w : text) :
  forallb is_space w = true ->
  split_from cur w = match cur with [] => [] | _ => [cur] end.
Proof.
  revert cur. induction w as [|c w IH]; intros cur H; simpl; [reflexivity|].
  simpl in H. apply andb_true_iff in H as [H1 H2]. rewrite H1.
  rewrite (IH [] H2). now destruct cur.
Qed.

Lemma split_from_app_spaces (cur s w : text) :
  forallb is_space w = true ->
  split_from cur (s ++ w) = split_from cur s.
Proof.
  intros H. revert cur. induction s as [|c s IH]; intros cur; simpl.
  - now apply split_from_spaces.
  - destruct (is_space c); [|apply IH].
    destruct cur; now rewrite IH.
Qed.

Lemma split_ws_strip (s : text) : split_ws (strip s) = split_ws s.
Proof.
  unfold split_ws, strip.
  destruct (rstrip_split (lstrip s)) as [w [E H]].
  transitivity (split_from [] (lstrip s)); [|apply split_from_lstrip].
  rewrite <- (split_from_app_spaces [] (rstrip (lstrip s)) w H).
  now rewrite <- E.
Qed.

(** A piece of [split_ws] is never empty. *)
Lemma split_from_nonempty (cur s : text) :
  Forall (fun f => f <> []) (split_from cur s).
Proof.
  revert cur. induction s as [|c s IH]; intros cur; simpl.
  - destruct cur; constructor; [discriminate | constructor].
  - destruct (is_space c); [|apply IH].
    destruct cur; [apply IH|]. constructor; [discriminate | apply IH].
Qed.

Lemma split_ws_nil_strip (s : text) : strip s = [] -> split_ws s = [].
Proof. intros H. rewrite <- split_ws_strip, H. reflexivity. Qed.

Lemma pkg_line_two_fields (line : text) :
  starts_with (txt "#") (strip line) = false ->
  2 <= List.length (split_ws line) ->
  pkg_line line = LineEntry (nth 0 (split_ws line) []) (nth 1 (split_ws line) []).
Proof.
  intros Hc Hn. unfold pkg_line. rewrite Hc, split_ws_strip.
  destruct (text_eqb (strip line) []) eqn:E.
  - apply text_eqb_eq in E. rewrite (split_ws_nil_strip _ E) in Hn.
    simpl in Hn. lia.
  - simpl. destruct (split_ws line) as [|a [|b r]]; simpl in *; try lia.
    reflexivity.
Qed.

Lemma pkg_line_warned (line l : text) :
  pkg_line line = LineWarned l ->
  List.length (split_ws line) < 2 /\ l = strip line.
Proof.
  unfold pkg_line. rewrite split_ws_strip.
  destruct (text_eqb (strip line) [] || starts_with (txt "#") (strip line));
    [discriminate|].
  destruct (split_ws line) as [|a [|b r]]; intros H; inversion H; simpl; split;
    (lia || reflexivity).
Qed.

Lemma load_from_app (n : nat) (a b : list text) :
  load_from n (a ++ b)
  = (fst (load_from n a) ++ fst (load_from (n + List.length a) b),
     snd (load_from n a) ++ snd (load_from (n + List.length a) b)).
Proof.
  revert n. induction a as [|l a IH]; intros n; simpl.
  - rewrite Nat.add_0_r. now destruct (load_from n b).
  - rewrite IH. replace (S n + List.length a) with (n + S (List.length a)) by lia.
    destruct (load_from (S n) a) as [e w]. simpl.
    destruct (pkg_line l); reflexivity.
Qed.

End PackageList.

(** C10, as the code has it.  A line of the package list that is not a
    comment (its stripped form does not start with [#]) and has more than
    two whitespace-separated fields yields the entry made of its first two
    fields, wherever it stands in the file: the entries of the file are
    those before it, this entry, and those after it, and the line adds no
    warning.  The fields beyond the second are dropped.  A line that is
    warned and skipped has fewer than two fields.  (A comment line is
    skipped whatever its number of fields.) *)
Theorem load_pkg_list_extra_fields :
  forall (line : text) (before after : list text),
    starts_with (txt "#") (strip line) = false ->
    2 < List.length (split_ws line) ->
    let entry := (nth 0 (split_ws line) [], nth 1 (split_ws line) []) in
    let rest := pkg_list.load_from (2 + List.length before) after in
    pkg_line line = LineEntry (fst entry) (snd entry)
    /\ fst (pkg_list.load_pkg_list (before ++ line :: after))
       = fst (pkg_list.load_pkg_list before) ++ entry :: fst rest
    /\ snd (pkg_list.load_pkg_list (before ++ line :: after))
       = snd (pkg_list.load_pkg_list before) ++ snd rest
    /\ (forall l w, pkg_line l = LineWarned w -> List.length (split_ws l) < 2).
Proof.
  intros line before after Hc Hn entry rest.
  assert (HL : pkg_line line = LineEntry (fst entry) (snd entry)).
  { apply pkg_line_two_fields; [exact Hc | lia]. }
  split; [exact HL|].
  unfold pkg_list.load_pkg_list. rewrite load_from_app. simpl fst. simpl snd.
  simpl pkg_list.load_from. rewrite HL.
  subst rest. change (2 + List.length before) with (S (S (List.length before))).
  destruct (pkg_list.load_from (S (S (List.length before))) after) as [e w].
  split; [reflexivity|]. split; [reflexivity|].
  intros l w0 H. now apply pkg_line_warned in H.
Qed.

Lemma load_pkg_list_extra_fields_witness :
  pkg_line sample_list_line = LineEntry (txt "demo_nodes") (txt "src/demo/demo_nodes")
  /\ fst (pkg_list.load_pkg_list ([txt "# packages"] ++ sample_list_line :: [txt "solo"]))
     = [(txt "demo_nodes", txt "src/demo/demo_nodes")]
  /\ snd (pkg_list.load_pkg_list ([txt "# packages"] ++ sample_list_line :: [txt "solo"]))
     = [(3, txt "solo")].
Proof.
  pose proof (load_pkg_list_extra_fields sample_list_line [txt "# packages"] [txt "solo"]
                eq_refl ltac:(vm_compute; lia)) as H.
  cbv zeta in H. destruct H as [H1 [H2 [H3 _]]].
  split; [exact H1|]. split; [rewrite H2 | rewrite H3]; reflexivity.
Defined.

(** C10, as the claim has it, fails on a comment line: [#pkg a b] has three
    whitespace-separated fields and is skipped, without an entry. *)
Lemma load_pkg_list_comment_counterexample :
  2 < List.length (split_ws (txt "#pkg a b"))
  /\ pkg_line (txt "#pkg a b") = LineIgnored
  /\ pkg_list.load_pkg_list [txt "#pkg a b"] = ([], []).
Proof. repeat split; vm_compute; lia. Qed.

(** ** Naming *)

Lemma replace_char_gone (a b : ascii) (s : text) :
  a <> b -> ~ In a (replace_char a b s).
Proof.
  intros Hab. unfold replace_char. rewrite in_map_iff. intros [c [H _]].
  destruct (Ascii.eqb c a) eqn:E.
  - congruence.
  - apply Ascii.eqb_neq in E. congruence.
Qed.

(** The hyphenated name has no underscore left. *)
Lemma name_hyphen_no_underscore (pkg_name : text) :
  ~ In (ascii_of_nat 95) (gen_tarballs.name_hyphen pkg_name).
Proof. apply replace_char_gone. discriminate. Qed.

(** [fix_specs.py] and [gen_tarballs.py] compute the same package name. *)
Lemma rpm_name_agrees (ros_distro pkg_name : text) :
  fix_specs.rpm_name_of ros_distro pkg_name
  = gen_tarballs.ros_pkg_name ros_distro pkg_name.
Proof. reflexivity. Qed.

(** C6.  For the package [foo_bar], the distribution [jazzy] and the
    version [1.2.3], the canonical identifier is [ros-jazzy-foo-bar] (in
    [gen_tarballs.py] and in [fix_specs.py] alike), the archive is named
    [ros-jazzy-foo-bar_1.2.3.orig.tar.gz] and its top-level directory is
    [ros-jazzy-foo-bar-1.2.3]: the underscore of the package name is a
    hyphen in all three. *)
Theorem naming_foo_bar :
  gen_tarballs.ros_pkg_name (txt "jazzy") (txt "foo_bar") = txt "ros-jazzy-foo-bar"
  /\ fix_specs.rpm_name_of (txt "jazzy") (txt "foo_bar") = txt "ros-jazzy-foo-bar"
  /\ gen_tarballs.tarball_name (txt "jazzy") (txt "foo_bar") (txt "1.2.3")
     = txt "ros-jazzy-foo-bar_1.2.3.orig.tar.gz"
  /\ gen_tarballs.prefix_dir (txt "jazzy") (txt "foo_bar") (txt "1.2.3")
     = txt "ros-jazzy-foo-bar-1.2.3".
Proof. repeat split; reflexivity. Qed.

(** ** The version of a package *)

(** C4, as the code has it.  When [package.xml] is absent or cannot be
    parsed, [parse_version] of [split_legacy.py] returns [0.0.0] and
    writes no warning; [read_version_from_package_xml] of [gen_tarballs.py]
    writes one warning and returns no version ([None]), and
    [process_package] then returns the status [no-version] for a package
    directory.  None of them raises. *)
Theorem version_when_manifest_unusable :
  forall (xml : package_xml) (root : text),
    xml = None \/ xml = Some ParseError ->
    split_legacy.parse_version xml = Returns (txt "0.0.0") []
    /\ (exists w, gen_tarballs.read_version_from_package_xml root xml = Returns None [w])
    /\ (forall env ros_distro pkg_name force,
           gen_tarballs.pkg_root_is_dir env = true ->
           gen_tarballs.manifest env = xml ->
           exists w, gen_tarballs.process_package env ros_distro pkg_name force
                     = Returns gen_tarballs.no_version w).
Proof.
  intros xml root [-> | ->]; (split; [reflexivity|]); (split; [eexists; reflexivity|]);
    intros env d p f Hd Hm; unfold gen_tarballs.process_package;
    rewrite Hd, Hm; simpl; eexists; reflexivity.
Qed.

Lemma version_when_manifest_unusable_witness :
  split_legacy.parse_version None = Returns (txt "0.0.0") []
  /\ exists w, gen_tarballs.read_version_from_package_xml (txt "src/foo") None
               = Returns None [w].
Proof.
  destruct (version_when_manifest_unusable None (txt "src/foo") (or_introl eq_refl))
    as [H1 [H2 _]].
  split; [exact H1 | exact H2].
Defined.

(** C4, as the claim has it, fails for [read_version_from_package_xml]: for
    an absent [package.xml] the value returned is [None], not [0.0.0]. *)
Lemma read_version_absent_counterexample :
  ~ exists w, gen_tarballs.read_version_from_package_xml (txt "src/foo") None
              = Returns (Some (txt "0.0.0")) w.
Proof. intros [w H]. discriminate H. Qed.

(** A manifest that parses gives its version in both readers. *)
Example read_version_sample :
  let root := Element (txt "package") None
                [Element (txt "name") (Some (txt "foo")) [];
                 Element (txt "version") (Some (txt " 1.2.3 ")) []] in
  gen_tarballs.read_version_from_package_xml (txt "src/foo") (Some (Parsed root))
  = Returns (Some (txt "1.2.3")) []
  /\ split_legacy.parse_version (Some (Parsed root)) = Returns (txt "1.2.3") [].
Proof. split; reflexivity. Qed.

(** ** The fallback archive *)

Section FallbackArchive.

Import gen_tarballs.

Lemma node_nested_ind (P : node -> Prop) :
  (forall x, P (File x)) ->
  (forall x entries, Forall P entries -> P (Dir x entries)) ->
  forall n, P n.
Proof.
  intros HF HD. fix IH 1. intros [x | x entries].
  - apply HF.
  - apply HD. induction entries as [|e entries IHe]; constructor.
    + apply IH.
    + exact IHe.
Qed.

Lemma split_on_from_sep (sep : ascii) (cur a b : text) :
  split_on_from sep cur (a ++ sep :: b)
  = split_on_from sep cur a ++ split_on_from sep [] b.
Proof.
  revert cur. induction a as [|c a IH]; intros cur; simpl.
  - now rewrite Ascii.eqb_refl.
  - destruct (Ascii.eqb c sep); [now rewrite IH | apply IH].
Qed.

Lemma split_on_from_plain (sep : ascii) (cur f : text) :
  existsb (Ascii.eqb sep) f = false ->
  split_on_from sep cur f = [cur ++ f].
Proof.
  revert cur. induction f as [|c f IH]; intros cur H; simpl.
  - now rewrite app_nil_r.
  - simpl in H. apply orb_false_iff in H as [H1 H2].
    rewrite Ascii.eqb_sym, H1, IH by exact H2.
    now rewrite <- app_assoc.
Qed.

Lemma has_git_extend (y f : text) :
  has_git y = true -> has_git (y ++ slash :: f) = true.
Proof.
  unfold has_git, split_on. intros H.
  now rewrite split_on_from_sep, existsb_app, H.
Qed.

Lemma has_git_trailing_slash (y : text) :
  has_git (y ++ [slash]) = has_git y.
Proof.
  unfold has_git, split_on. rewrite split_on_from_sep, existsb_app.
  simpl. now rewrite !orb_false_r.
Qed.

Lemma member_name_app (x z : text) :
  member_name x <> [] -> member_name (x ++ z) = member_name x ++ z.
Proof.
  unfold member_name. induction x as [|c x IH]; simpl; [congruence|].
  destruct (Ascii.eqb c slash); [exact IH | reflexivity].
Qed.

(** Below a member whose name has a [.git] component, every member name
    has one. *)
Lemma has_git_below (x f : text) :
  has_git (member_name x) = true ->
  has_git (member_name (x ++ slash :: f)) = true.
Proof.
  intros H. destruct (member_name x) as [|c y] eqn:E; [discriminate H|].
  rewrite member_name_app by (rewrite E; discriminate).
  rewrite E. now apply has_git_extend.
Qed.

Lemma ends_with_slash (a : text) :
  ends_with [slash] a = true -> exists x, a = x ++ [slash].
Proof.
  unfold ends_with. intros H. apply starts_with_iff in H as [r H].
  exists (rev r). apply (f_equal (@rev ascii)) in H.
  rewrite rev_involutive in H. rewrite H. now rewrite rev_app_distr.
Qed.

Lemma member_name_trailing_slash (x : text) :
  member_name (x ++ [slash])
  = match member_name x with [] => [] | _ => member_name x ++ [slash] end.
Proof.
  unfold member_name. induction x as [|c x IH]; simpl.
  - reflexivity.
  - destruct (Ascii.eqb c slash); [exact IH | reflexivity].
Qed.

Lemma has_git_join (arcname f : text) :
  existsb (Ascii.eqb slash) f = false ->
  has_git (member_name arcname) = true ->
  has_git (member_name (path_join arcname f)) = true.
Proof.
  intros Hf H. unfold path_join.
  assert (Hs : starts_with [slash] f = false).
  { destruct f as [|c f]; [reflexivity|]. simpl in *.
    apply orb_false_iff in Hf as [Hf _]. now rewrite Hf. }
  rewrite Hs. destruct (text_eqb arcname []) eqn:E.
  - apply text_eqb_eq in E. subst arcname. discriminate H.
  - simpl. destruct (ends_with [slash] arcname) eqn:E2.
    + apply ends_with_slash in E2 as [x ->].
      rewrite <- app_assoc. simpl. apply has_git_below.
      rewrite member_name_trailing_slash in H.
      destruct (member_name x); [discriminate H|].
      now rewrite has_git_trailing_slash in H.
    + now apply has_git_below.
Qed.

Lemma tree_paths_all_git (n : node) :
  forall arcname,
    well_named n = true ->
    has_git (member_name arcname) = true ->
    filter tar_filter_exclude_git (tree_paths arcname n) = [].
Proof.
  induction n as [x | x entries IH] using node_nested_ind; intros arcname Hw Hg.
  - simpl. unfold tar_filter_exclude_git. fold (has_git (member_name arcname)).
    now rewrite Hg.
  - simpl. unfold tar_filter_exclude_git at 1. fold (has_git (member_name arcname)).
    rewrite Hg. simpl.
    simpl in Hw. induction entries as [|e entries IHe]; [reflexivity|].
    simpl in Hw. apply andb_true_iff in Hw as [He Hw].
    apply andb_true_iff in He as [Hn He]. apply negb_true_iff in Hn.
    inversion IH as [|? ? IH1 IH2]; subst.
    simpl. rewrite filter_app, IH1; [| exact He | now apply has_git_join].
    now apply IHe.
Qed.

Lemma tar_add_is_filtered (n : node) :
  forall arcname,
    well_named n = true ->
    tar_add tar_filter_exclude_git arcname n
    = filter tar_filter_exclude_git (tree_paths arcname n).
Proof.
  induction n as [x | x entries IH] using node_nested_ind; intros arcname Hw.
  - simpl. now destruct (tar_filter_exclude_git (member_name arcname)).
  - destruct (tar_filter_exclude_git (member_name arcname)) eqn:Hk.
    + simpl. rewrite Hk. f_equal.
      simpl in Hw. induction entries as [|e entries IHe]; [reflexivity|].
      simpl in Hw. apply andb_true_iff in Hw as [He Hw].
      apply andb_true_iff in He as [_ He].
      inversion IH as [|? ? IH1 IH2]; subst.
      simpl. rewrite filter_app, <- IH1 by exact He.
      f_equal. now apply IHe.
    + rewrite tree_paths_all_git; [simpl; now rewrite Hk | exact Hw |].
      unfold tar_filter_exclude_git in Hk. now apply negb_false_iff in Hk.
Qed.

End FallbackArchive.

(** C8.  For a source directory whose entries are named as a file system
    names them (no slash in a name), the fallback archiver succeeds when
    no [OSError] occurs, and the members it writes are the paths of the
    direct enumeration of the tree under [prefix_dir], in the same order,
    without those that have [.git] as a path component: a path is archived
    exactly when it is a path of the tree and has no such component. *)
Theorem fallback_archive_lists_tree :
  forall (name : text) (entries : list gen_tarballs.node) (prefix_dir : text),
    gen_tarballs.well_named (gen_tarballs.Dir name entries) = true ->
    let tree := gen_tarballs.Dir name entries in
    let listed := filter gen_tarballs.tar_filter_exclude_git
                         (gen_tarballs.tree_paths prefix_dir tree) in
    gen_tarballs.run_fallback_tar_archive (Some tree) false prefix_dir = Some listed
    /\ forall p, In p listed <->
                 In p (gen_tarballs.tree_paths prefix_dir tree)
                 /\ ~ In (txt ".git") (split_on gen_tarballs.slash p).
Proof.
  intros name entries prefix_dir Hw tree listed. split.
  - unfold gen_tarballs.run_fallback_tar_archive. subst tree listed.
    now rewrite tar_add_is_filtered.
  - intros p. subst listed. rewrite filter_In.
    unfold gen_tarballs.tar_filter_exclude_git. rewrite negb_true_iff.
    split; intros [H1 H2]; split; try exact H1.
    + intros Hin. apply not_true_iff_false in H2. apply H2.
      apply existsb_exists. exists (txt ".git"). split; [exact Hin | apply text_eqb_refl].
    + apply not_true_iff_false. intros Hex. apply existsb_exists in Hex as [q [Hq1 Hq2]].
      apply text_eqb_eq in Hq2. subst q. contradiction.
Qed.

Lemma fallback_archive_lists_tree_witness :
  gen_tarballs.run_fallback_tar_archive (Some sample_tree) false (txt "ros-jazzy-foo-bar-1.2.3")
  = Some [txt "ros-jazzy-foo-bar-1.2.3";
          txt "ros-jazzy-foo-bar-1.2.3/.gitignore";
          txt "ros-jazzy-foo-bar-1.2.3/package.xml";
          txt "ros-jazzy-foo-bar-1.2.3/src";
          txt "ros-jazzy-foo-bar-1.2.3/src/main.cpp"].
Proof.
  destruct (fallback_archive_lists_tree (txt "foo_bar")
              [gen_tarballs.Dir (txt ".git") [gen_tarballs.File (txt "HEAD")];
               gen_tarballs.File (txt ".gitignore");
               gen_tarballs.File (txt "package.xml");
               gen_tarballs.Dir (txt "src")
                 [gen_tarballs.Dir (txt ".git") [];
                  gen_tarballs.File (txt "main.cpp")]]
              (txt "ros-jazzy-foo-bar-1.2.3") eq_refl) as [H _].
  exact H.
Defined.

(** ** Line starts *)

Lemma first_after_line (s : text) : first_line s ++ after_line s = s.
Proof. apply drop_while_app_take. Qed.

Lemma after_line_end (s : text) : line_end (after_line s).
Proof.
  unfold line_end. pose proof (drop_while_head (fun c => negb (is_lf c)) s) as H.
  fold (after_line s) in H. destruct (after_line s) as [|c r]; [now left|].
  right. exists r. apply negb_false_iff in H. apply Ascii.eqb_eq in H. now subst c.
Qed.

Lemma first_line_no_lf (s : text) : no_lf (first_line s) = true.
Proof. apply take_while_all. Qed.

Lemma line_end_space_end (x : text) : line_end x -> space_end x.
Proof. intros [-> | [r ->]]; simpl; [exact I | reflexivity]. Qed.

Lemma first_line_app (u x : text) :
  no_lf u = true -> line_end x -> first_line (u ++ x) = u.
Proof.
  intros Hu Hx. induction u as [|c u IH]; simpl.
  - destruct Hx as [-> | [r ->]]; reflexivity.
  - simpl in Hu. apply andb_true_iff in Hu as [H1 H2].
    unfold first_line in *. simpl. rewrite H1. now rewrite IH.
Qed.

Lemma after_line_app (u x : text) :
  no_lf u = true -> line_end x -> after_line (u ++ x) = x.
Proof.
  intros Hu Hx. induction u as [|c u IH]; simpl.
  - destruct Hx as [-> | [r ->]]; reflexivity.
  - simpl in Hu. apply andb_true_iff in Hu as [H1 H2].
    unfold after_line in *. simpl. unfold not_lf in H1. rewrite H1. now apply IH.
Qed.

(** A literal without whitespace does not see what follows a text, when
    that begins with whitespace. *)
Lemma starts_with_cut (lit u x : text) :
  forallb (fun c => negb (is_space c)) lit = true ->
  space_end x ->
  starts_with lit (u ++ x) = starts_with lit u.
Proof.
  revert u. induction lit as [|a lit IH]; intros u Hl Hx; [reflexivity|].
  simpl in Hl. apply andb_true_iff in Hl as [Ha Hl]. apply negb_true_iff in Ha.
  destruct u as [|b u]; simpl.
  - destruct x as [|c x]; [reflexivity|]. simpl in Hx.
    destruct (Ascii.eqb a c) eqn:E; [|reflexivity].
    apply Ascii.eqb_eq in E. congruence.
  - now rewrite IH.
Qed.

Lemma starts_with_line (lit s : text) :
  forallb (fun c => negb (is_space c)) lit = true ->
  starts_with lit (first_line s) = starts_with lit s.
Proof.
  intros Hl. rewrite <- (first_after_line s) at 2.
  symmetry. apply starts_with_cut; [exact Hl|].
  apply line_end_space_end, after_line_end.
Qed.

Lemma bol_after_app (bol : bool) (p q : text) :
  bol_after bol (p ++ q) = bol_after (bol_after bol p) q.
Proof. revert bol. induction p as [|c p IH]; intros bol; simpl; [reflexivity | apply IH]. Qed.

Lemma bol_after_lf (bol : bool) (u m : text) :
  bol_after bol (u ++ lf :: m) = bol_after true m.
Proof. now rewrite bol_after_app. Qed.

Lemma bol_after_no_lf (bol : bool) (u : text) :
  no_lf u = true -> u <> [] -> bol_after bol u = false.
Proof.
  revert bol. induction u as [|c u IH]; intros bol Hu Hn; [congruence|].
  simpl in Hu. apply andb_true_iff in Hu as [H1 H2]. simpl.
  destruct u as [|d u]; [simpl; now apply negb_true_iff in H1|].
  apply IH; [exact H2 | discriminate].
Qed.

Lemma all_bol_weaken (P : text -> Prop) (bol : bool) (s : text) :
  all_bol P bol s -> all_bol P false s.
Proof. destruct s; simpl; intros [_ H]; (split; [discriminate | exact H]). Qed.

Lemma all_bol_strengthen (P : text -> Prop) (bol : bool) (s : text) :
  P s -> all_bol P false s -> all_bol P bol s.
Proof. destruct s; simpl; intros H [_ H2]; (split; [intros _; exact H | exact H2]). Qed.

Lemma all_bol_split (P : text -> Prop) (bol : bool) (pre s : text) :
  all_bol P bol (pre ++ s) -> bol_after bol pre = true -> P s.
Proof.
  revert bol. induction pre as [|c pre IH]; intros bol H Hb; simpl in *.
  - destruct s; simpl in H; destruct H as [H _]; now apply H.
  - destruct H as [_ H]. now apply (IH (is_lf c)).
Qed.

Lemma all_bol_intro (P : text -> Prop) (s : text) :
  forall bol,
    (forall pre suf, s = pre ++ suf -> bol_after bol pre = true -> P suf) ->
    all_bol P bol s.
Proof.
  induction s as [|c s IH]; intros bol H; simpl.
  - split; [|exact I]. intros Hb. apply (H [] []); [reflexivity | exact Hb].
  - split.
    + intros Hb. apply (H [] (c :: s)); [reflexivity | exact Hb].
    + apply IH. intros pre suf E Hb. apply (H (c :: pre) suf); [now rewrite E | exact Hb].
Qed.

(** Over a line without its line feed, only the first position is a line
    start. *)
Lemma all_bol_line (P : text -> Prop) (bol : bool) (u x : text) :
  no_lf u = true -> u <> [] ->
  (bol = true -> P (u ++ x)) -> all_bol P false x -> all_bol P bol (u ++ x).
Proof.
  revert bol. induction u as [|c u IH]; intros bol Hu Hn H0 Hx; [congruence|].
  simpl in Hu. apply andb_true_iff in Hu as [H1 H2].
  apply negb_true_iff in H1. simpl. split; [exact H0|]. rewrite H1.
  destruct u as [|d u]; [exact Hx|].
  apply IH; [exact H2 | discriminate | discriminate | exact Hx].
Qed.

Lemma all_bol_spaces (P : text -> Prop) (bol : bool) (w x : text) :
  forallb is_space w = true ->
  (forall y, space_end y -> y <> [] -> P y) ->
  (forall b, all_bol P b x) ->
  all_bol P bol (w ++ x).
Proof.
  intros Hw HP Hx. revert bol. induction w as [|c w IH]; intros bol; [apply Hx|].
  simpl in Hw. apply andb_true_iff in Hw as [H1 H2]. simpl. split.
  - intros _. apply HP; [exact H1 | discriminate].
  - now apply IH.
Qed.

(** ** [re.search] with a leading [^] *)

Lemma search_ml_sound (test : text -> bool) (s : text) :
  forall bol pre suf,
    search_ml test bol s = Some (pre, suf) ->
    s = pre ++ suf /\ bol_after bol pre = true /\ test suf = true
    /\ (forall p1 p2, pre = p1 ++ p2 -> p2 <> [] -> bol_after bol p1 = true ->
                      test (p2 ++ suf) = false).
Proof.
  assert (Hnil : forall (p1 p2 : text), [] = p1 ++ p2 -> p2 <> [] -> False).
  { intros p1 p2 E Hn. destruct p1; destruct p2; try discriminate. congruence. }
  induction s as [|c s IH]; intros bol pre suf H; simpl in H.
  - destruct (bol && test []) eqn:E; [|discriminate].
    injection H as <- <-. apply andb_true_iff in E as [E1 E2].
    split; [reflexivity|]. split; [exact E1|]. split; [exact E2|].
    intros p1 p2 Hp Hn. now destruct (Hnil p1 p2).
  - destruct (bol && test (c :: s)) eqn:E.
    + injection H as <- <-. apply andb_true_iff in E as [E1 E2].
      split; [reflexivity|]. split; [exact E1|]. split; [exact E2|].
      intros p1 p2 Hp Hn. now destruct (Hnil p1 p2).
    + destruct (search_ml test (is_lf c) s) as [[pre' suf']|] eqn:E2; [|discriminate].
      injection H as <- <-. destruct (IH _ _ _ E2) as [H1 [H2 [H3 H4]]].
      split; [simpl; now rewrite <- H1|]. split; [exact H2|]. split; [exact H3|].
      intros p1 p2 Hp Hn Hb. destruct p1 as [|d p1]; simpl in *.
      * subst p2. simpl. rewrite <- H1. subst bol. now rewrite andb_true_l in E.
      * injection Hp as <- Hp. now apply (H4 p1 p2).
Qed.

Lemma search_ml_none (test : text -> bool) (s : text) :
  forall bol, search_ml test bol s = None <-> all_bol (fun x => test x = false) bol s.
Proof.
  induction s as [|c s IH]; intros bol; simpl.
  - destruct (bol && test []) eqn:E.
    + split; [discriminate|]. intros [H _]. apply andb_true_iff in E as [E1 E2].
      rewrite (H E1) in E2. discriminate.
    + split; [|reflexivity]. intros _. split; [|exact I].
      intros ->. now rewrite andb_true_l in E.
  - destruct (bol && test (c :: s)) eqn:E.
    + split; [discriminate|]. intros [H _]. apply andb_true_iff in E as [E1 E2].
      rewrite (H E1) in E2. discriminate.
    + destruct (search_ml test (is_lf c) s) as [[pre suf]|] eqn:E2.
      * split; [discriminate|]. intros [_ H]. apply IH in H. congruence.
      * split; [|reflexivity]. intros _. split.
        -- intros ->. now rewrite andb_true_l in E.
        -- now apply IH.
Qed.

Lemma search_ml_intro (test : text -> bool) (pre suf : text) :
  forall bol,
    bol_after bol pre = true -> test suf = true ->
    (forall p1 p2, pre = p1 ++ p2 -> p2 <> [] -> bol_after bol p1 = true ->
                   test (p2 ++ suf) = false) ->
    search_ml test bol (pre ++ suf) = Some (pre, suf).
Proof.
  induction pre as [|c pre IH]; intros bol Hb Ht Hn; simpl in *.
  - subst bol. destruct suf; simpl; now rewrite Ht.
  - assert (E : bol && test (c :: pre ++ suf) = false).
    { destruct bol; [|reflexivity]. simpl.
      apply (Hn [] (c :: pre)); [reflexivity | discriminate | reflexivity]. }
    rewrite E. rewrite (IH (is_lf c)); [reflexivity | exact Hb | exact Ht |].
    intros p1 p2 E2 Hp Hb2. apply (Hn (c :: p1) p2); [now rewrite E2 | exact Hp | exact Hb2].
Qed.

(** A match is found when some line start satisfies the test. *)
Lemma search_ml_exists (test : text -> bool) (pre suf : text) :
  forall bol,
    bol_after bol pre = true -> test suf = true ->
    search_ml test bol (pre ++ suf) <> None.
Proof.
  intros bol Hb Ht H. apply search_ml_none in H.
  apply (all_bol_split _ _ _ _ H) in Hb. congruence.
Qed.

Lemma all_bol_impl (P Q : text -> Prop) (s : text) :
  (forall x, P x -> Q x) -> forall bol, all_bol P bol s -> all_bol Q bol s.
Proof.
  intros HPQ. induction s as [|c s IH]; intros bol [H1 H2]; simpl; split; auto.
Qed.

Lemma all_bol_app_r (P : text -> Prop) (a x : text) :
  forall bol, all_bol P bol (a ++ x) -> all_bol P (bol_after bol a) x.
Proof.
  induction a as [|c a IH]; intros bol H; simpl in *; [exact H|].
  destruct H as [_ H]. now apply IH.
Qed.

Lemma all_bol_next_line (P : text -> Prop) (bol : bool) (u s2 : text) :
  all_bol P bol (u ++ lf :: s2) -> all_bol P true s2.
Proof.
  intros H. replace (u ++ lf :: s2) with ((u ++ [lf]) ++ s2) in H
    by now rewrite <- app_assoc.
  apply all_bol_app_r in H. now rewrite bol_after_lf in H.
Qed.

Lemma all_bol_head (P : text -> Prop) (s : text) : all_bol P true s -> P s.
Proof. destruct s; simpl; intros [H _]; now apply H. Qed.

(** What follows a text is replaced: the line starts inside the text keep a
    property that does not look beyond the next whitespace. *)
Lemma all_bol_replace_end (N P : text -> Prop) (a x y : text) :
  (forall u x1 x2, space_end x1 -> space_end x2 -> N (u ++ x1) -> N (u ++ x2)) ->
  (forall u, N u -> P u) ->
  space_end x -> space_end y ->
  forall bol,
    all_bol N bol (a ++ x) -> all_bol P (bol_after bol a) y -> all_bol P bol (a ++ y).
Proof.
  intros Hcut HNP Hx Hy. induction a as [|c a IH]; intros bol H1 H2; simpl in *.
  - exact H2.
  - destruct H1 as [H0 H1]. split.
    + intros Hb. apply HNP. apply (Hcut (c :: a) x y Hx Hy). now apply H0.
    + now apply IH.
Qed.

(** ** Suffixes *)

Lemma suffix_of_refl (s : text) : suffix_of s s.
Proof. now exists []. Qed.

Lemma suffix_of_trans (a b c : text) : suffix_of a b -> suffix_of b c -> suffix_of a c.
Proof. intros [x ->] [y ->]. exists (y ++ x). now rewrite app_assoc. Qed.

Lemma suffix_of_skipn (k : nat) (s : text) : suffix_of (skipn k s) s.
Proof. exists (firstn k s). now rewrite firstn_skipn. Qed.

Lemma suffix_of_drop_while (f : ascii -> bool) (s : text) : suffix_of (drop_while f s) s.
Proof. exists (take_while f s). now rewrite drop_while_app_take. Qed.

Lemma suffix_of_after_line (s : text) : suffix_of (after_line s) s.
Proof. apply suffix_of_drop_while. Qed.

Lemma suffix_of_length (rest s : text) :
  suffix_of rest s -> List.length rest <= List.length s.
Proof. intros [x ->]. rewrite length_app. lia. Qed.

Lemma firstn_before_suffix (a rest : text) :
  firstn (List.length (a ++ rest) - List.length rest) (a ++ rest) = a.
Proof.
  rewrite length_app. replace (List.length a + List.length rest - List.length rest)
    with (List.length a + 0) by lia.
  rewrite firstn_app_2. simpl. apply app_nil_r.
Qed.

(** ** [re.sub] with a pattern anchored at the line start *)

Section LineSub.

Variable m : bool -> text -> option (text * text).

  (** The pattern begins with [^] and then a character that is not a line
      feed; its match is not empty and ends at the end of a line. *)
Hypothesis m_bol : forall s, m false s = None.
Hypothesis m_lf : forall s, m true (lf :: s) = None.
Hypothesis m_rest :
    forall s repl rest, m true s = Some (repl, rest) ->
                        exists mid, s = mid ++ rest /\ mid <> [] /\ line_end rest.

Lemma re_sub_from_skip (mid rest : text) :
    forall bol,
      re_sub_from m bol (List.length mid) (mid ++ rest)
      = re_sub_from m (bol_after bol mid) 0 rest.
Proof.
    induction mid as [|c mid IH]; intros bol; simpl; [reflexivity | apply IH].
Qed.

Lemma re_sub_at_line_end (bol : bool) (x : text) :
    line_end x -> re_sub_from m bol 0 x = re_sub_tail m x.
Proof.
    intros [-> | [r ->]]; [reflexivity|]. simpl.
    assert (E : m bol (lf :: r) = None) by (destruct bol; [apply m_lf | apply m_bol]).
    now rewrite E.
Qed.

Lemma re_sub_match (s repl rest : text) :
    m true s = Some (repl, rest) ->
    re_sub_from m true 0 s = repl ++ re_sub_tail m rest.
Proof.
    intros H. destruct (m_rest _ _ _ H) as [mid [E [Hn Hl]]].
    destruct mid as [|c mid]; [congruence|]. subst s. simpl in *. rewrite H.
    f_equal. rewrite length_app.
    replace (List.length mid + List.length rest - List.length rest)
      with (List.length mid) by lia.
    rewrite re_sub_from_skip. now apply re_sub_at_line_end.
Qed.

Lemma re_sub_nomatch (s : text) :
    forall bol,
      m bol s = None ->
      re_sub_from m bol 0 s = first_line s ++ re_sub_tail m (after_line s).
Proof.
    induction s as [|c s IH]; intros bol H; [reflexivity|].
    simpl. rewrite H. unfold first_line, after_line, not_lf. simpl.
    destruct (is_lf c) eqn:E; simpl.
    - reflexivity.
    - f_equal. apply IH, m_bol.
Qed.

Lemma re_sub_unfold (s : text) :
    re_sub m s
    = match m true s with
      | Some (repl, rest) => repl ++ re_sub_tail m rest
      | None => first_line s ++ re_sub_tail m (after_line s)
      end.
Proof.
    unfold re_sub. destruct (m true s) as [[repl rest]|] eqn:E.
    - now apply re_sub_match.
    - now apply re_sub_nomatch.
Qed.

Lemma re_sub_tail_line_end (x : text) : line_end x -> line_end (re_sub_tail m x).
Proof. intros [-> | [r ->]]; [now left | right; eexists; reflexivity]. Qed.

Lemma match_rest_shorter (s repl rest : text) (c : ascii) (s2 : text) :
    m true s = Some (repl, rest) -> rest = c :: s2 -> List.length s2 < List.length s.
Proof.
    intros H E. destruct (m_rest _ _ _ H) as [mid [-> _]]. subst rest.
    rewrite length_app. simpl. lia.
Qed.

Lemma after_line_shorter (s : text) (c : ascii) (s2 : text) :
    after_line s = c :: s2 -> List.length s2 < List.length s.
Proof.
    intros E. pose proof (suffix_of_length _ _ (suffix_of_after_line s)) as H.
    rewrite E in H. simpl in H. lia.
Qed.

  (** A property of the result that holds line by line. *)
Section Output.
Variable P : text -> Prop.
Hypothesis P_match :
      forall s repl rest x,
        m true s = Some (repl, rest) -> line_end x -> all_bol P false x ->
        all_bol P true (repl ++ x).
Hypothesis P_nomatch :
      forall s x,
        m true s = None -> line_end x -> all_bol P false x ->
        all_bol P true (first_line s ++ x).

Lemma all_bol_re_sub_tail (x : text) :
      line_end x ->
      (forall s2, List.length s2 < List.length x -> all_bol P true (re_sub m s2)) ->
      all_bol P false (re_sub_tail m x).
Proof.
      intros [-> | [r ->]] H; simpl.
      - split; [discriminate | exact I].
      - split; [discriminate|]. apply H. simpl. lia.
Qed.

Lemma all_bol_re_sub (s : text) : all_bol P true (re_sub m s).
Proof.
      remember (List.length s) as n eqn:En. revert s En.
      induction n as [n IH] using lt_wf_ind. intros s En.
      rewrite re_sub_unfold. destruct (m true s) as [[repl rest]|] eqn:E.
      - destruct (m_rest _ _ _ E) as [mid [Es [Hn Hl]]].
        apply (P_match s repl rest); [exact E | now apply re_sub_tail_line_end |].
        apply all_bol_re_sub_tail; [exact Hl|]. intros s2 H2.
        apply (IH (List.length s2)); [|reflexivity].
        subst s n. rewrite length_app. destruct mid; [congruence|]. simpl. lia.
      - apply (P_nomatch s); [exact E | apply re_sub_tail_line_end, after_line_end |].
        apply all_bol_re_sub_tail; [apply after_line_end|]. intros s2 H2.
        apply (IH (List.length s2)); [|reflexivity].
        pose proof (suffix_of_length _ _ (suffix_of_after_line s)). lia.
Qed.
End Output.

  (** The substitution changes nothing in a text whose matches are their
    own replacements. *)
Section Fixed.
Variable P : text -> Prop.
Hypothesis P_fixed :
  forall s repl rest, P s -> m true s = Some (repl, rest) -> s = repl ++ rest.

Lemma re_sub_tail_fixed (x : text) :
  line_end x ->
  (forall s2, List.length s2 < List.length x -> all_bol P true s2 -> re_sub m s2 = s2) ->
  (forall s2, x = lf :: s2 -> all_bol P true s2) ->
  re_sub_tail m x = x.
Proof.
  intros [-> | [r ->]] H Hall; simpl; [reflexivity|].
  f_equal. apply H; [simpl; lia | now apply Hall].
Qed.

Lemma re_sub_fixed (s : text) : all_bol P true s -> re_sub m s = s.
Proof.
  remember (List.length s) as n eqn:En. revert s En.
  induction n as [n IH] using lt_wf_ind. intros s En Hall.
  rewrite re_sub_unfold. destruct (m true s) as [[repl rest]|] eqn:E.
  - destruct (m_rest _ _ _ E) as [mid [Es [Hn Hl]]].
    pose proof (P_fixed s repl rest (all_bol_head _ _ Hall) E) as Hs.
    rewrite Hs at 1. f_equal. apply re_sub_tail_fixed; [exact Hl | |].
    + intros s2 H2. apply (IH (List.length s2)); [|reflexivity].
      subst n. rewrite Es, length_app. destruct mid; [congruence|]. simpl. lia.
    + intros s2 E2. rewrite Hs, E2 in Hall. now apply all_bol_next_line in Hall.
  - pose proof (first_after_line s) as Hs. rewrite <- Hs at 3. f_equal.
    apply re_sub_tail_fixed; [apply after_line_end | |].
    + intros s2 H2. apply (IH (List.length s2)); [|reflexivity].
      pose proof (suffix_of_length _ _ (suffix_of_after_line s)). lia.
    + intros s2 E2. rewrite <- Hs, E2 in Hall. now apply all_bol_next_line in Hall.
Qed.
End Fixed.

(** Before the first match the text is kept. *)
Lemma re_sub_before_first (pre suf : text) :
  forall bol,
    (forall p1 p2, pre = p1 ++ p2 -> p2 <> [] -> bol_after bol p1 = true ->
                   m true (p2 ++ suf) = None) ->
    re_sub_from m bol 0 (pre ++ suf) = pre ++ re_sub_from m (bol_after bol pre) 0 suf.
Proof.
  induction pre as [|c pre IH]; intros bol H; [reflexivity|].
  simpl.
  assert (E : m bol (c :: pre ++ suf) = None).
  { destruct bol; [|apply m_bol].
    apply (H [] (c :: pre)); [reflexivity | discriminate | reflexivity]. }
  rewrite E. f_equal. apply IH. intros p1 p2 Ep Hp Hb.
  apply (H (c :: p1) p2); [now rewrite Ep | exact Hp | exact Hb].
Qed.

End LineSub.

(** Over a line without its line feed, also when the line is empty. *)
Lemma all_bol_line_any (P : text -> Prop) (bol : bool) (u x : text) :
  no_lf u = true ->
  (bol = true -> P (u ++ x)) -> all_bol P false x -> all_bol P bol (u ++ x).
Proof.
  intros Hu H0 Hx. destruct u as [|c u].
  - simpl in *. destruct x; simpl in *; destruct Hx as [_ Hx]; now split.
  - apply all_bol_line; [exact Hu | discriminate | exact H0 | exact Hx].
Qed.

Lemma all_bol_after_lf (P : text -> Prop) (bol : bool) (t : text) :
  all_bol P true t -> P (lf :: t) -> all_bol P bol (lf :: t).
Proof. intros H H0. simpl. split; [now intros _ | exact H]. Qed.

(** What is left after a match that begins with a literal and runs to the
    end of a line. *)
Lemma literal_line_rest (lit s : text) (f : ascii -> bool) :
  lit <> [] -> starts_with lit s = true ->
  exists mid,
    s = mid ++ after_line (drop_while f (skipn (List.length lit) s))
    /\ mid <> []
    /\ line_end (after_line (drop_while f (skipn (List.length lit) s))).
Proof.
  intros Hn H. apply starts_with_skipn in H.
  destruct (suffix_of_trans _ _ _ (suffix_of_after_line _)
              (suffix_of_drop_while f (skipn (List.length lit) s))) as [y Hy].
  exists (lit ++ y). split; [|split].
  - rewrite <- app_assoc, <- Hy. exact H.
  - destruct lit; [congruence | discriminate].
  - apply after_line_end.
Qed.

(** ** [fix_name] *)

Section FixName.

Import fix_specs.

Variable rpm_name : text.

Lemma name_matcher_bol (s : text) : name_matcher rpm_name false s = None.
Proof. reflexivity. Qed.

Lemma name_matcher_lf (s : text) : name_matcher rpm_name true (lf :: s) = None.
Proof. reflexivity. Qed.

Lemma name_matcher_some (s repl rest : text) :
  name_matcher rpm_name true s = Some (repl, rest) ->
  starts_with (txt "Name:") s = true
  /\ repl = name_replacement rpm_name
  /\ rest = after_line (drop_while is_space (skipn 5 s)).
Proof.
  unfold name_matcher, name_match. rewrite andb_true_l.
  destruct (starts_with (txt "Name:") s); [|discriminate].
  intros H. inversion H. repeat split.
Qed.

Lemma name_matcher_none (s : text) :
  name_matcher rpm_name true s = None -> starts_with (txt "Name:") s = false.
Proof.
  unfold name_matcher, name_match. rewrite andb_true_l.
  now destruct (starts_with (txt "Name:") s).
Qed.

Lemma name_matcher_rest (s repl rest : text) :
  name_matcher rpm_name true s = Some (repl, rest) ->
  exists mid, s = mid ++ rest /\ mid <> [] /\ line_end rest.
Proof.
  intros H. apply name_matcher_some in H as [H1 [_ ->]].
  apply (literal_line_rest (txt "Name:") s is_space); [discriminate | exact H1].
Qed.

Lemma name_anchor_cut (u x : text) :
  space_end x -> starts_with (txt "Name:") (u ++ x) = starts_with (txt "Name:") u.
Proof. intros Hx. now apply starts_with_cut. Qed.

Lemma name_replacement_no_lf :
  no_lf rpm_name = true -> no_lf (name_replacement rpm_name) = true.
Proof.
  intros H. unfold name_replacement, no_lf. rewrite forallb_app.
  apply andb_true_iff. split; [reflexivity | exact H].
Qed.

Lemma fix_name_all_canonical (t : text) :
  no_lf rpm_name = true -> all_bol (name_ok rpm_name) true (fix_name t rpm_name).
Proof.
  intros Hr. unfold fix_name. destruct (has_name t) eqn:E.
  - apply (all_bol_re_sub _ name_matcher_bol name_matcher_lf name_matcher_rest).
    + intros s repl rest x Hm Hx Hall.
      apply name_matcher_some in Hm as [_ [-> _]].
      apply all_bol_line_any; [now apply name_replacement_no_lf | | exact Hall].
      intros _ _. now exists x.
    + intros s x Hm Hx Hall. apply name_matcher_none in Hm.
      apply all_bol_line_any; [apply first_line_no_lf | | exact Hall].
      intros _ Hs. rewrite name_anchor_cut in Hs by now apply line_end_space_end.
      rewrite starts_with_line in Hs by reflexivity. congruence.
  - apply all_bol_line_any with (x := lf :: t);
      [now apply name_replacement_no_lf | |].
    + intros _ _. exists (lf :: t). split; [reflexivity | right; now exists t].
    + apply all_bol_after_lf; [|discriminate].
      unfold has_name in E.
      destruct (search_ml (starts_with (txt "Name:")) true t) eqn:E2; [discriminate|].
      apply search_ml_none in E2. revert E2. apply all_bol_impl.
      intros x Hx Hy. congruence.
Qed.

End FixName.

Lemma forallb_space_end (w : text) : forallb is_space w = true -> space_end w.
Proof.
  destruct w as [|c w]; simpl; [trivial|].
  intros H. now apply andb_true_iff in H as [H _].
Qed.

(** ** [fix_source0] *)

Section FixSource0.

Import fix_specs.

Lemma source_keyword_some (s : text) (k : nat) :
  source_keyword s = Some k ->
  (firstn k s = txt "Source:" \/ firstn k s = txt "Source0:")
  /\ s = firstn k s ++ skipn k s
  /\ firstn k s <> [].
Proof.
  unfold source_keyword.
  destruct (starts_with (txt "Source0:") s) eqn:E0.
  - intros H. injection H as <-. apply starts_with_iff in E0 as [r ->].
    repeat split; [now right | discriminate].
  - destruct (starts_with (txt "Source:") s) eqn:E1; [|discriminate].
    intros H. injection H as <-. apply starts_with_iff in E1 as [r ->].
    repeat split; [now left | discriminate].
Qed.

Lemma source_matcher_bol (s : text) : source_matcher false s = None.
Proof. reflexivity. Qed.

Lemma source_matcher_lf (s : text) : source_matcher true (lf :: s) = None.
Proof. reflexivity. Qed.

Lemma source_matcher_some (s repl rest : text) :
  source_matcher true s = Some (repl, rest) ->
  exists k,
    source_keyword s = Some k
    /\ repl = firstn k s ++ take_while is_space (skipn k s) ++ source_tail
    /\ rest = after_line (drop_while is_space (skipn k s)).
Proof.
  unfold source_matcher, source_match.
  destruct (source_keyword s) as [k|]; [|discriminate].
  intros H. inversion H. exists k. rewrite <- app_assoc. repeat split.
Qed.

Lemma source_matcher_none (s : text) :
  source_matcher true s = None -> source_at s = false.
Proof.
  unfold source_matcher, source_match, source_at.
  now destruct (source_keyword s).
Qed.

Lemma source_matcher_rest (s repl rest : text) :
  source_matcher true s = Some (repl, rest) ->
  exists mid, s = mid ++ rest /\ mid <> [] /\ line_end rest.
Proof.
  intros H. apply source_matcher_some in H as [k [Hk [_ ->]]].
  apply source_keyword_some in Hk as [_ [Hs Hn]].
  destruct (suffix_of_trans _ _ _ (suffix_of_after_line _)
              (suffix_of_drop_while is_space (skipn k s))) as [y Hy].
  exists (firstn k s ++ y). split; [|split].
  - rewrite <- app_assoc, <- Hy. exact Hs.
  - destruct (firstn k s); [congruence | discriminate].
  - apply after_line_end.
Qed.

Lemma source_at_cut (u x : text) :
  space_end x -> source_at (u ++ x) = source_at u.
Proof.
  intros Hx. unfold source_at, source_keyword.
  now rewrite !starts_with_cut.
Qed.

Lemma source_at_line (s : text) : source_at (first_line s) = source_at s.
Proof.
  rewrite <- (first_after_line s) at 2. symmetry.
  apply source_at_cut, line_end_space_end, after_line_end.
Qed.

Lemma source_at_space (y : text) : space_end y -> y <> [] -> source_at y = false.
Proof.
  intros Hy Hn. rewrite <- (app_nil_l y). now rewrite source_at_cut.
Qed.

Lemma source_ok_tail (x : text) :
  all_bol source_ok false x -> forall b, all_bol source_ok b (source_tail ++ x).
Proof.
  intros H b. apply all_bol_line_any; [reflexivity | | exact H].
  intros _ Hs. discriminate Hs.
Qed.

Lemma source_ok_replacement (kw ws x : text) :
  kw = txt "Source:" \/ kw = txt "Source0:" ->
  forallb is_space ws = true -> line_end x ->
  all_bol source_ok false x ->
  all_bol source_ok true (kw ++ ws ++ source_tail ++ x).
Proof.
  intros Hk Hw Hx Hall. apply all_bol_line_any.
  - destruct Hk as [-> | ->]; reflexivity.
  - intros _ _. now exists kw, ws, x.
  - apply all_bol_spaces; [exact Hw | | now apply source_ok_tail].
    intros y Hy Hn Hs. now rewrite source_at_space in Hs.
Qed.

Lemma license_end_some (t upto rest : text) :
  license_end t = Some (upto, rest) -> t = upto ++ rest /\ line_end rest.
Proof.
  unfold license_end.
  destruct (search_ml (starts_with (txt "License:")) true t) as [[pre suf]|] eqn:E;
    [|discriminate].
  apply search_ml_sound in E as [Et _].
  destruct (suffix_of_trans _ _ _ (suffix_of_after_line _)
              (suffix_of_trans _ _ _ (suffix_of_drop_while is_space (skipn 8 suf))
                 (suffix_of_skipn 8 suf))) as [y Hy].
  remember (after_line (drop_while is_space (skipn 8 suf))) as r eqn:Er.
  intros H. injection H as Hu Hr. subst rest.
  split; [|rewrite Er; apply after_line_end].
  assert (Ht : t = (pre ++ y) ++ r) by (rewrite <- app_assoc, <- Hy; exact Et).
  rewrite <- Hu. rewrite Ht. now rewrite firstn_before_suffix.
Qed.

Lemma source_at_line_end (x : text) : line_end x -> source_at x = false.
Proof. intros [-> | [r ->]]; reflexivity. Qed.

Lemma source_ok_line_end (b : bool) (x : text) :
  line_end x -> all_bol (fun u => source_at u = false) b x ->
  forall b', all_bol source_ok b' x.
Proof.
  intros Hx H b'. apply all_bol_strengthen.
  - intros Hs. rewrite source_at_line_end in Hs by exact Hx. discriminate.
  - apply all_bol_weaken with (bol := b). revert H. apply all_bol_impl.
    intros u Hu Hs. congruence.
Qed.

Lemma has_source_false (t : text) :
  has_source t = false -> all_bol (fun x => source_at x = false) true t.
Proof.
  unfold has_source. destruct (search_ml source_at true t) eqn:E; [discriminate|].
  intros _. now apply search_ml_none.
Qed.

Lemma source_ok_inserted (a x y : text) :
  all_bol (fun u => source_at u = false) true (a ++ x) ->
  space_end x -> line_end y ->
  (forall b, all_bol source_ok b y) ->
  all_bol source_ok true (a ++ lf :: new_source_line ++ y).
Proof.
  intros Hall Hx Hy Hyok.
  apply (all_bol_replace_end (fun u => source_at u = false) source_ok a x); try assumption.
  - intros u x1 x2 H1 H2. now rewrite !source_at_cut.
  - intros u Hu Hs. congruence.
  - reflexivity.
  - apply all_bol_after_lf; [|discriminate].
    change (new_source_line ++ y) with (txt "Source0:" ++ [sp] ++ source_tail ++ y).
    apply source_ok_replacement; [now right | reflexivity | exact Hy | apply Hyok].
Qed.

Lemma fix_source0_all_canonical (t : text) : all_bol source_ok true (fix_source0 t).
Proof.
  unfold fix_source0. destruct (has_source t) eqn:E.
  - apply (all_bol_re_sub _ source_matcher_bol source_matcher_lf source_matcher_rest).
    + intros s repl rest x Hm Hx Hall.
      apply source_matcher_some in Hm as [k [Hk [-> _]]].
      apply source_keyword_some in Hk as [Hk _].
      rewrite <- !app_assoc.
      apply source_ok_replacement; [exact Hk | apply take_while_all | exact Hx | exact Hall].
    + intros s x Hm Hx Hall. apply source_matcher_none in Hm.
      apply all_bol_line_any; [apply first_line_no_lf | | exact Hall].
      intros _ Hs. rewrite source_at_cut in Hs by now apply line_end_space_end.
      rewrite source_at_line in Hs. congruence.
  - apply has_source_false in E.
    destruct (license_end t) as [[upto rest]|] eqn:EL.
    + apply license_end_some in EL as [Et Hl]. rewrite Et in E.
      apply (source_ok_inserted upto rest rest);
        [exact E | now apply line_end_space_end | exact Hl |].
      apply all_bol_app_r in E. now apply (source_ok_line_end _ _ Hl E).
    + destruct (rstrip_split t) as [w [Et Hw]]. rewrite Et in E at 1.
      apply (source_ok_inserted (rstrip t) w [lf]);
        [exact E | now apply forallb_space_end | right; now exists [] |].
      intros b. simpl. repeat split; discriminate.
Qed.

End FixSource0.




(** ** [fix_name] and [fix_source0] in either order *)

Section NameSourceOrder.

Import fix_specs.

Lemma search_ml_after_line (test : text -> bool) (u t : text) :
  no_lf u = true ->
  forall bol,
    (bol = true -> test (u ++ lf :: t) = false) ->
    search_ml test bol (u ++ lf :: t)
    = match search_ml test true t with
      | Some (a, b) => Some (u ++ lf :: a, b)
      | None => None
      end.
Proof.
  intros Hu. induction u as [|c u IH]; intros bol Hb.
  - simpl app. simpl search_ml.
    assert (E : bol && test (lf :: t) = false).
    { destruct bol; [now apply Hb | reflexivity]. }
    rewrite E. change (is_lf lf) with true.
    now destruct (search_ml test true t) as [[a b]|].
  - simpl in Hu. apply andb_true_iff in Hu as [H1 H2]. apply negb_true_iff in H1.
    simpl app. simpl search_ml.
    assert (E : bol && test (c :: u ++ lf :: t) = false).
    { destruct bol; [now apply Hb | reflexivity]. }
    rewrite E, H1. rewrite (IH H2 false) by discriminate.
    now destruct (search_ml test true t) as [[a b]|].
Qed.

Lemma license_end_eq (t : text) :
  license_end t
  = match search_ml (starts_with (txt "License:")) true t with
    | Some (pre, suf) =>
        let rest := after_line (drop_while is_space (skipn 8 suf)) in
        Some (pre ++ firstn (List.length suf - List.length rest) suf, rest)
    | None => None
    end.
Proof.
  unfold license_end.
  destruct (search_ml (starts_with (txt "License:")) true t) as [[pre suf]|] eqn:E;
    [|reflexivity].
  apply search_ml_sound in E as [Et _]. cbv zeta.
  destruct (suffix_of_trans _ _ _ (suffix_of_after_line _)
              (suffix_of_trans _ _ _ (suffix_of_drop_while is_space (skipn 8 suf))
                 (suffix_of_skipn 8 suf))) as [y Hy].
  remember (after_line (drop_while is_space (skipn 8 suf))) as r eqn:Er.
  f_equal. f_equal.
  rewrite Et. rewrite Hy. rewrite firstn_before_suffix.
  rewrite app_assoc. now rewrite firstn_before_suffix.
Qed.

Lemma license_end_after_line (u t : text) :
  no_lf u = true -> starts_with (txt "License:") u = false ->
  license_end (u ++ lf :: t)
  = match license_end t with
    | Some (upto, rest) => Some (u ++ lf :: upto, rest)
    | None => None
    end.
Proof.
  intros Hu Hs. rewrite !license_end_eq.
  rewrite search_ml_after_line; [| exact Hu |].
  - destruct (search_ml (starts_with (txt "License:")) true t) as [[a b]|];
      [|reflexivity].
    cbv zeta. now rewrite <- app_assoc.
  - intros _. change (lf :: t) with ([lf] ++ t).
    rewrite starts_with_cut; [exact Hs | reflexivity | reflexivity].
Qed.

Lemma has_name_false (t : text) :
  has_name t = false <-> all_bol (fun x => starts_with (txt "Name:") x = false) true t.
Proof.
  unfold has_name. rewrite <- search_ml_none.
  destruct (search_ml (starts_with (txt "Name:")) true t); split; congruence.
Qed.

Lemma has_source_false_iff (t : text) :
  has_source t = false <-> all_bol (fun x => source_at x = false) true t.
Proof.
  unfold has_source. rewrite <- search_ml_none.
  destruct (search_ml source_at true t); split; congruence.
Qed.

(** The new source line brings no [Name:] line. *)
Lemma no_name_inserted (a x y : text) :
  all_bol (fun u => starts_with (txt "Name:") u = false) true (a ++ x) ->
  space_end x -> line_end y ->
  (forall b, all_bol (fun u => starts_with (txt "Name:") u = false) b y) ->
  has_name (a ++ lf :: new_source_line ++ y) = false.
Proof.
  intros Hall Hx Hy Hyok. apply has_name_false.
  apply (all_bol_replace_end (fun u => starts_with (txt "Name:") u = false)
           (fun u => starts_with (txt "Name:") u = false) a x); try assumption.
  - intros u x1 x2 H1 H2. now rewrite !name_anchor_cut.
  - auto.
  - reflexivity.
  - apply all_bol_after_lf; [|reflexivity].
    apply all_bol_line_any; [reflexivity | reflexivity | apply Hyok].
Qed.

Lemma rstrip_nonempty (t : text) : forallb is_space t = false -> rstrip t <> [].
Proof.
  intros H E. destruct (rstrip_split t) as [w [Et Hw]].
  rewrite E in Et. simpl in Et. congruence.
Qed.

Lemma rstrip_app_nonspace (a t : text) :
  forallb is_space t = false -> rstrip (a ++ t) = a ++ rstrip t.
Proof.
  intros H. pose proof (rstrip_nonempty t H) as Hn.
  destruct (rstrip_split t) as [w [Et Hw]].
  rewrite Et at 1. rewrite app_assoc, rstrip_app_space by exact Hw.
  apply rstrip_fixed. rewrite rev_app_distr.
  pose proof (rstrip_last t) as Hl.
  destruct (rev (rstrip t)) as [|c r] eqn:Er; [|exact Hl].
  apply (f_equal (@rev ascii)) in Er. rewrite rev_involutive in Er. contradiction.
Qed.

Lemma all_bol_line_end_any (P : text -> Prop) (b : bool) (x : text) :
  P x -> all_bol P b x -> forall b', all_bol P b' x.
Proof.
  intros H0 H b'. apply all_bol_strengthen; [exact H0|].
  now apply all_bol_weaken with (bol := b).
Qed.

Lemma fix_name_source0_commute (t rpm_name : text) :
  no_lf rpm_name = true ->
  has_name t = false ->
  has_source t = false ->
  forallb is_space t = false ->
  fix_source0 (fix_name t rpm_name) = fix_name (fix_source0 t) rpm_name.
Proof.
  intros Hr Hn Hs Ht.
  pose proof (name_replacement_no_lf rpm_name Hr) as HN.
  assert (Hn1 : fix_name t rpm_name = name_replacement rpm_name ++ lf :: t).
  { unfold fix_name. now rewrite Hn. }
  rewrite Hn1.
  assert (Hs1 : has_source (name_replacement rpm_name ++ lf :: t) = false).
  { apply has_source_false_iff. apply all_bol_line_any; [exact HN | |].
    - intros _. change (lf :: t) with ([lf] ++ t).
      rewrite source_at_cut by reflexivity. reflexivity.
    - apply all_bol_after_lf; [now apply has_source_false_iff | reflexivity]. }
  unfold fix_source0 at 1. rewrite Hs1.
  rewrite license_end_after_line; [| exact HN | reflexivity].
  unfold fix_source0. rewrite Hs.
  apply has_name_false in Hn.
  destruct (license_end t) as [[upto rest]|] eqn:EL; cbn [app].
  - apply license_end_some in EL as [Et Hl].
    unfold fix_name. rewrite no_name_inserted with (x := rest).
    + now rewrite <- app_assoc.
    + now rewrite <- Et.
    + now apply line_end_space_end.
    + exact Hl.
    + rewrite Et in Hn. apply all_bol_app_r in Hn.
      apply (all_bol_line_end_any _ (bol_after true upto)); [|exact Hn].
      destruct Hl as [-> | [r ->]]; reflexivity.
  - destruct (rstrip_split t) as [w [Et Hw]].
    unfold fix_name. rewrite no_name_inserted with (x := w) (y := [lf]).
    + change (lf :: t) with ([lf] ++ t).
      rewrite app_assoc, rstrip_app_nonspace by exact Ht.
      now rewrite <- !app_assoc.
    + now rewrite <- Et.
    + now apply forallb_space_end.
    + right. now exists [].
    + intros b. simpl. repeat split; reflexivity.
Qed.

End NameSourceOrder.

(** C7, as the code has it.  On a document that has a character other than
    whitespace, no line matching the [Name:] anchor and none matching the
    source anchor, [fix_name] and [fix_source0] give the same document in
    either order (for a name without line feed). *)
Theorem fix_name_fix_source0_commute :
  forall (t rpm_name : text),
    no_lf rpm_name = true ->
    fix_specs.has_name t = false ->
    fix_specs.has_source t = false ->
    forallb is_space t = false ->
    fix_specs.fix_source0 (fix_specs.fix_name t rpm_name)
    = fix_specs.fix_name (fix_specs.fix_source0 t) rpm_name.
Proof. exact fix_name_source0_commute. Qed.

Lemma fix_name_fix_source0_commute_witness :
  fix_specs.fix_source0 (fix_specs.fix_name (doc ["Summary: demo"; "License: MIT"; "%build"])
                                            (txt "ros-jazzy-foo"))
  = doc ["Name:           ros-jazzy-foo"; "Summary: demo"; "License: MIT";
         "Source0: %{name}_%{version}.orig.tar.gz"; "%build"].
Proof.
  rewrite (fix_name_fix_source0_commute (doc ["Summary: demo"; "License: MIT"; "%build"])
             (txt "ros-jazzy-foo"));
    vm_compute; reflexivity.
Defined.

(** C7, as the claim has it, fails on the empty document, which has neither
    anchor: the two orders differ by an empty line. *)
Lemma fix_name_fix_source0_empty_counterexample :
  fix_specs.has_name [] = false
  /\ fix_specs.has_source [] = false
  /\ fix_specs.fix_source0 (fix_specs.fix_name [] (txt "ros-jazzy-foo"))
     = doc ["Name:           ros-jazzy-foo"; "Source0: %{name}_%{version}.orig.tar.gz"]
  /\ fix_specs.fix_name (fix_specs.fix_source0 []) (txt "ros-jazzy-foo")
     = doc ["Name:           ros-jazzy-foo"; ""; "Source0: %{name}_%{version}.orig.tar.gz"]
  /\ fix_specs.fix_source0 (fix_specs.fix_name [] (txt "ros-jazzy-foo"))
     <> fix_specs.fix_name (fix_specs.fix_source0 []) (txt "ros-jazzy-foo").
Proof.
  repeat split; try (vm_compute; reflexivity).
  intros H. vm_compute in H. discriminate H.
Qed.

(** ** [fix_files_section] *)

Section FixFiles.

Import fix_specs.

Lemma changelog_at_files (s : text) :
  starts_with (txt "%files") s = true -> changelog_at s = false.
Proof. intros H. apply starts_with_iff in H as [r ->]. reflexivity. Qed.

Lemma files_block_at_some (s blk suf : text) :
  files_block_at s = Some (blk, suf) ->
  starts_with (txt "%files") s = true
  /\ exists m,
      s = first_line s ++ lf :: m ++ suf
      /\ blk = first_line s ++ lf :: m
      /\ search_ml changelog_at true (m ++ suf) = Some (m, suf).
Proof.
  unfold files_block_at.
  destruct (starts_with (txt "%files") s) eqn:E; [|discriminate].
  pose proof (first_after_line s) as Hs. pose proof (after_line_end s) as Hl.
  destruct (after_line s) as [|c body] eqn:Ea; [discriminate|].
  destruct Hl as [Hl | [r Hl]]; [discriminate|]. injection Hl as -> ->.
  destruct (search_ml changelog_at true r) as [[m suf']|] eqn:Ec; [|discriminate].
  intros H. injection H as Hb ->.
  pose proof (search_ml_sound _ _ _ _ _ Ec) as [Er _]. subst r.
  split; [reflexivity|]. exists m. split; [now rewrite Hs|]. split; [|exact Ec].
  rewrite <- Hb. remember (first_line s) as fl eqn:Efl. clear Efl Ea E Hb. subst s.
  replace (fl ++ lf :: m ++ suf) with ((fl ++ lf :: m) ++ suf)
    by now rewrite <- app_assoc.
  now rewrite firstn_before_suffix.
Qed.

Lemma files_block_search_some (t pre blk suf : text) :
  files_block_search t = Some (pre, blk, suf) ->
  exists s,
    search_ml files_block_test true t = Some (pre, s)
    /\ files_block_at s = Some (blk, suf).
Proof.
  unfold files_block_search.
  destruct (search_ml files_block_test true t) as [[p s]|] eqn:E; [|discriminate].
  destruct (files_block_at s) as [[b' s']|] eqn:E2; [|discriminate].
  intros H. injection H as -> -> ->. now exists s.
Qed.

Lemma files_block_search_none (b q s : text) :
  files_block_search b = None ->
  b = q ++ s -> bol_after true q = true -> files_block_test s = false.
Proof.
  intros H -> Hb. destruct (files_block_test s) eqn:Et; [|reflexivity].
  exfalso. pose proof (search_ml_exists files_block_test q s true Hb Et) as Hex.
  unfold files_block_search in H.
  destruct (search_ml files_block_test true (q ++ s)) as [[p s']|] eqn:E; [|congruence].
  apply search_ml_sound in E as [_ [_ [E _]]]. unfold files_block_test in E.
  destruct (files_block_at s') as [[b' s'']|]; discriminate.
Qed.

(** The match of the files pattern ends at a [%changelog] line start, and
    what [fix_files_section] returns ends with the text from there on. *)
Lemma fix_files_section_some (t ros_prefix pre blk suf : text) :
  files_block_search t = Some (pre, blk, suf) ->
  t = pre ++ blk ++ suf
  /\ bol_after true (pre ++ blk) = true
  /\ changelog_at suf = true
  /\ fix_files_section t ros_prefix = (pre ++ new_block ros_prefix) ++ suf.
Proof.
  intros H. unfold fix_files_section. rewrite H.
  apply files_block_search_some in H as [s [H1 H2]].
  apply search_ml_sound in H1 as [Et [Hb _]].
  apply files_block_at_some in H2 as [_ [m [Es [-> Hc]]]].
  apply search_ml_sound in Hc as [_ [Hbm [Hc _]]].
  split; [|split; [|split]].
  - rewrite Et, Es at 1. now rewrite <- !app_assoc.
  - now rewrite app_assoc, bol_after_lf.
  - exact Hc.
  - now rewrite <- app_assoc.
Qed.

Lemma nonempty_prefix_of_line (fl l l2 : text) :
  fl ++ [lf] = l ++ l2 -> l2 <> [] -> l <> [] -> no_lf fl = true ->
  no_lf l = true.
Proof.
  intros E H2 Hl Hfl. destruct (exists_last H2) as [l2' [c E2]]. subst l2.
  rewrite app_assoc in E. apply app_inj_tail in E as [E _]. subst fl.
  unfold no_lf in Hfl. rewrite forallb_app in Hfl.
  now apply andb_true_iff in Hfl as [Hfl _].
Qed.

(** Two first matches in one text are the same match. *)
Lemma first_changelog_in_body (pre m suf a b l2 : text) :
  a = pre ++ lf :: l2 ->
  m ++ suf = l2 ++ b ->
  bol_after true a = true ->
  changelog_at b = true ->
  (forall p1 p2, a = p1 ++ p2 -> p2 <> [] -> bol_after true p1 = true ->
                 changelog_at (p2 ++ b) = false) ->
  search_ml changelog_at true (m ++ suf) = Some (m, suf) ->
  suf = b.
Proof.
  intros Ea E Hba Hcb Hfirst Hm.
  assert (H : search_ml changelog_at true (l2 ++ b) = Some (l2, b)).
  { apply search_ml_intro.
    - now rewrite Ea, bol_after_lf in Hba.
    - exact Hcb.
    - intros p1 p2 E2 Hp Hb. apply (Hfirst (pre ++ lf :: p1) p2).
      + rewrite Ea, E2. now rewrite <- app_assoc.
      + exact Hp.
      + now rewrite bol_after_lf. }
  rewrite <- E, Hm in H. now injection H.
Qed.

Lemma fix_files_section_first_changelog (t ros_prefix a b : text) :
  search_ml changelog_at true t = Some (a, b) ->
  files_block_search b = None ->
  exists a', fix_files_section t ros_prefix = a' ++ b.
Proof.
  intros Hc Hnone.
  destruct (files_block_search t) as [[[pre blk] suf]|] eqn:EF.
  - destruct (fix_files_section_some t ros_prefix _ _ _ EF) as [_ [_ [Hcs ->]]].
    exists (pre ++ new_block ros_prefix). f_equal.
    apply files_block_search_some in EF as [s [H1 H2]].
    apply search_ml_sound in H1 as [Et [Hbpre [Hts _]]].
    apply files_block_at_some in H2 as [Hfiles [m [Es [_ Hm]]]].
    apply search_ml_sound in Hc as [Eab [Hba [Hcb Hfirst]]].
    rewrite Eab in Et. apply app_eq_app in Et as [l [[Ea Eb] | [Ea Eb]]].
    + (* the first changelog line is at or after the files header *)
      destruct l as [|c0 l0].
      * rewrite app_nil_l in Eb. subst b.
        rewrite changelog_at_files in Hcb by exact Hfiles. discriminate.
      * change (first_line s ++ lf :: m ++ suf)
          with (first_line s ++ [lf] ++ m ++ suf) in Es.
        rewrite Es, app_assoc in Eb.
        symmetry in Eb. apply app_eq_app in Eb as [l2 [[E1 E2] | [E1 E2]]].
        -- (* in the body of the block *)
           apply (first_changelog_in_body (pre ++ first_line s) m suf a b l2);
             try assumption.
           rewrite Ea, E1. now rewrite <- !app_assoc.
        -- (* inside the header line *)
           destruct l2 as [|c2 l2'].
           ++ rewrite app_nil_r in E1. rewrite app_nil_l in E2.
              apply (first_changelog_in_body (pre ++ first_line s) m suf a b []);
                try assumption; [| now rewrite E2].
              rewrite Ea, <- E1. now rewrite <- !app_assoc.
           ++ exfalso.
              assert (Hl : no_lf (c0 :: l0) = true).
              { apply (nonempty_prefix_of_line (first_line s) (c0 :: l0) (c2 :: l2'));
                  [exact E1 | discriminate | discriminate | apply first_line_no_lf]. }
              rewrite Ea, bol_after_app in Hba.
              rewrite bol_after_no_lf in Hba; [discriminate | exact Hl | discriminate].
    + (* the first changelog line is before the files header *)
      exfalso. rewrite Ea, bol_after_app, Hba in Hbpre.
      rewrite (files_block_search_none b l s Hnone Eb Hbpre) in Hts. discriminate.
  - unfold fix_files_section. rewrite EF, Hc.
    exists (a ++ new_block ros_prefix ++ [lf]). now rewrite <- !app_assoc.
Qed.

End FixFiles.

Lemma fix_files_section_writes_block (t ros_prefix : text) :
  exists pre suf,
    fix_specs.fix_files_section t ros_prefix = pre ++ fix_specs.new_block ros_prefix ++ suf
    /\ bol_after true pre = true.
Proof.
  destruct (fix_specs.files_block_search t) as [[[pre blk] suf]|] eqn:EF.
  - destruct (fix_files_section_some t ros_prefix _ _ _ EF) as [_ [_ [_ ->]]].
    apply files_block_search_some in EF as [s [H1 _]].
    apply search_ml_sound in H1 as [_ [Hb _]].
    exists pre, suf. split; [now rewrite <- app_assoc | exact Hb].
  - unfold fix_specs.fix_files_section. rewrite EF.
    destruct (search_ml fix_specs.changelog_at true t) as [[a b]|] eqn:Ec.
    + apply search_ml_sound in Ec as [_ [Hb _]].
      exists a, ([lf] ++ b). split; [reflexivity | exact Hb].
    + exists (rstrip t ++ [lf; lf]), [lf]. split.
      * now rewrite <- !app_assoc.
      * now rewrite bol_after_lf.
Qed.

(** C9, as the code has it.  For a document with a [%changelog] line
    start, [fix_files_section] leaves unchanged the text from some
    [%changelog] line start to the end of the document, and changes only
    what is before it.  That line start is the first of the document when
    the files pattern finds no block after it, that is, when no [%files]
    header line after the first [%changelog] line is followed by another
    [%changelog] line. *)
Theorem fix_files_section_keeps_changelog :
  forall (t ros_prefix a b : text),
    search_ml fix_specs.changelog_at true t = Some (a, b) ->
    (exists pre suf a',
        t = pre ++ suf
        /\ bol_after true pre = true
        /\ fix_specs.changelog_at suf = true
        /\ fix_specs.fix_files_section t ros_prefix = a' ++ suf)
    /\ (fix_specs.files_block_search b = None ->
        exists a', fix_specs.fix_files_section t ros_prefix = a' ++ b).
Proof.
  intros t ros_prefix a b Hc. split.
  - destruct (fix_specs.files_block_search t) as [[[pre blk] suf]|] eqn:EF.
    + destruct (fix_files_section_some t ros_prefix _ _ _ EF) as [Et [Hb [Hcs E]]].
      exists (pre ++ blk), suf, (pre ++ fix_specs.new_block ros_prefix).
      repeat split; try assumption. now rewrite <- app_assoc.
    + pose proof (search_ml_sound _ _ _ _ _ Hc) as [Et [Hb [Hcb _]]].
      exists a, b, (a ++ fix_specs.new_block ros_prefix ++ [lf]).
      repeat split; try assumption.
      unfold fix_specs.fix_files_section. rewrite EF, Hc. now rewrite <- !app_assoc.
  - intros Hn. exact (fix_files_section_first_changelog t ros_prefix a b Hc Hn).
Qed.

Lemma fix_files_section_keeps_changelog_witness :
  exists a',
    fix_specs.fix_files_section
      (doc ["Name: foo"; "%files"; "/usr"; "%files devel"; "/usr/include";
            "%changelog"; "* first release"]) (txt "/opt/ros/jazzy")
    = a' ++ doc ["%changelog"; "* first release"].
Proof.
  destruct (fix_files_section_keeps_changelog
              (doc ["Name: foo"; "%files"; "/usr"; "%files devel"; "/usr/include";
                    "%changelog"; "* first release"])
              (txt "/opt/ros/jazzy")
              (doc ["Name: foo"; "%files"; "/usr"; "%files devel"; "/usr/include"])
              (doc ["%changelog"; "* first release"])
              ltac:(vm_compute; reflexivity)) as [_ H].
  apply H. vm_compute. reflexivity.
Defined.

(** C9, as the claim has it, fails when a [%files] section stands between
    two [%changelog] lines: the text from the first [%changelog] line on,
    here the whole document, is changed. *)
Lemma fix_files_section_changelog_counterexample :
  search_ml fix_specs.changelog_at true changelog_twice = Some ([], changelog_twice)
  /\ fix_specs.fix_files_section changelog_twice (txt "/opt/ros/jazzy")
     = doc ["%changelog"; "* old"; "%files"; "/opt/ros/jazzy"; "%changelog"; "* new"]
  /\ ~ exists a',
         fix_specs.fix_files_section changelog_twice (txt "/opt/ros/jazzy")
         = a' ++ changelog_twice.
Proof.
  split; [vm_compute; reflexivity|]. split; [vm_compute; reflexivity|].
  intros [a' H].
  assert (E : ends_with changelog_twice
                (fix_specs.fix_files_section changelog_twice (txt "/opt/ros/jazzy")) = true).
  { rewrite H. unfold ends_with. rewrite rev_app_distr. apply starts_with_app. }
  vm_compute in E. discriminate E.
Qed.

(** ** [ensure_debug_disabled] and the files block of the pipeline *)

Lemma splitlines_keep_cons (cur : text) (c : ascii) (s' : text) :
  splitlines_from true cur (c :: s')
  = if is_linebreak c then
      match s' with
      | c2 :: s'' =>
          if Ascii.eqb c cr && is_lf c2
          then (cur ++ [c; c2]) :: splitlines_from true [] s''
          else (cur ++ [c]) :: splitlines_from true [] s'
      | [] => [cur ++ [c]]
      end
    else splitlines_from true (cur ++ [c]) s'.
Proof. reflexivity. Qed.

Lemma concat_splitlines_from (n : nat) :
  forall s cur,
    List.length s <= n ->
    List.concat (splitlines_from true cur s) = cur ++ s.
Proof.
  induction n as [|n IH]; intros s cur Hn.
  - destruct s; [|simpl in Hn; lia]. simpl.
    destruct cur; simpl; now rewrite ?app_nil_r.
  - destruct s as [|c s].
    + simpl. destruct cur; simpl; now rewrite ?app_nil_r.
    + simpl in Hn. rewrite splitlines_keep_cons. destruct (is_linebreak c).
      * destruct s as [|c2 s2].
        -- simpl. now rewrite app_nil_r.
        -- simpl in Hn. destruct (Ascii.eqb c cr && is_lf c2); rewrite concat_cons.
           ++ rewrite IH by lia. now rewrite <- app_assoc.
           ++ rewrite IH by (simpl; lia). now rewrite <- app_assoc.
      * rewrite IH by lia. now rewrite <- app_assoc.
Qed.

Lemma concat_splitlines_keepends (s : text) :
  List.concat (splitlines_keepends s) = s.
Proof. apply (concat_splitlines_from (List.length s) s []). lia. Qed.

(** Where no directive is present, [ensure_debug_disabled] inserts the
    directive line and an empty line, between two parts of the document or
    at its head in place of the leading line feeds. *)
Lemma ensure_debug_disabled_inserts (t : text) :
  fix_specs.has_debug_directive t = false ->
  exists a b,
    fix_specs.ensure_debug_disabled t = a ++ fix_specs.debug_line ++ [lf] ++ b
    /\ (a ++ b = t \/ (a = [] /\ b = lstrip_lf t)).
Proof.
  intros H. unfold fix_specs.ensure_debug_disabled. rewrite H.
  destruct (fix_specs.last_bcond_from 0 (splitlines_keepends t)) as [idx|].
  - set (n := S idx + fix_specs.count_blank (skipn (S idx) (splitlines_keepends t))).
    exists (List.concat (firstn n (splitlines_keepends t))),
           (List.concat (skipn n (splitlines_keepends t))).
    split.
    + rewrite !concat_app.
      change (List.concat [fix_specs.debug_line; [lf]]) with (fix_specs.debug_line ++ [lf]).
      now rewrite <- app_assoc.
    + left. rewrite <- concat_app, firstn_skipn. apply concat_splitlines_keepends.
  - exists [], (lstrip_lf t). split; [reflexivity | now right].
Qed.




(** ** Applying a transform twice *)

(** C1.  The idempotence [T (T D) = T D] fails for [fix_files_section]:
    on a document with a files section and no changelog section the
    transform leaves that section, appends a files section, and appends
    one more when it is applied to its own result, so the second
    application changes the document. *)
Theorem fix_files_section_twice_differs :
  fix_specs.fix_files_section files_without_changelog jazzy_prefix
  = doc ["Name: foo"; "%files"; "/usr"; ""; "%files"; "/opt/ros/jazzy"; ""]
  /\ fix_specs.fix_files_section
       (fix_specs.fix_files_section files_without_changelog jazzy_prefix) jazzy_prefix
     = doc ["Name: foo"; "%files"; "/usr"; ""; "%files"; "/opt/ros/jazzy"; "";
            "%files"; "/opt/ros/jazzy"; ""]
  /\ fix_specs.fix_files_section
       (fix_specs.fix_files_section files_without_changelog jazzy_prefix) jazzy_prefix
     <> fix_specs.fix_files_section files_without_changelog jazzy_prefix.
Proof.
  split; [vm_compute; reflexivity|]. split; [vm_compute; reflexivity|].
  intros H. vm_compute in H. discriminate H.
Qed.

(** With a changelog section and no files section the second application
    removes the empty line the first one put before [%changelog]. *)
Example fix_files_section_twice_changelog_only :
  fix_specs.fix_files_section (doc ["%changelog"; "* x"]) jazzy_prefix
  = doc ["%files"; "/opt/ros/jazzy"; ""; "%changelog"; "* x"]
  /\ fix_specs.fix_files_section
       (fix_specs.fix_files_section (doc ["%changelog"; "* x"]) jazzy_prefix) jazzy_prefix
     = doc ["%files"; "/opt/ros/jazzy"; "%changelog"; "* x"].
Proof. split; vm_compute; reflexivity. Qed.

(** [ensure_debug_disabled] after a last [%bcond_without] line that has no
    line feed: the directive is joined to that line, is not found the
    second time, and is inserted again. *)
Example ensure_debug_disabled_twice_differs :
  fix_specs.ensure_debug_disabled (txt "%bcond_without tests")
  = doc ["%bcond_without tests%global debug_package %{nil}"; ""]
  /\ fix_specs.ensure_debug_disabled
       (fix_specs.ensure_debug_disabled (txt "%bcond_without tests"))
     = doc ["%bcond_without tests%global debug_package %{nil}"; "";
            "%global debug_package %{nil}"; ""].
Proof. split; vm_compute; reflexivity. Qed.

(** [fix_py3_install] on a line closed by carriage return and line feed:
    the carriage return stays before the appended arguments and closes the
    line the second time, which gets the arguments again. *)
Example fix_py3_install_twice_differs :
  fix_specs.fix_py3_install (txt "%py3_install" ++ [cr; lf]) jazzy_prefix
  = txt "%py3_install" ++ [cr] ++ txt " -- --prefix " ++ [dq] ++ jazzy_prefix ++ [dq; lf]
  /\ fix_specs.fix_py3_install
       (fix_specs.fix_py3_install (txt "%py3_install" ++ [cr; lf]) jazzy_prefix) jazzy_prefix
     = txt "%py3_install" ++ [cr] ++ txt " -- --prefix " ++ [dq] ++ jazzy_prefix ++ [dq; lf]
       ++ txt " -- --prefix " ++ [dq] ++ jazzy_prefix ++ [dq; lf].
Proof. split; vm_compute; reflexivity. Qed.

(** C5.  On a document with a build and an install section, no check
    section, no marker and no changelog section, the pipeline puts the
    block after both headers, so the marker occurs twice, once in each
    section; run on its own result, it appends a second files section, so
    the result of the second run is not the same document. *)
Theorem pipeline_rerun_differs :
  contains fix_specs.marker build_install_only = false
  /\ search_ml (fix_specs.section_header_at (txt "check")) true build_install_only = None
  /\ count_ml (starts_with fix_specs.marker) true
       (fix_specs.patch_spec_text build_install_only jazzy_foo jazzy_prefix) = 2
  /\ count_ml (starts_with (txt "%files")) true
       (fix_specs.patch_spec_text build_install_only jazzy_foo jazzy_prefix) = 1
  /\ count_ml (starts_with (txt "%files")) true
       (fix_specs.patch_spec_text
          (fix_specs.patch_spec_text build_install_only jazzy_foo jazzy_prefix)
          jazzy_foo jazzy_prefix) = 2
  /\ fix_specs.patch_spec_text
       (fix_specs.patch_spec_text build_install_only jazzy_foo jazzy_prefix)
       jazzy_foo jazzy_prefix
     <> fix_specs.patch_spec_text build_install_only jazzy_foo jazzy_prefix.
Proof.
  repeat (split; [vm_compute; reflexivity|]).
  intros H. vm_compute in H. discriminate H.
Qed.

(** With a files and a changelog section the same document is unchanged by
    a second run. *)
Example pipeline_rerun_same :
  fix_specs.patch_spec_text
    (fix_specs.patch_spec_text build_install_files jazzy_foo jazzy_prefix)
    jazzy_foo jazzy_prefix
  = fix_specs.patch_spec_text build_install_files jazzy_foo jazzy_prefix.
Proof. vm_compute. reflexivity. Qed.

(** ** Transforms that change nothing the second time *)

Lemma take_while_app_stop (f : ascii -> bool) (w y : text) :
  forallb f w = true ->
  match y with [] => True | c :: _ => f c = false end ->
  take_while f (w ++ y) = w.
Proof.
  intros Hw Hy. induction w as [|c w IH]; simpl.
  - destruct y as [|d y]; [reflexivity|]. simpl. now rewrite Hy.
  - simpl in Hw. apply andb_true_iff in Hw as [H1 H2]. now rewrite H1, IH.
Qed.

Lemma drop_while_app_stop (f : ascii -> bool) (w y : text) :
  forallb f w = true ->
  match y with [] => True | c :: _ => f c = false end ->
  drop_while f (w ++ y) = y.
Proof.
  intros Hw Hy. rewrite drop_while_all by exact Hw. now apply drop_while_stop.
Qed.

Section Idempotent.

Import fix_specs.

Lemma source_keyword_canonical (kw x : text) :
  kw = txt "Source:" \/ kw = txt "Source0:" ->
  source_keyword (kw ++ x) = Some (List.length kw).
Proof. intros [-> | ->]; reflexivity. Qed.

Lemma source_ok_fixed (s repl rest : text) :
  source_ok s -> source_matcher true s = Some (repl, rest) -> s = repl ++ rest.
Proof.
  intros Hok Hm. apply source_matcher_some in Hm as [k [Hk [-> ->]]].
  assert (Hat : source_at s = true) by (unfold source_at; now rewrite Hk).
  destruct (Hok Hat) as [kw [ws [r [Hkw [Hws [Es Hr]]]]]].
  rewrite Es in Hk. rewrite source_keyword_canonical in Hk by exact Hkw.
  injection Hk as <-. rewrite Es at 2 3 4.
  rewrite firstn_app, firstn_all, Nat.sub_diag, firstn_O, app_nil_r.
  rewrite skipn_app, skipn_all, Nat.sub_diag, skipn_O, app_nil_l.
  rewrite take_while_app_stop, drop_while_app_stop; try exact Hws; try reflexivity.
  rewrite after_line_app; [| reflexivity | exact Hr].
  now rewrite <- !app_assoc.
Qed.

Lemma source_matcher_of_at (s : text) :
  source_at s = false -> source_matcher true s = None.
Proof.
  unfold source_at, source_matcher, source_match.
  now destruct (source_keyword s).
Qed.

Lemma has_source_intro (pre suf : text) :
  bol_after true pre = true -> source_at suf = true -> has_source (pre ++ suf) = true.
Proof.
  intros Hb Hs. unfold has_source.
  pose proof (search_ml_exists source_at pre suf true Hb Hs) as H.
  now destruct (search_ml source_at true (pre ++ suf)).
Qed.

Lemma has_source_fix_source0 (t : text) : has_source (fix_source0 t) = true.
Proof.
  unfold fix_source0. destruct (has_source t) eqn:E.
  - unfold has_source in E.
    destruct (search_ml source_at true t) as [[pre suf]|] eqn:Es; [|discriminate].
    apply search_ml_sound in Es as [Et [Hb [Hs Hfirst]]]. subst t.
    unfold re_sub.
    rewrite (re_sub_before_first _ source_matcher_bol).
    + rewrite Hb.
      destruct (source_matcher true suf) as [[repl rest]|] eqn:Em.
      * rewrite (re_sub_match _ source_matcher_bol source_matcher_lf source_matcher_rest _ _ _ Em).
        apply has_source_intro; [exact Hb|].
        apply source_matcher_some in Em as [k [Hk [-> _]]].
        apply source_keyword_some in Hk as [Hk _].
        unfold source_at. rewrite <- !app_assoc.
        now rewrite source_keyword_canonical.
      * apply source_matcher_none in Em. congruence.
    + intros p1 p2 Ep Hp Hb1. apply source_matcher_of_at. now apply (Hfirst p1 p2).
  - destruct (license_end t) as [[upto rest]|].
    + change (upto ++ [lf] ++ new_source_line ++ rest)
        with (upto ++ lf :: new_source_line ++ rest).
      replace (upto ++ lf :: new_source_line ++ rest)
        with ((upto ++ [lf]) ++ new_source_line ++ rest) by now rewrite <- app_assoc.
      apply has_source_intro; [now rewrite bol_after_lf | reflexivity].
    + replace (rstrip t ++ [lf] ++ new_source_line ++ [lf])
        with ((rstrip t ++ [lf]) ++ new_source_line ++ [lf]) by now rewrite <- app_assoc.
      apply has_source_intro; [now rewrite bol_after_lf | reflexivity].
Qed.

(** [fix_source0] is idempotent on every document. *)
Lemma fix_source0_idempotent (t : text) :
  fix_source0 (fix_source0 t) = fix_source0 t.
Proof.
  unfold fix_source0 at 1. rewrite has_source_fix_source0.
  apply (re_sub_fixed _ source_matcher_bol source_matcher_lf source_matcher_rest source_ok).
  - exact source_ok_fixed.
  - apply fix_source0_all_canonical.
Qed.

Variable rpm_name : text.
Hypothesis rpm_no_lf : no_lf rpm_name = true.
Hypothesis rpm_nonspace : starts_nonspace rpm_name = true.

Lemma name_ok_fixed (s repl rest : text) :
  name_ok rpm_name s -> name_matcher rpm_name true s = Some (repl, rest) ->
  s = repl ++ rest.
Proof.
  intros Hok Hm. apply name_matcher_some in Hm as [Hs [-> ->]].
  destruct (Hok Hs) as [r [Es Hr]]. rewrite Es at 2. rewrite Es at 1.
  unfold name_replacement. rewrite <- app_assoc.
  change (skipn 5 (txt "Name:           " ++ rpm_name ++ r))
    with (txt "           " ++ rpm_name ++ r).
  rewrite drop_while_app_stop; [| reflexivity |].
  - rewrite after_line_app; [reflexivity | exact rpm_no_lf | exact Hr].
  - destruct rpm_name as [|c x]; [discriminate rpm_nonspace|].
    simpl. simpl in rpm_nonspace. now apply negb_true_iff in rpm_nonspace.
Qed.

Lemma has_name_intro (pre suf : text) :
  bol_after true pre = true -> starts_with (txt "Name:") suf = true ->
  has_name (pre ++ suf) = true.
Proof.
  intros Hb Hs. unfold has_name.
  pose proof (search_ml_exists (starts_with (txt "Name:")) pre suf true Hb Hs) as H.
  now destruct (search_ml (starts_with (txt "Name:")) true (pre ++ suf)).
Qed.

Lemma has_name_fix_name (t : text) : has_name (fix_name t rpm_name) = true.
Proof.
  unfold fix_name. destruct (has_name t) eqn:E.
  - unfold has_name in E.
    destruct (search_ml (starts_with (txt "Name:")) true t) as [[pre suf]|] eqn:Es;
      [|discriminate].
    apply search_ml_sound in Es as [Et [Hb [Hs Hfirst]]]. subst t.
    unfold re_sub. rewrite (re_sub_before_first _ (name_matcher_bol rpm_name)).
    + rewrite Hb.
      destruct (name_matcher rpm_name true suf) as [[repl rest]|] eqn:Em.
      * rewrite (re_sub_match _ (name_matcher_bol rpm_name) (name_matcher_lf rpm_name)
                   (name_matcher_rest rpm_name) _ _ _ Em).
        apply has_name_intro; [exact Hb|].
        apply name_matcher_some in Em as [_ [-> _]]. reflexivity.
      * apply name_matcher_none in Em. congruence.
    + intros p1 p2 Ep Hp Hb1. unfold name_matcher, name_match.
      rewrite andb_true_l. now rewrite (Hfirst p1 p2).
  - apply (has_name_intro []); reflexivity.
Qed.

(** [fix_name] is idempotent on every document, for a name without line
    feed that begins with a character other than whitespace. *)
Lemma fix_name_idempotent (t : text) :
  fix_name (fix_name t rpm_name) rpm_name = fix_name t rpm_name.
Proof.
  unfold fix_name at 1. rewrite has_name_fix_name.
  apply (re_sub_fixed _ (name_matcher_bol rpm_name) (name_matcher_lf rpm_name)
           (name_matcher_rest rpm_name) (name_ok rpm_name)).
  - exact name_ok_fixed.
  - now apply fix_name_all_canonical.
Qed.

End Idempotent.

Section Inject.

Import fix_specs.

Lemma contains_unfold (p s : text) :
  contains p s
  = starts_with p s || match s with [] => false | _ :: s' => contains p s' end.
Proof. now destruct s. Qed.

Lemma contains_app_intro (p a b : text) : contains p (a ++ p ++ b) = true.
Proof.
  induction a as [|c a IH].
  - rewrite app_nil_l, contains_unfold. now rewrite starts_with_app.
  - rewrite contains_unfold. change ((c :: a) ++ p ++ b) with (c :: (a ++ p ++ b)).
    cbv iota. rewrite IH. apply orb_true_r.
Qed.

(** The document-level guard: with the marker anywhere in the document,
    [inject_ros_pythonpath] changes nothing. *)
Lemma inject_ros_pythonpath_guard (t ros_prefix : text) :
  contains marker t = true -> inject_ros_pythonpath t ros_prefix = t.
Proof. intros H. unfold inject_ros_pythonpath. now rewrite H. Qed.

Lemma inject_section_marker (ros_prefix t section : text) :
  inject_section ros_prefix t section = t
  \/ contains marker (inject_section ros_prefix t section) = true.
Proof.
  unfold inject_section.
  destruct (section_header_end section t) as [[upto rest]|]; [|now left].
  right. unfold block. rewrite <- !app_assoc. apply contains_app_intro.
Qed.

(** Without the marker, the block is put right after the first header line
    of each section that has one, in the order build, install, check. *)
Lemma inject_ros_pythonpath_unfold (t ros_prefix : text) :
  contains marker t = false ->
  inject_ros_pythonpath t ros_prefix
  = inject_section ros_prefix
      (inject_section ros_prefix (inject_section ros_prefix t (txt "build")) (txt "install"))
      (txt "check").
Proof. intros H. unfold inject_ros_pythonpath. now rewrite H. Qed.

Lemma inject_section_some (ros_prefix t section upto rest : text) :
  section_header_end section t = Some (upto, rest) ->
  t = upto ++ rest
  /\ bol_after true upto = true
  /\ inject_section ros_prefix t section = upto ++ block ros_prefix ++ [lf] ++ rest.
Proof.
  intros H. unfold inject_section. rewrite H. unfold section_header_end in H.
  destruct (search_ml (section_header_at section) true t) as [[pre suf]|] eqn:E;
    [|discriminate].
  apply search_ml_sound in E as [Et _].
  pose proof (first_after_line suf) as Hs. pose proof (after_line_end suf) as Hl.
  destruct (after_line suf) as [|c r]; [discriminate|].
  destruct Hl as [Hl | [r' Hl]]; [discriminate|]. injection Hl as -> ->.
  injection H as Hu ->.
  assert (Ht : t = (pre ++ first_line suf ++ [lf]) ++ rest).
  { rewrite Et, <- Hs at 1. now rewrite <- !app_assoc. }
  rewrite Ht in Hu. rewrite firstn_before_suffix in Hu. subst upto.
  split; [exact Ht|]. split; [|reflexivity].
  rewrite app_assoc. now rewrite bol_after_lf.
Qed.

Lemma inject_ros_pythonpath_result (t ros_prefix : text) :
  inject_ros_pythonpath t ros_prefix = t
  \/ contains marker (inject_ros_pythonpath t ros_prefix) = true.
Proof.
  destruct (contains marker t) eqn:E.
  - left. now apply inject_ros_pythonpath_guard.
  - rewrite (inject_ros_pythonpath_unfold t) by exact E.
    destruct (inject_section_marker ros_prefix
                (inject_section ros_prefix (inject_section ros_prefix t (txt "build"))
                   (txt "install")) (txt "check")) as [H3 | H3];
      [rewrite H3 | now right].
    destruct (inject_section_marker ros_prefix (inject_section ros_prefix t (txt "build"))
                (txt "install")) as [H2 | H2];
      [rewrite H2 | now right].
    apply inject_section_marker.
Qed.

(** [inject_ros_pythonpath] is idempotent on every document. *)
Lemma inject_ros_pythonpath_idempotent (t ros_prefix : text) :
  inject_ros_pythonpath (inject_ros_pythonpath t ros_prefix) ros_prefix
  = inject_ros_pythonpath t ros_prefix.
Proof.
  destruct (inject_ros_pythonpath_result t ros_prefix) as [H | H].
  - now rewrite !H.
  - now apply inject_ros_pythonpath_guard.
Qed.

End Inject.

Section EnsureBconds.

Import fix_specs.

Lemma splitlines_lf (cur x : text) :
  splitlines_from false cur (lf :: x) = cur :: splitlines_from false [] x.
Proof. destruct x; simpl; now rewrite app_nil_r. Qed.

Lemma splitlines_plain (c : ascii) (cur x : text) :
  is_linebreak c = false ->
  splitlines_from false cur (c :: x) = splitlines_from false (cur ++ [c]) x.
Proof. intros H. simpl. now rewrite H. Qed.

Lemma splitlines_line (u cur x : text) :
  forallb (fun c => negb (is_linebreak c)) u = true ->
  splitlines_from false cur (u ++ lf :: x) = (cur ++ u) :: splitlines_from false [] x.
Proof.
  revert cur. induction u as [|c u IH]; intros cur H.
  - rewrite app_nil_r. apply splitlines_lf.
  - simpl in H. apply andb_true_iff in H as [H1 H2]. apply negb_true_iff in H1.
    simpl app. rewrite splitlines_plain by exact H1. rewrite IH by exact H2.
    now rewrite <- app_assoc.
Qed.

Lemma existing_unfold (t : text) :
  existing t = filter (starts_with bcond_prefix) (map strip (splitlines t)).
Proof. reflexivity. Qed.

Lemma existing_lf (x : text) : existing (lf :: x) = existing x.
Proof. unfold existing, splitlines. rewrite splitlines_lf. reflexivity. Qed.

Lemma existing_lstrip_lf (t : text) : existing (lstrip_lf t) = existing t.
Proof.
  unfold lstrip_lf. induction t as [|c t IH]; [reflexivity|].
  simpl. destruct (is_lf c) eqn:E; [|reflexivity].
  apply Ascii.eqb_eq in E. subst c. now rewrite existing_lf.
Qed.

Lemma existing_line (u x : text) :
  forallb (fun c => negb (is_linebreak c)) u = true ->
  existing (u ++ lf :: x)
  = (if starts_with bcond_prefix (strip u) then [strip u] else []) ++ existing x.
Proof.
  intros H. unfold existing, splitlines. rewrite splitlines_line by exact H.
  rewrite app_nil_l. cbn [map filter].
  now destruct (starts_with bcond_prefix (strip u)).
Qed.

Lemma missing_unfold (t : text) :
  missing t
  = (if existsb (text_eqb tests_line) (existing t) then [] else [tests_line])
    ++ (if existsb (text_eqb weak_deps_line) (existing t) then [] else [weak_deps_line]).
Proof.
  unfold missing, needed. cbn [filter]. fold tests_line weak_deps_line.
  destruct (existsb (text_eqb tests_line) (existing t));
    destruct (existsb (text_eqb weak_deps_line) (existing t)); reflexivity.
Qed.

Lemma missing_cases (t : text) :
  missing t = [] \/ missing t = [tests_line] \/ missing t = [weak_deps_line]
  \/ missing t = [tests_line; weak_deps_line].
Proof.
  rewrite missing_unfold.
  destruct (existsb (text_eqb tests_line) (existing t));
    destruct (existsb (text_eqb weak_deps_line) (existing t)); simpl; auto.
Qed.

Lemma missing_nil_iff (t : text) :
  missing t = [] <->
  existsb (text_eqb tests_line) (existing t) = true
  /\ existsb (text_eqb weak_deps_line) (existing t) = true.
Proof.
  rewrite missing_unfold.
  destruct (existsb (text_eqb tests_line) (existing t));
    destruct (existsb (text_eqb weak_deps_line) (existing t));
    simpl; split; try discriminate; try tauto; intros [H1 H2]; discriminate.
Qed.

(** The lines that [ensure_bconds] puts at the head are found by its
    second application, together with those that were there. *)
Lemma existing_ensure_bconds (t : text) :
  missing t <> [] ->
  existing (ensure_bconds t) = missing t ++ existing t.
Proof.
  intros Hn. unfold ensure_bconds.
  destruct (missing_cases t) as [H | [H | [H | H]]]; rewrite H in *;
    [congruence | | |].
  - change (join [lf] [tests_line] ++ [lf; lf] ++ lstrip_lf t)
      with (tests_line ++ lf :: lf :: lstrip_lf t).
    rewrite existing_line by reflexivity. rewrite existing_lf, existing_lstrip_lf.
    reflexivity.
  - change (join [lf] [weak_deps_line] ++ [lf; lf] ++ lstrip_lf t)
      with (weak_deps_line ++ lf :: lf :: lstrip_lf t).
    rewrite existing_line by reflexivity. rewrite existing_lf, existing_lstrip_lf.
    reflexivity.
  - replace (join [lf] [tests_line; weak_deps_line] ++ [lf; lf] ++ lstrip_lf t)
      with (tests_line ++ lf :: weak_deps_line ++ lf :: lf :: lstrip_lf t)
      by (unfold join; now rewrite <- !app_assoc).
    rewrite existing_line by reflexivity. rewrite existing_line by reflexivity.
    rewrite existing_lf, existing_lstrip_lf. reflexivity.
Qed.

Lemma missing_in (t l : text) :
  In l needed -> existsb (text_eqb l) (existing t) = false -> In l (missing t).
Proof.
  intros Hl He. unfold missing. apply filter_In. split; [exact Hl|]. now rewrite He.
Qed.

Lemma existsb_text_in (l : text) (ls : list text) :
  In l ls -> existsb (text_eqb l) ls = true.
Proof. intros H. apply existsb_exists. exists l. split; [exact H | apply text_eqb_refl]. Qed.

(** [ensure_bconds] is idempotent on every document. *)
Lemma ensure_bconds_idempotent (t : text) :
  ensure_bconds (ensure_bconds t) = ensure_bconds t.
Proof.
  destruct (missing t) as [|m0 ms] eqn:Em.
  - unfold ensure_bconds at 2. rewrite Em. unfold ensure_bconds. now rewrite Em.
  - assert (Hn : missing t <> []) by (rewrite Em; discriminate).
    assert (H : missing (ensure_bconds t) = []).
    { apply missing_nil_iff. rewrite (existing_ensure_bconds t Hn), !existsb_app.
      split; apply orb_true_iff.
      - destruct (existsb (text_eqb tests_line) (existing t)) eqn:E; [now right | left].
        apply existsb_text_in, missing_in; [now left | exact E].
      - destruct (existsb (text_eqb weak_deps_line) (existing t)) eqn:E; [now right | left].
        apply existsb_text_in, missing_in; [right; now left | exact E]. }
    unfold ensure_bconds at 1. now rewrite H.
Qed.

End EnsureBconds.

(* ===================================================================== *)
(** * Part III: further properties of the scripts                        *)
(* ===================================================================== *)

(** ** The steps of the patch pipeline, one by one *)

Lemma ensure_bconds_missing_nil (t : text) :
  fix_specs.missing (fix_specs.ensure_bconds t) = [].
Proof.
  destruct (fix_specs.missing t) as [|m0 ms] eqn:Em.
  - unfold fix_specs.ensure_bconds. now rewrite Em.
  - assert (Hn : fix_specs.missing t <> []) by (rewrite Em; discriminate).
    apply missing_nil_iff. rewrite (existing_ensure_bconds t Hn), !existsb_app.
    split; apply orb_true_iff.
    + destruct (existsb (text_eqb tests_line) (fix_specs.existing t)) eqn:E;
        [now right | left].
      apply existsb_text_in, missing_in; [now left | exact E].
    + destruct (existsb (text_eqb weak_deps_line) (fix_specs.existing t)) eqn:E;
        [now right | left].
      apply existsb_text_in, missing_in; [right; now left | exact E].
Qed.

(** [ensure_bconds]: in its result both switch lines, [%bcond_without tests]
    and [%bcond_without weak_deps], are among the stripped lines of the
    document, so none is missing; the document itself is kept, after the
    new lines, but for its leading line feeds; and a second application
    changes nothing. *)
Theorem ensure_bconds_establishes_switches :
  forall t : text,
    fix_specs.missing (fix_specs.ensure_bconds t) = []
    /\ existsb (text_eqb tests_line) (fix_specs.existing (fix_specs.ensure_bconds t)) = true
    /\ existsb (text_eqb weak_deps_line) (fix_specs.existing (fix_specs.ensure_bconds t)) = true
    /\ suffix_of (lstrip_lf t) (fix_specs.ensure_bconds t)
    /\ fix_specs.ensure_bconds (fix_specs.ensure_bconds t) = fix_specs.ensure_bconds t.
Proof.
  intros t. pose proof (ensure_bconds_missing_nil t) as H.
  split; [exact H|]. apply missing_nil_iff in H as [H1 H2].
  split; [exact H1|]. split; [exact H2|]. split; [|apply ensure_bconds_idempotent].
  unfold fix_specs.ensure_bconds. destruct (fix_specs.missing t) as [|m0 ms].
  - apply suffix_of_drop_while.
  - exists (join [lf] (m0 :: ms) ++ [lf; lf]). now rewrite <- app_assoc.
Qed.

(** [fix_source0]: its result always has a line that matches the source
    anchor, and a second application changes nothing, on every document. *)
Theorem fix_source0_settles :
  forall t : text,
    fix_specs.has_source (fix_specs.fix_source0 t) = true
    /\ fix_specs.fix_source0 (fix_specs.fix_source0 t) = fix_specs.fix_source0 t.
Proof.
  intros t. split; [apply has_source_fix_source0 | apply fix_source0_idempotent].
Qed.



(** With a name that is empty, [fix_name] is not idempotent: the [\s*] of
    its pattern runs over the line feed and takes the next line. *)
Example fix_name_empty_name_twice :
  fix_specs.fix_name (doc ["Name: a"; "Version: 1"]) []
  = doc ["Name:           "; "Version: 1"]
  /\ fix_specs.fix_name (fix_specs.fix_name (doc ["Name: a"; "Version: 1"]) []) []
     = doc ["Name:           "].
Proof. split; vm_compute; reflexivity. Qed.

(** [inject_ros_pythonpath]: a document that holds the marker is returned
    as it is; any other document is returned as it is or with the marker
    in it; hence a second application changes nothing. *)
Theorem inject_ros_pythonpath_settles :
  forall t ros_prefix : text,
    (contains fix_specs.marker t = true ->
     fix_specs.inject_ros_pythonpath t ros_prefix = t)
    /\ (fix_specs.inject_ros_pythonpath t ros_prefix = t
        \/ contains fix_specs.marker (fix_specs.inject_ros_pythonpath t ros_prefix) = true)
    /\ fix_specs.inject_ros_pythonpath (fix_specs.inject_ros_pythonpath t ros_prefix) ros_prefix
       = fix_specs.inject_ros_pythonpath t ros_prefix.
Proof.
  intros t ros_prefix. split; [apply inject_ros_pythonpath_guard|].
  split; [apply inject_ros_pythonpath_result | apply inject_ros_pythonpath_idempotent].
Qed.

Lemma inject_ros_pythonpath_settles_witness :
  fix_specs.inject_ros_pythonpath
    (doc ["%build"; "# BEGIN ros_pythonpath"; "make"; "%install"]) jazzy_prefix
  = doc ["%build"; "# BEGIN ros_pythonpath"; "make"; "%install"].
Proof.
  destruct (inject_ros_pythonpath_settles
              (doc ["%build"; "# BEGIN ros_pythonpath"; "make"; "%install"]) jazzy_prefix)
    as [H _].
  apply H. vm_compute. reflexivity.
Defined.

(** *** [fix_files_section] where the files pattern matches *)

Lemma bol_after_true_ends_lf (b : bool) (x : text) :
  bol_after b x = true -> x <> [] -> exists x', x = x' ++ [lf].
Proof.
  revert b. induction x as [|c x IH]; intros b H Hn; [congruence|].
  destruct x as [|d x].
  - simpl in H. apply Ascii.eqb_eq in H. subst c. now exists [].
  - destruct (IH (is_lf c) H ltac:(discriminate)) as [x' E].
    exists (c :: x'). now rewrite E.
Qed.

Lemma bol_after_tail (b1 b2 : bool) (x1 x2 y : text) :
  y <> [] -> bol_after b1 (x1 ++ y) = bol_after b2 (x2 ++ y).
Proof.
  intros Hn. rewrite !bol_after_app. revert Hn.
  generalize (bol_after b1 x1) (bol_after b2 x2). intros c1 c2.
  destruct y as [|c y]; [congruence|]. reflexivity.
Qed.

Lemma after_line_app_lf (u x : text) :
  after_line u <> [] -> after_line (u ++ x) = after_line u ++ x.
Proof.
  unfold after_line. induction u as [|c u IH]; simpl; [congruence|].
  destruct (negb (is_lf c)); [exact IH | reflexivity].
Qed.

Lemma search_ml_here (test : text -> bool) (s : text) :
  test s = true -> search_ml test true s = Some ([], s).
Proof. intros H. destruct s; simpl; now rewrite H. Qed.

(** Before a line start, whether the files pattern matches does not depend
    on what follows, as long as a changelog line start follows. *)
Lemma files_block_test_before (p2 x : text) :
  (exists x', p2 = x' ++ [lf]) ->
  fix_specs.files_block_test (p2 ++ x)
  = starts_with (txt "%files") p2
    && match after_line p2 with
       | [] => false
       | _ :: p3 =>
           match search_ml fix_specs.changelog_at true (p3 ++ x) with
           | Some _ => true
           | None => false
           end
       end.
Proof.
  intros [x' ->]. unfold fix_specs.files_block_test, fix_specs.files_block_at.
  rewrite <- !app_assoc. rewrite starts_with_cut by reflexivity.
  rewrite <- (starts_with_cut (txt "%files") x' [lf]) by reflexivity.
  destruct (starts_with (txt "%files") (x' ++ [lf])); [|reflexivity].
  rewrite andb_true_l.
  assert (Hal : after_line (x' ++ [lf]) <> []).
  { unfold after_line. clear. induction x' as [|c x' IH]; simpl; [discriminate|].
    destruct (negb (is_lf c)); [exact IH | discriminate]. }
  change (x' ++ [lf] ++ x) with (x' ++ ([lf] ++ x)).
  rewrite app_assoc, (after_line_app_lf _ x Hal).
  destruct (after_line (x' ++ [lf])) as [|c p3]; [congruence|].
  simpl app. cbv iota.
  destruct (search_ml fix_specs.changelog_at true (p3 ++ x)) as [[a b]|]; reflexivity.
Qed.

Lemma new_block_is_block (ros_prefix suf : text) :
  no_lf ros_prefix = true ->
  starts_with (txt "%changelog") ros_prefix = false ->
  fix_specs.changelog_at suf = true ->
  fix_specs.files_block_at (fix_specs.new_block ros_prefix ++ suf)
  = Some (fix_specs.new_block ros_prefix, suf).
Proof.
  intros Hp Hc Hs. unfold fix_specs.files_block_at, fix_specs.new_block.
  rewrite <- !app_assoc.
  change (starts_with (txt "%files") (txt "%files" ++ [lf] ++ ros_prefix ++ [lf] ++ suf))
    with true. cbv iota.
  change (after_line (txt "%files" ++ [lf] ++ ros_prefix ++ [lf] ++ suf))
    with (lf :: ros_prefix ++ lf :: suf). cbv iota.
  rewrite search_ml_after_line; [| exact Hp |].
  - rewrite (search_ml_here _ _ Hs). f_equal. f_equal.
    replace (txt "%files" ++ [lf] ++ ros_prefix ++ [lf] ++ suf)
      with ((txt "%files" ++ [lf] ++ ros_prefix ++ [lf]) ++ suf)
      by now rewrite <- !app_assoc.
    now rewrite firstn_before_suffix.
  - intros _. unfold fix_specs.changelog_at, lit_boundary.
    change (lf :: suf) with ([lf] ++ suf).
    rewrite starts_with_cut by reflexivity. now rewrite Hc.
Qed.

Lemma fix_files_section_fixed (t ros_prefix pre blk suf : text) :
  no_lf ros_prefix = true ->
  starts_with (txt "%changelog") ros_prefix = false ->
  fix_specs.files_block_search t = Some (pre, blk, suf) ->
  fix_specs.files_block_search (pre ++ fix_specs.new_block ros_prefix ++ suf)
  = Some (pre, fix_specs.new_block ros_prefix, suf).
Proof.
  intros Hp Hc H.
  destruct (fix_files_section_some t ros_prefix _ _ _ H) as [Et [Hbb [Hcs _]]].
  apply files_block_search_some in H as [s [H1 H2]].
  apply search_ml_sound in H1 as [Ets [Hb [Hts Hfirst]]].
  apply files_block_at_some in H2 as [_ [m [Es [Eblk _]]]].
  assert (Hblk : blk <> []) by (rewrite Eblk; destruct (first_line s); discriminate).
  assert (Es' : s = blk ++ suf).
  { rewrite Es at 1. rewrite Eblk. now rewrite <- app_assoc. }
  pose proof (new_block_is_block ros_prefix suf Hp Hc Hcs) as Hnb.
  unfold fix_specs.files_block_search.
  rewrite (search_ml_intro fix_specs.files_block_test pre
             (fix_specs.new_block ros_prefix ++ suf) true).
  - now rewrite Hnb.
  - exact Hb.
  - unfold fix_specs.files_block_test. now rewrite Hnb.
  - intros p1 p2 Ep Hp2 Hb1.
    assert (Hend : exists x', p2 = x' ++ [lf]).
    { rewrite Ep, bol_after_app in Hb. now apply (bol_after_true_ends_lf _ _ Hb). }
    pose proof (Hfirst p1 p2 Ep Hp2 Hb1) as Hold. rewrite Es' in Hold.
    rewrite (files_block_test_before p2 _ Hend) in Hold.
    rewrite (files_block_test_before p2 _ Hend).
    destruct (starts_with (txt "%files") p2); [|reflexivity].
    rewrite andb_true_l in *.
    destruct (after_line p2) as [|c p3]; [reflexivity|].
    exfalso. rewrite app_assoc in Hold.
    pose proof (search_ml_exists fix_specs.changelog_at (p3 ++ blk) suf true) as Hex.
    rewrite (bol_after_tail true true p3 pre blk Hblk) in Hex.
    specialize (Hex Hbb Hcs).
    destruct (search_ml fix_specs.changelog_at true ((p3 ++ blk) ++ suf)); congruence.
Qed.

(** [fix_files_section] on a document where a [%files] header line is
    followed by a [%changelog] line start, with the prefix of a
    distribution whose name has no line feed: everything from the first
    such header up to the next [%changelog] is replaced by the block
    [%files], prefix; the text before and the text from that [%changelog]
    on are kept; the files pattern then finds exactly this block, and a
    second application changes nothing. *)
Theorem fix_files_section_settles_with_changelog :
  forall (t ros_distro pre blk suf : text),
    no_lf ros_distro = true ->
    fix_specs.files_block_search t = Some (pre, blk, suf) ->
    let p := fix_specs.ros_prefix_of ros_distro in
    t = pre ++ blk ++ suf
    /\ fix_specs.fix_files_section t p = pre ++ fix_specs.new_block p ++ suf
    /\ fix_specs.files_block_search (fix_specs.fix_files_section t p)
       = Some (pre, fix_specs.new_block p, suf)
    /\ fix_specs.fix_files_section (fix_specs.fix_files_section t p) p
       = fix_specs.fix_files_section t p.
Proof.
  intros t ros_distro pre blk suf Hd H p.
  assert (Hp : no_lf p = true).
  { unfold p, fix_specs.ros_prefix_of, no_lf. rewrite forallb_app.
    apply andb_true_iff. split; [reflexivity | exact Hd]. }
  assert (Hc : starts_with (txt "%changelog") p = false) by reflexivity.
  destruct (fix_files_section_some t p _ _ _ H) as [Et [_ [_ E]]].
  rewrite <- app_assoc in E.
  pose proof (fix_files_section_fixed t p pre blk suf Hp Hc H) as Hfix.
  split; [exact Et|]. split; [exact E|]. rewrite E. split; [exact Hfix|].
  unfold fix_specs.fix_files_section at 1. now rewrite Hfix.
Qed.

Lemma fix_files_section_settles_with_changelog_witness :
  fix_specs.fix_files_section
    (fix_specs.fix_files_section
       (doc ["Name: foo"; "%files"; "/usr"; "%files devel"; "/usr/include";
             "%changelog"; "* first release"]) jazzy_prefix) jazzy_prefix
  = doc ["Name: foo"; "%files"; "/opt/ros/jazzy"; "%changelog"; "* first release"].
Proof.
  destruct (fix_files_section_settles_with_changelog
              (doc ["Name: foo"; "%files"; "/usr"; "%files devel"; "/usr/include";
                    "%changelog"; "* first release"])
              (txt "jazzy")
              (doc ["Name: foo"])
              (doc ["%files"; "/usr"; "%files devel"; "/usr/include"])
              (doc ["%changelog"; "* first release"])
              ltac:(vm_compute; reflexivity) ltac:(vm_compute; reflexivity))
    as [_ [_ [_ H]]].
  change (fix_specs.ros_prefix_of (txt "jazzy")) with jazzy_prefix in H.
  rewrite H. vm_compute. reflexivity.
Defined.

(** *** Nothing to fix: [fix_py3_install] and [fix_cmake_prefixes] *)

Lemma starts_with_app_l (p a b : text) :
  starts_with p a = true -> starts_with p (a ++ b) = true.
Proof.
  intros H. apply starts_with_iff in H as [r ->]. rewrite <- app_assoc.
  apply starts_with_app.
Qed.

Lemma contains_app_r (p a b : text) :
  contains p b = true -> contains p (a ++ b) = true.
Proof.
  intros H. induction a as [|c a IH]; [exact H|].
  rewrite contains_unfold. change ((c :: a) ++ b) with (c :: (a ++ b)). cbv iota.
  rewrite IH. apply orb_true_r.
Qed.

Lemma contains_app_l (p a b : text) :
  contains p a = true -> contains p (a ++ b) = true.
Proof.
  induction a as [|c a IH]; intros H.
  - rewrite contains_unfold in H. rewrite orb_false_r in H.
    rewrite app_nil_l, contains_unfold.
    destruct p; [reflexivity | discriminate H].
  - rewrite contains_unfold in H. apply orb_true_iff in H as [H | H].
    + rewrite contains_unfold. now rewrite (starts_with_app_l _ _ b H).
    + rewrite contains_unfold. change ((c :: a) ++ b) with (c :: (a ++ b)). cbv iota.
      rewrite (IH H). apply orb_true_r.
Qed.

Lemma contains_concat (p l : text) (ls : list text) :
  In l ls -> contains p l = true -> contains p (List.concat ls) = true.
Proof.
  intros Hin H. apply in_split in Hin as [l1 [l2 ->]].
  rewrite concat_app, concat_cons. apply contains_app_r. now apply contains_app_l.
Qed.

(** A document that does not hold the text [%py3_install] goes through
    [fix_py3_install] unchanged, whatever its line ends. *)
Theorem fix_py3_install_nothing_to_fix :
  forall t ros_prefix : text,
    contains (txt "%py3_install") t = false ->
    fix_specs.fix_py3_install t ros_prefix = t.
Proof.
  intros t ros_prefix H. unfold fix_specs.fix_py3_install.
  rewrite <- (concat_splitlines_keepends t) at 2. f_equal.
  rewrite <- (map_id (splitlines_keepends t)) at 2. apply map_ext_in.
  intros l Hl. unfold fix_specs.fix_py3_line.
  destruct (contains (txt "%py3_install") l) eqn:E; [|reflexivity].
  pose proof (contains_concat _ _ _ Hl E) as Hc.
  rewrite concat_splitlines_keepends in Hc. congruence.
Qed.

Lemma fix_py3_install_nothing_to_fix_witness :
  fix_specs.fix_py3_install (txt "%build" ++ [cr; lf] ++ txt "make" ++ [cr]) jazzy_prefix
  = txt "%build" ++ [cr; lf] ++ txt "make" ++ [cr].
Proof.
  apply fix_py3_install_nothing_to_fix. vm_compute. reflexivity.
Defined.

Lemma re_sub_from_no_match (m : bool -> text -> option (text * text)) (s : text) :
  (forall bol pre suf, s = pre ++ suf -> m bol suf = None) ->
  forall bol, re_sub_from m bol 0 s = s.
Proof.
  induction s as [|c s IH]; intros H bol; [reflexivity|].
  simpl. rewrite (H bol [] (c :: s) eq_refl). f_equal. apply IH.
  intros b pre suf E. apply (H b (c :: pre) suf). now rewrite E.
Qed.

Lemma contains_false_suffix (p pre suf : text) :
  contains p (pre ++ suf) = false -> starts_with p suf = false.
Proof.
  intros H. destruct (starts_with p suf) eqn:E; [|reflexivity].
  assert (Hc : contains p suf = true) by (rewrite contains_unfold; now rewrite E).
  now rewrite (contains_app_r p pre suf Hc) in H.
Qed.

Lemma flag_sub_no_flag (flag ros_prefix t : text) :
  contains flag t = false -> re_sub (fix_specs.flag_matcher flag ros_prefix) t = t.
Proof.
  intros H. apply re_sub_from_no_match. intros bol pre suf E.
  unfold fix_specs.flag_matcher. rewrite E in H.
  now rewrite (contains_false_suffix _ _ _ H).
Qed.



(** *** The two package-list loaders *)

Lemma load_numbered_from_spec (lines : list text) :
  forall n,
    map (fun e => (fst (fst e), snd (fst e))) (fst (pkg_list.load_numbered_from n lines))
    = fst (pkg_list.load_from n lines)
    /\ snd (pkg_list.load_numbered_from n lines) = snd (pkg_list.load_from n lines)
    /\ (forall name path k,
           In (name, path, k) (fst (pkg_list.load_numbered_from n lines)) ->
           n <= k < n + List.length lines
           /\ pkg_line (nth (k - n) lines []) = LineEntry name path)
    /\ (forall k, n <= k < n + List.length lines ->
           forall name path, pkg_line (nth (k - n) lines []) = LineEntry name path ->
           In (name, path, k) (fst (pkg_list.load_numbered_from n lines)))
    /\ StronglySorted lt (map snd (fst (pkg_list.load_numbered_from n lines))).
Proof.
  induction lines as [|line rest IH]; intros n.
  - simpl. split; [reflexivity|]. split; [reflexivity|].
    split; [intros ? ? ? []|]. split; [intros; lia | constructor].
  - destruct (IH (S n)) as [H1 [H2 [H3 [H4 H5]]]]. cbn [pkg_list.load_numbered_from pkg_list.load_from].
    destruct (pkg_list.load_numbered_from (S n) rest) as [en wn].
    destruct (pkg_list.load_from (S n) rest) as [e w].
    cbn [fst snd] in *.
    assert (Hrest : forall name path k, In (name, path, k) en ->
              n <= k < n + List.length (line :: rest)
              /\ pkg_line (nth (k - n) (line :: rest) []) = LineEntry name path).
    { intros name path k Hin. destruct (H3 _ _ _ Hin) as [Hk Hl]. cbn [List.length].
      split; [lia|]. replace (k - n) with (S (k - S n)) by lia. exact Hl. }
    assert (Hback : forall k, S n <= k < n + List.length (line :: rest) ->
              forall name path, pkg_line (nth (k - n) (line :: rest) []) = LineEntry name path ->
              In (name, path, k) en).
    { intros k Hk name path Hl. apply H4; [cbn [List.length] in Hk; lia|].
      replace (k - n) with (S (k - S n)) in Hl by lia. exact Hl. }
    assert (Hlow : Forall (lt n) (map snd en)).
    { apply Forall_forall. intros k Hk. apply in_map_iff in Hk as [[[a b] k'] [<- Hin]].
      destruct (H3 _ _ _ Hin) as [Hk _]. cbn [snd]. lia. }
    destruct (pkg_line line) as [|l|a b] eqn:E; cbn [fst snd map].
    + split; [assumption|]. split; [assumption|]. split; [exact Hrest|].
      split; [|assumption].
      intros k Hk name path Hl. destruct (Nat.eq_dec k n) as [-> | Hne].
      * rewrite Nat.sub_diag in Hl. cbn [nth] in Hl. congruence.
      * apply (Hback k); [lia | exact Hl].
    + split; [assumption|]. split; [now f_equal|]. split; [exact Hrest|].
      split; [|assumption].
      intros k Hk name path Hl. destruct (Nat.eq_dec k n) as [-> | Hne].
      * rewrite Nat.sub_diag in Hl. cbn [nth] in Hl. congruence.
      * apply (Hback k); [lia | exact Hl].
    + split; [now f_equal|]. split; [assumption|]. split; [|split].
      * intros name path k [Hin | Hin]; [|now apply Hrest].
        injection Hin as -> -> ->. cbn [List.length]. split; [lia|].
        rewrite Nat.sub_diag. exact E.
      * intros k Hk name path Hl. destruct (Nat.eq_dec k n) as [-> | Hne].
        -- rewrite Nat.sub_diag in Hl. cbn [nth] in Hl. left. congruence.
        -- right. apply (Hback k); [lia | exact Hl].
      * constructor; assumption.
Qed.

(** The loader of [gen_template_specs.py] and the loader of [fix_specs.py]
    read the same file alike: the same entries in the same order, the same
    warnings.  The line number the first one attaches to an entry is the
    number (from one) of the line the entry was read from, every line that
    holds an entry is there with its number, and the numbers increase along
    the list. *)
Theorem load_pkg_list_numbered_agrees :
  forall lines : list text,
    map (fun e => (fst (fst e), snd (fst e))) (fst (pkg_list.load_pkg_list_numbered lines))
    = fst (pkg_list.load_pkg_list lines)
    /\ snd (pkg_list.load_pkg_list_numbered lines) = snd (pkg_list.load_pkg_list lines)
    /\ (forall name path k,
           In (name, path, k) (fst (pkg_list.load_pkg_list_numbered lines))
           <-> (1 <= k <= List.length lines
                /\ pkg_line (nth (k - 1) lines []) = LineEntry name path))
    /\ StronglySorted lt (map snd (fst (pkg_list.load_pkg_list_numbered lines))).
Proof.
  intros lines. unfold pkg_list.load_pkg_list_numbered, pkg_list.load_pkg_list.
  destruct (load_numbered_from_spec lines 1) as [H1 [H2 [H3 [H4 H5]]]].
  split; [assumption|]. split; [assumption|]. split; [|assumption].
  intros name path k. split.
  - intros H. apply H3 in H. split; [lia | tauto].
  - intros [Hk Hl]. apply H4; [lia | exact Hl].
Qed.

Lemma load_pkg_list_numbered_agrees_witness :
  fst (pkg_list.load_pkg_list_numbered [txt "# packages"; sample_list_line; txt "solo"])
  = [(txt "demo_nodes", txt "src/demo/demo_nodes", 2)]
  /\ map (fun e => (fst (fst e), snd (fst e)))
         (fst (pkg_list.load_pkg_list_numbered
                 [txt "# packages"; sample_list_line; txt "solo"]))
     = fst (pkg_list.load_pkg_list [txt "# packages"; sample_list_line; txt "solo"]).
Proof.
  split; [vm_compute; reflexivity|].
  exact (proj1 (load_pkg_list_numbered_agrees
                  [txt "# packages"; sample_list_line; txt "solo"])).
Defined.

Lemma load_from_account (lines : list text) :
  forall n,
    List.length (fst (pkg_list.load_from n lines))
    + List.length (snd (pkg_list.load_from n lines))
    + List.length (filter ignored_line lines)
    = List.length lines
    /\ (forall k l,
           In (k, l) (snd (pkg_list.load_from n lines))
           <-> (n <= k < n + List.length lines
                /\ pkg_line (nth (k - n) lines []) = LineWarned l)).
Proof.
  induction lines as [|line rest IH]; intros n.
  - simpl. split; [reflexivity|]. intros k l. split; [intros [] | intros [H _]; lia].
  - destruct (IH (S n)) as [H1 H2]. cbn [pkg_list.load_from filter List.length].
    change (ignored_line line)
      with (match pkg_line line with LineIgnored => true | _ => false end).
    destruct (pkg_list.load_from (S n) rest) as [e w]. cbn [fst snd] in *.
    assert (Hshift : forall k l,
               In (k, l) w
               <-> (S n <= k < n + S (List.length rest)
                    /\ pkg_line (nth (k - n) (line :: rest) []) = LineWarned l)).
    { intros k l. rewrite H2. split.
      - intros [Hk Hl]. split; [lia|]. replace (k - n) with (S (k - S n)) by lia.
        exact Hl.
      - intros [Hk Hl]. split; [lia|]. replace (k - n) with (S (k - S n)) in Hl by lia.
        exact Hl. }
    assert (Hhere : forall k r,
               n <= k < n + S (List.length rest) ->
               pkg_line (nth (k - n) (line :: rest) []) = r ->
               (S n <= k /\ pkg_line (nth (k - n) (line :: rest) []) = r)
               \/ (k = n /\ pkg_line line = r)).
    { intros k r Hk Hl. destruct (Nat.eq_dec k n) as [-> | Hne].
      - right. rewrite Nat.sub_diag in Hl. now split.
      - left. split; [lia | exact Hl]. }
    destruct (pkg_line line) as [|l0|a b] eqn:E; cbn [fst snd List.length]; cbv iota.
    + split; [lia|]. intros k l. rewrite Hshift. split.
      * intros [Hk Hl]. split; [lia | exact Hl].
      * intros [Hk Hl]. destruct (Hhere k _ Hk Hl) as [[Hk' _] | [_ Hbad]];
          [split; [lia | exact Hl] | discriminate Hbad].
    + split; [lia|]. intros k l. split.
      * intros [Hin | Hin].
        -- injection Hin as <- <-. split; [lia|]. rewrite Nat.sub_diag. exact E.
        -- apply Hshift in Hin as [Hk Hl]. split; [lia | exact Hl].
      * intros [Hk Hl]. destruct (Hhere k _ Hk Hl) as [[Hk' _] | [-> Hl']].
        -- right. apply Hshift. split; [lia | exact Hl].
        -- left. congruence.
    + split; [lia|]. intros k l. rewrite Hshift. split.
      * intros [Hk Hl]. split; [lia | exact Hl].
      * intros [Hk Hl]. destruct (Hhere k _ Hk Hl) as [[Hk' _] | [_ Hbad]];
          [split; [lia | exact Hl] | discriminate Hbad].
Qed.

(** The loader accounts for every line of the package list once: a line
    gives an entry, or a warning, or it is blank or a comment and passed
    over in silence.  A warning carries the number (from one) of its line
    and the stripped line, and every line with fewer than two fields that
    is neither blank nor a comment is warned about. *)
Theorem load_pkg_list_accounts_for_lines :
  forall lines : list text,
    List.length (fst (pkg_list.load_pkg_list lines))
    + List.length (snd (pkg_list.load_pkg_list lines))
    + List.length (filter ignored_line lines)
    = List.length lines
    /\ (forall line, ignored_line line = true
                     <-> (strip line = [] \/ starts_with (txt "#") (strip line) = true))
    /\ (forall k l,
           In (k, l) (snd (pkg_list.load_pkg_list lines))
           <-> (1 <= k <= List.length lines
                /\ ignored_line (nth (k - 1) lines []) = false
                /\ List.length (split_ws (nth (k - 1) lines [])) < 2
                /\ l = strip (nth (k - 1) lines []))).
Proof.
  intros lines. unfold pkg_list.load_pkg_list.
  destruct (load_from_account lines 1) as [H1 H2]. split; [exact H1|]. split.
  - intros line. unfold ignored_line, pkg_line. rewrite split_ws_strip.
    destruct (text_eqb (strip line) []) eqn:E1; cbn [orb].
    + apply text_eqb_eq in E1. split; [now left | reflexivity].
    + apply text_eqb_neq in E1.
      destruct (starts_with (txt "#") (strip line)) eqn:E2.
      * split; [now right | reflexivity].
      * destruct (split_ws line) as [|a [|b r]]; split; try discriminate;
          intros [H | H]; congruence.
  - intros k l. rewrite H2. split.
    + intros [Hk Hl]. split; [lia|]. unfold ignored_line. rewrite Hl.
      split; [reflexivity|]. now apply pkg_line_warned.
    + intros [Hk [Hi [Hn Hl]]]. split; [lia|]. unfold ignored_line in Hi.
      unfold pkg_line in *. rewrite split_ws_strip in *.
      destruct (text_eqb (strip (nth (k - 1) lines [])) []
                || starts_with (txt "#") (strip (nth (k - 1) lines []))); [discriminate|].
      destruct (split_ws (nth (k - 1) lines [])) as [|a [|b r]]; simpl in Hn;
        try lia; now rewrite Hl.
Qed.

Lemma load_pkg_list_accounts_for_lines_witness :
  In (3, txt "solo")
     (snd (pkg_list.load_pkg_list [txt "# packages"; sample_list_line; txt " solo "])).
Proof.
  apply (load_pkg_list_accounts_for_lines
           [txt "# packages"; sample_list_line; txt " solo "]).
  vm_compute. repeat split; lia.
Defined.

Lemma split_from_no_space (cur s : text) :
  forallb (fun c => negb (is_space c)) cur = true ->
  Forall (fun f => forallb (fun c => negb (is_space c)) f = true) (split_from cur s).
Proof.
  revert cur. induction s as [|c s IH]; intros cur Hc; simpl.
  - destruct cur; constructor; [exact Hc | constructor].
  - destruct (is_space c) eqn:E.
    + destruct cur; [now apply IH|]. constructor; [exact Hc | now apply IH].
    + apply IH. rewrite forallb_app, Hc. simpl. now rewrite E.
Qed.

Lemma split_from_head (cur s a : text) (r : list text) :
  cur <> [] -> split_from cur s = a :: r -> starts_with cur a = true.
Proof.
  revert cur. induction s as [|c s IH]; intros cur Hc; simpl.
  - destruct cur; [contradiction|]. intros H. injection H as <- _.
    rewrite <- (app_nil_r (a0 :: cur)) at 2. apply starts_with_app.
  - destruct (is_space c).
    + destruct cur; [contradiction|]. intros H. injection H as <- _.
      rewrite <- (app_nil_r (a0 :: cur)) at 2. apply starts_with_app.
    + intros H. apply IH in H; [|now destruct cur].
      apply starts_with_iff in H as [x ->]. rewrite <- app_assoc. apply starts_with_app.
Qed.

Lemma split_ws_head (s a : text) (r : list text) :
  split_ws s = a :: r ->
  exists c a', a = c :: a' /\ is_space c = false /\ starts_with [c] (strip s) = true.
Proof.
  unfold split_ws. rewrite <- split_from_lstrip. unfold strip.
  pose proof (drop_while_head is_space s) as Hh. fold (lstrip s) in Hh.
  destruct (lstrip s) as [|c l] eqn:El; [discriminate|].
  simpl. rewrite Hh. intros H.
  apply split_from_head in H; [|discriminate].
  simpl in H. destruct a as [|c' a']; [discriminate|].
  apply andb_true_iff in H as [H _]. apply Ascii.eqb_eq in H. subst c'.
  exists c, a'. split; [reflexivity|]. split; [exact Hh|].
  destruct (rstrip_split (c :: l)) as [w [E Hw]].
  destruct (rstrip (c :: l)) as [|c2 l2].
  - simpl in E. subst w. simpl in Hw. rewrite Hh in Hw. discriminate.
  - simpl in E. injection E as <- _. simpl. now rewrite Ascii.eqb_refl.
Qed.

Lemma load_from_in (lines : list text) (name path : text) :
  forall n, In (name, path) (fst (pkg_list.load_from n lines)) ->
            exists line, In line lines /\ pkg_line line = LineEntry name path.
Proof.
  induction lines as [|line rest IH]; intros n; simpl; [contradiction|].
  specialize (IH (S n)). destruct (pkg_list.load_from (S n) rest) as [e w].
  destruct (pkg_line line) as [|l|a b] eqn:E; simpl in *.
  - intros H. destruct (IH H) as [l' [H1 H2]]. exists l'. auto.
  - intros H. destruct (IH H) as [l' [H1 H2]]. exists l'. auto.
  - intros [H | H].
    + injection H as -> ->. exists line. auto.
    + destruct (IH H) as [l' [H1 H2]]. exists l'. auto.
Qed.

(** Whatever the file holds, an entry the loader returns has a package
    name and a path that are not empty and hold no whitespace, and the name
    does not start with [#]. *)
Theorem load_pkg_list_entry_fields :
  forall (lines : list text) (name path : text),
    In (name, path) (fst (pkg_list.load_pkg_list lines)) ->
    name <> [] /\ path <> []
    /\ existsb is_space name = false /\ existsb is_space path = false
    /\ starts_with (txt "#") name = false.
Proof.
  intros lines name path Hin. apply load_from_in in Hin as [line [_ Hl]].
  unfold pkg_line in Hl.
  destruct (text_eqb (strip line) [] || starts_with (txt "#") (strip line)) eqn:Hg;
    [discriminate|].
  apply orb_false_iff in Hg as [_ Hhash].
  rewrite split_ws_strip in Hl.
  destruct (split_ws line) as [|a [|b r]] eqn:Es; try discriminate.
  injection Hl as -> ->.
  pose proof (split_from_nonempty [] line) as Hne.
  pose proof (split_from_no_space [] line eq_refl) as Hns.
  fold (split_ws line) in Hne, Hns. rewrite Es in Hne, Hns.
  inversion Hne as [|? ? Hn1 Hne']; subst. inversion Hne' as [|? ? Hn2 _]; subst.
  inversion Hns as [|? ? Hs1 Hns']; subst. inversion Hns' as [|? ? Hs2 _]; subst.
  assert (Hno : forall f, forallb (fun c => negb (is_space c)) f = true ->
                          existsb is_space f = false).
  { intros f. induction f as [|c f IHf]; simpl; [reflexivity|].
    intros H. apply andb_true_iff in H as [Hc Hf]. rewrite (IHf Hf).
    now destruct (is_space c). }
  repeat split; auto.
  destruct (split_ws_head _ _ _ Es) as [c [a' [-> [_ Hc]]]].
  simpl in Hc. destruct (strip line) as [|c2 l2]; [discriminate|].
  rewrite andb_true_r in Hc. apply Ascii.eqb_eq in Hc. subst c2.
  simpl in Hhash. simpl. now destruct (Ascii.eqb "#"%char c).
Qed.

Lemma load_pkg_list_entry_fields_witness :
  txt "demo_nodes" <> [] /\ txt "src/demo/demo_nodes" <> []
  /\ existsb is_space (txt "demo_nodes") = false
  /\ existsb is_space (txt "src/demo/demo_nodes") = false
  /\ starts_with (txt "#") (txt "demo_nodes") = false.
Proof.
  apply (load_pkg_list_entry_fields [txt "# packages"; sample_list_line]).
  vm_compute. left. reflexivity.
Defined.

(** *** The version of a package, when the manifest parses *)

Lemma strip_nil : strip [] = [].
Proof. reflexivity. Qed.

Lemma strip_head (s : text) :
  match strip s with [] => True | c :: _ => is_space c = false end.
Proof.
  unfold strip. pose proof (drop_while_head is_space s) as Hh. fold (lstrip s) in Hh.
  destruct (rstrip_split (lstrip s)) as [w [E Hw]].
  destruct (rstrip (lstrip s)) as [|c r]; [exact I|].
  rewrite E in Hh. exact Hh.
Qed.

Lemma strip_strip (s : text) : strip (strip s) = strip s.
Proof.
  unfold strip at 1. unfold lstrip. rewrite drop_while_stop by apply strip_head.
  apply rstrip_fixed. unfold strip. apply rstrip_last.
Qed.

Lemma scan_version_find (elems : list element) (acc : option text) :
  acc = None \/ acc = Some [] ->
  match find names_version elems with
  | Some e => gen_tarballs.scan_version acc elems = option_map strip (text_of e)
  | None => gen_tarballs.scan_version acc elems = None
            \/ gen_tarballs.scan_version acc elems = Some []
  end.
Proof.
  revert acc. induction elems as [|e elems IH]; intros acc Hacc.
  - simpl. destruct Hacc; [now left | now right].
  - cbn [find gen_tarballs.scan_version]. unfold names_version at 1.
    remember (ends_with (txt "version") (tag_of e)) as b eqn:Eb.
    destruct (text_of e) as [x|] eqn:Ex.
    + destruct b; cbn [andb].
      * destruct x as [|c x]; cbn [nonempty andb].
        -- rewrite strip_nil. cbn [nonempty]. now apply IH.
        -- destruct (strip (c :: x)) as [|c2 v] eqn:Ev; cbn [nonempty].
           ++ apply IH. now right.
           ++ rewrite Ex. cbn [option_map]. now rewrite Ev.
      * now apply IH.
    + rewrite andb_false_r. now apply IH.
Qed.

(** When [package.xml] parses, [read_version_from_package_xml] returns
    the stripped text of the first element, in document order, whose tag
    ends with [version] and whose text is not blank, and writes nothing;
    when there is no such element it warns once and returns no version
    ([None]).  A version it returns, for any manifest, is not empty, has no
    whitespace at either end and comes without a warning. *)
Theorem read_version_first_usable_element :
  forall (pkg_root : text) (root : element),
    gen_tarballs.read_version_from_package_xml pkg_root (Some (Parsed root))
    = match find names_version (iter root) with
      | Some e => Returns (option_map strip (text_of e)) []
      | None => Returns None [gen_tarballs.warn_no_version pkg_root]
      end
    /\ (forall xml v w,
           gen_tarballs.read_version_from_package_xml pkg_root xml = Returns (Some v) w ->
           w = [] /\ v <> [] /\ strip v = v).
Proof.
  intros pkg_root root. split.
  - unfold gen_tarballs.read_version_from_package_xml.
    pose proof (scan_version_find (iter root) None (or_introl eq_refl)) as H.
    destruct (find names_version (iter root)) as [e|] eqn:Ef.
    + rewrite H. apply find_some in Ef as [_ Ef]. unfold names_version in Ef.
      apply andb_true_iff in Ef as [_ Ef].
      destruct (text_of e) as [x|]; [|discriminate]. simpl.
      destruct (strip x); [discriminate | reflexivity].
    + destruct H as [-> | ->]; reflexivity.
  - intros xml v w H. unfold gen_tarballs.read_version_from_package_xml in H.
    destruct xml as [[r| |]|]; try discriminate.
    pose proof (scan_version_find (iter r) None (or_introl eq_refl)) as Hs.
    destruct (find names_version (iter r)) as [e|] eqn:Ef.
    + rewrite Hs in H. apply find_some in Ef as [_ Ef]. unfold names_version in Ef.
      apply andb_true_iff in Ef as [_ Ef].
      destruct (text_of e) as [x|]; [|discriminate]. simpl in H.
      destruct (strip x) as [|c s] eqn:Ex; [discriminate|].
      injection H as <- <-. split; [reflexivity|]. split; [discriminate|].
      rewrite <- Ex. apply strip_strip.
    + destruct Hs as [Hs | Hs]; rewrite Hs in H; discriminate.
Qed.

Lemma read_version_first_usable_element_witness :
  let root := Element (txt "package") None
                [Element (txt "version") (Some (txt "  ")) [];
                 Element (txt "{ns}version") (Some (txt " 1.2.3 ")) []] in
  gen_tarballs.read_version_from_package_xml (txt "src/foo") (Some (Parsed root))
  = Returns (Some (txt "1.2.3")) []
  /\ txt "1.2.3" <> [] /\ strip (txt "1.2.3") = txt "1.2.3".
Proof.
  intros root.
  destruct (read_version_first_usable_element (txt "src/foo") root) as [H1 H2].
  split; [rewrite H1; vm_compute; reflexivity|].
  apply (H2 (Some (Parsed root)) (txt "1.2.3") []). vm_compute. reflexivity.
Defined.

Lemma filter_no_space (s : text) :
  existsb is_space (filter (fun c => negb (is_space c)) s) = false.
Proof.
  induction s as [|c s IH]; simpl; [reflexivity|].
  destruct (is_space c) eqn:E; simpl; [exact IH|]. now rewrite E.
Qed.


(** *** The fallback archive lies below its top-level directory *)

Lemma starts_with_trans (a b c : text) :
  starts_with a b = true -> starts_with b c = true -> starts_with a c = true.
Proof.
  intros H1 H2. apply starts_with_iff in H1 as [x ->]. apply starts_with_iff in H2 as [y ->].
  rewrite <- app_assoc. apply starts_with_app.
Qed.

Lemma no_slash_head (f : text) :
  existsb (Ascii.eqb gen_tarballs.slash) f = false ->
  starts_with [gen_tarballs.slash] f = false.
Proof.
  destruct f as [|c f]; [reflexivity|]. simpl. intros H.
  apply orb_false_iff in H as [H _]. now rewrite H.
Qed.

Lemma ends_with_app_nonempty (a b : text) (c : ascii) :
  ends_with [c] (a ++ b) = match b with [] => ends_with [c] a | _ => ends_with [c] b end.
Proof.
  destruct b as [|x b]; [now rewrite app_nil_r|].
  unfold ends_with. rewrite rev_app_distr.
  destruct (rev (x :: b)) as [|y r] eqn:E.
  - apply (f_equal (@List.length ascii)) in E. rewrite length_rev in E. discriminate.
  - reflexivity.
Qed.

Section UnderPrefix.

Import gen_tarballs.

Variable pfx : text.
Hypothesis pfx_head : match pfx with [] => False | c :: _ => Ascii.eqb c slash = false end.
Hypothesis pfx_last : ends_with [slash] pfx = false.

Lemma below_member_name (arc : text) : under_dir pfx arc -> member_name arc = arc.
Proof.
  intros H. unfold under_dir in H. unfold member_name. apply drop_while_stop.
  destruct pfx as [|c p] eqn:Ep; [contradiction|].
  destruct H as [-> | H]; [exact pfx_head|].
  apply starts_with_iff in H as [r ->]. exact pfx_head.
Qed.

Lemma below_join (arc f : text) :
  existsb (Ascii.eqb slash) f = false -> under_dir pfx arc -> under_dir pfx (path_join arc f).
Proof.
  intros Hf H. unfold under_dir in *. unfold path_join. rewrite (no_slash_head _ Hf). right.
  destruct H as [-> | H].
  - rewrite pfx_last. destruct (text_eqb pfx []) eqn:E.
    + apply text_eqb_eq in E. rewrite E in pfx_head. contradiction.
    + cbn [orb]. rewrite app_assoc. apply starts_with_app.
  - destruct (text_eqb arc [] || ends_with [slash] arc);
      apply starts_with_trans with (b := arc); try exact H; apply starts_with_app.
Qed.

Lemma tar_add_below (filter : text -> bool) (n : node) :
  forall arc, well_named n = true -> under_dir pfx arc ->
              Forall (under_dir pfx) (tar_add filter arc n).
Proof.
  induction n as [x | x entries IH] using node_nested_ind; intros arc Hw Ha.
  - simpl. rewrite (below_member_name _ Ha).
    destruct (filter arc); [constructor; [exact Ha | constructor] | constructor].
  - simpl. rewrite (below_member_name _ Ha). destruct (filter arc); [|constructor].
    constructor; [exact Ha|].
    simpl in Hw. induction entries as [|e entries IHe]; [constructor|].
    simpl in Hw. apply andb_true_iff in Hw as [He Hw].
    apply andb_true_iff in He as [Hn He]. apply negb_true_iff in Hn.
    inversion IH as [|? ? IH1 IH2]; subst.
    simpl. apply Forall_app. split.
    + apply IH1; [exact He | now apply below_join].
    + now apply IHe.
Qed.

End UnderPrefix.

Lemma tar_add_kept (filter : text -> bool) (n : gen_tarballs.node) :
  forall arc, Forall (fun m => filter m = true) (gen_tarballs.tar_add filter arc n).
Proof.
  induction n as [x | x entries IH] using node_nested_ind; intros arc.
  - simpl. destruct (filter (gen_tarballs.member_name arc)) eqn:E; repeat constructor.
    exact E.
  - simpl. destruct (filter (gen_tarballs.member_name arc)) eqn:E; [|constructor].
    constructor; [exact E|].
    induction entries as [|e entries IHe]; [constructor|].
    inversion IH as [|? ? IH1 IH2]; subst.
    simpl. apply Forall_app. split; [apply IH1 | now apply IHe].
Qed.

(** Every member the fallback archiver writes for a package lies in the
    top-level directory [ros-<distro>-<name>-<version>]: it is that
    directory or a path below it, and none has a [.git] component.  The
    hypotheses are those of a real run: the entries of the source tree have
    no slash in their names and the version does not end with a slash. *)
Theorem fallback_archive_under_prefix :
  forall (d : gen_tarballs.node) (os_error : bool)
         (ros_distro pkg_name version : text) (members : list text),
    gen_tarballs.well_named d = true ->
    ends_with [gen_tarballs.slash] version = false ->
    let pfx := gen_tarballs.prefix_dir ros_distro pkg_name version in
    gen_tarballs.run_fallback_tar_archive (Some d) os_error pfx = Some members ->
    Forall (fun m => under_dir pfx m /\ gen_tarballs.tar_filter_exclude_git m = true)
           members.
Proof.
  intros d os_error ros_distro pkg_name version members Hw Hv pfx H.
  unfold gen_tarballs.run_fallback_tar_archive in H.
  destruct d as [x | x entries]; [discriminate|].
  destruct os_error; [discriminate|]. injection H as <-.
  apply Forall_and;
    [|exact (tar_add_kept gen_tarballs.tar_filter_exclude_git
               (gen_tarballs.Dir x entries) pfx)].
  apply (tar_add_below pfx) with (n := gen_tarballs.Dir x entries); try assumption.
  - reflexivity.
  - subst pfx. unfold gen_tarballs.prefix_dir.
    rewrite (ends_with_app_nonempty _ (txt "-" ++ version)).
    cbn [app txt list_ascii_of_string].
    change ("-"%char :: version) with ([ "-"%char ] ++ version).
    rewrite (ends_with_app_nonempty _ version).
    destruct version; [reflexivity | exact Hv].
  - now left.
Qed.

Lemma fallback_archive_under_prefix_witness :
  Forall (fun m => under_dir (txt "ros-jazzy-foo-1.0") m
                   /\ gen_tarballs.tar_filter_exclude_git m = true)
         [txt "ros-jazzy-foo-1.0"; txt "ros-jazzy-foo-1.0/.gitignore";
          txt "ros-jazzy-foo-1.0/package.xml"; txt "ros-jazzy-foo-1.0/src";
          txt "ros-jazzy-foo-1.0/src/main.cpp"].
Proof.
  apply (fallback_archive_under_prefix sample_tree false (txt "jazzy") (txt "foo") (txt "1.0"));
    vm_compute; reflexivity.
Defined.

(** *** The counters of [main], [gen_tarballs.py] *)

Section TarballCounters.

Import gen_tarballs_main.

Variable env_at : nat -> gen_tarballs.package_env.
Variables (ros_distro : text) (force : bool).

Lemma tally_status (s : gen_tarballs.status) (pkg_name : text) (c : counters) :
  let c' := tally (status_string s) pkg_name c in
  total c' = S (total c)
  /\ git_ok c' + fb_ok c' + skipped_exist c' + no_version c' + failed c'
     = S (git_ok c + fb_ok c + skipped_exist c + no_version c + failed c)
  /\ no_git c' = no_git c
  /\ (failed_pkgs c' = failed_pkgs c /\ failed c' = failed c
      \/ failed_pkgs c' = failed_pkgs c ++ [pkg_name] /\ failed c' = S (failed c)).
Proof.
  destruct s; cbv zeta; cbn; repeat split; try lia;
    (left; split; reflexivity) || (right; split; reflexivity).
Qed.

Lemma main_loop_counters (lines : list text) :
  forall line_no c0 c,
    main_loop env_at ros_distro force line_no lines c0 = Some c ->
    let entries := fst (pkg_list.load_from line_no lines) in
    total c = total c0 + List.length entries
    /\ git_ok c + fb_ok c + skipped_exist c + no_version c + failed c
       = git_ok c0 + fb_ok c0 + skipped_exist c0 + no_version c0 + failed c0
         + List.length entries
    /\ no_git c = no_git c0
    /\ exists names,
         failed_pkgs c = failed_pkgs c0 ++ names
         /\ failed c = failed c0 + List.length names
         /\ incl names (map fst entries).
Proof.
  induction lines as [|line rest IH]; intros line_no c0 c H.
  - simpl in H. injection H as <-. simpl. repeat split; try lia.
    exists []. rewrite app_nil_r. repeat split; [simpl; lia | intros x []].
  - cbn [main_loop] in H. cbn [pkg_list.load_from]. cbv zeta.
    destruct (pkg_list.load_from (S line_no) rest) as [e w] eqn:El.
    destruct (pkg_line line) as [|l|pkg_name pkg_path] eqn:Ep.
    + apply IH in H. rewrite El in H. exact H.
    + apply IH in H. rewrite El in H. exact H.
    + destruct (gen_tarballs.process_package (env_at line_no) ros_distro pkg_name force)
        as [status w0|]; [|discriminate].
      apply IH in H. rewrite El in H. cbv zeta in H. cbn [fst] in *.
      destruct (tally_status status pkg_name c0) as [T1 [T2 [T3 T4]]].
      destruct H as [H1 [H2 [H3 [names [H4 [H5 H6]]]]]].
      cbn [List.length map]. split; [lia|]. split; [lia|]. split; [congruence|].
      destruct T4 as [[T4 T5] | [T4 T5]].
      * exists names. rewrite H4, T4. split; [reflexivity|]. split; [lia|].
        intros x Hx. right. now apply H6.
      * exists (pkg_name :: names). rewrite H4, T4, <- app_assoc.
        split; [reflexivity|]. split; [cbn [List.length]; lia|].
        intros x [<- | Hx]; [now left | right; now apply H6].
Qed.

Lemma main_loop_returns (lines : list text) :
  forall line_no c0,
    (forall n, gen_tarballs.pkg_root_is_dir (env_at n) = true ->
               gen_tarballs.manifest (env_at n) <> Some OtherError) ->
    exists c, main_loop env_at ros_distro force line_no lines c0 = Some c.
Proof.
  induction lines as [|line rest IH]; intros line_no c0 Hm.
  - now exists c0.
  - cbn [main_loop]. destruct (pkg_line line) as [|l|pkg_name pkg_path].
    + now apply IH.
    + now apply IH.
    + pose proof (Hm line_no) as Hn.
      unfold gen_tarballs.process_package.
      destruct (gen_tarballs.pkg_root_is_dir (env_at line_no)); cbn [negb].
      * unfold gen_tarballs.read_version_from_package_xml.
        destruct (gen_tarballs.manifest (env_at line_no)) as [[root| |]|];
          try (now apply IH); [|now elim Hn].
        destruct (gen_tarballs.scan_version None (iter root)) as [[|c v]|];
          try (now apply IH).
        destruct (gen_tarballs.dest_exists (env_at line_no) && negb force);
          [now apply IH|].
        destruct (negb (gen_tarballs.in_git_repo (env_at line_no))); [now apply IH|].
        destruct (gen_tarballs.git_archive_ok (env_at line_no)); now apply IH.
      * now apply IH.
Qed.

End TarballCounters.



(** *** The counters of [main], [gen_template_specs.py] *)

Section TemplateCounters.

Import gen_template_specs.

Variable obs_at : nat -> package_obs.
Variable force : bool.

Lemma process_one_package_shapes (o : package_obs) (n : text) (f : bool) :
  let r := process_one_package o n f in
  r = None
  \/ r = Some (n, txt "timeout", None)
  \/ r = Some (n, txt "error", None)
  \/ r = Some (n, txt "ok", Some (txt "copied"))
  \/ r = Some (n, txt "ok", Some (txt "skipped-existing"))
  \/ r = Some (n, txt "ok", Some (txt "missing-source")).
Proof.
  destruct o as [d run src mk dst cp]. cbv zeta.
  unfold process_one_package, run_bloom_generate_rpm, copy_template_spec_to_repos.
  cbn [pkg_root_is_dir bloom_run template_src_exists makedirs_raises
       template_dst_exists copyfile_raises].
  destruct d; cbn [negb]; [|cbn; tauto].
  destruct run as [| |[|]|]; cbn; try tauto.
  destruct src; cbn [negb]; [|tauto].
  destruct mk; [tauto|].
  destruct (dst && negb f); [tauto|].
  destruct cp; tauto.
Qed.

Ltac shape_cases o n f :=
  let H := fresh "H" in
  pose proof (process_one_package_shapes o n f) as H; cbv zeta in H;
  destruct H as [H | [H | [H | [H | [H | H]]]]]; rewrite H; clear H.

Lemma tally_respects (o : package_obs) (n : text) (f : bool) (c c' : counters) :
  same_summary c c' ->
  same_summary (tally n (process_one_package o n f) c)
               (tally n (process_one_package o n f) c').
Proof.
  intros [H1 [H2 [H3 [H4 [H5 [H6 [H7 [H8 H9]]]]]]]].
  shape_cases o n f; unfold same_summary; cbn;
    repeat split; try congruence; try assumption;
    now apply Permutation_app_tail.
Qed.

Lemma perm_two_snoc (l : list text) (a b : text) :
  Permutation ((l ++ [a]) ++ [b]) ((l ++ [b]) ++ [a]).
Proof.
  rewrite <- !app_assoc. apply Permutation_app_head. apply perm_swap.
Qed.

Lemma tally_commutes (o1 o2 : package_obs) (n1 n2 : text) (f : bool) (c : counters) :
  same_summary
    (tally n2 (process_one_package o2 n2 f) (tally n1 (process_one_package o1 n1 f) c))
    (tally n1 (process_one_package o1 n1 f) (tally n2 (process_one_package o2 n2 f) c)).
Proof.
  shape_cases o1 n1 f; shape_cases o2 n2 f; unfold same_summary; cbn;
    repeat split; try reflexivity; apply perm_two_snoc.
Qed.

Lemma same_summary_refl (c : counters) : same_summary c c.
Proof. unfold same_summary. repeat split; reflexivity. Qed.

Lemma same_summary_trans (a b c : counters) :
  same_summary a b -> same_summary b c -> same_summary a c.
Proof.
  intros [H1 [H2 [H3 [H4 [H5 [H6 [H7 [H8 H9]]]]]]]]
         [K1 [K2 [K3 [K4 [K5 [K6 [K7 [K8 K9]]]]]]]].
  unfold same_summary. repeat split; try congruence.
  - now apply Permutation_trans with (timeout_pkgs b).
  - now apply Permutation_trans with (error_pkgs b).
Qed.

Lemma fold_respects (l : list (text * text * nat)) :
  forall c c', same_summary c c' ->
               same_summary (fold_left (round obs_at force) l c) (fold_left (round obs_at force) l c').
Proof.
  induction l as [|e l IH]; intros c c' H; [exact H|].
  simpl. apply IH. unfold round. now apply tally_respects.
Qed.

Lemma fold_permutation (l l' : list (text * text * nat)) :
  Permutation l l' ->
  forall c c', same_summary c c' ->
               same_summary (fold_left (round obs_at force) l c) (fold_left (round obs_at force) l' c').
Proof.
  induction 1 as [|x l l' Hp IH|x y l|l l' l'' H1 IH1 H2 IH2]; intros c c' H.
  - exact H.
  - simpl. apply IH. unfold round. now apply tally_respects.
  - simpl. apply fold_respects.
    apply same_summary_trans with ((round obs_at force) ((round obs_at force) c' y) x).
    + unfold round. apply tally_respects. now apply tally_respects.
    + unfold round. apply tally_commutes.
  - apply same_summary_trans with (fold_left (round obs_at force) l' c).
    + apply IH1, same_summary_refl.
    + now apply IH2.
Qed.

Lemma tally_sums (o : package_obs) (n : text) (f : bool) (c : counters) :
  let c' := tally n (process_one_package o n f) c in
  total c' = total c
  /\ bloom_ok c' + bloom_error c' + bloom_timeout c'
     = S (bloom_ok c + bloom_error c + bloom_timeout c)
  /\ (copied c' + skipped_existing c' + missing_source c') + bloom_ok c
     = (copied c + skipped_existing c + missing_source c) + bloom_ok c'
  /\ List.length (error_pkgs c') + bloom_error c
     = List.length (error_pkgs c) + bloom_error c'
  /\ List.length (timeout_pkgs c') + bloom_timeout c
     = List.length (timeout_pkgs c) + bloom_timeout c'.
Proof.
  cbv zeta. shape_cases o n f; cbn; rewrite ?length_app; cbn; repeat split; lia.
Qed.

Lemma fold_sums (l : list (text * text * nat)) :
  forall c,
    let c' := fold_left (round obs_at force) l c in
    total c' = total c
    /\ bloom_ok c' + bloom_error c' + bloom_timeout c'
       = bloom_ok c + bloom_error c + bloom_timeout c + List.length l
    /\ (copied c' + skipped_existing c' + missing_source c') + bloom_ok c
       = (copied c + skipped_existing c + missing_source c) + bloom_ok c'
    /\ List.length (error_pkgs c') + bloom_error c
       = List.length (error_pkgs c) + bloom_error c'
    /\ List.length (timeout_pkgs c') + bloom_timeout c
       = List.length (timeout_pkgs c) + bloom_timeout c'.
Proof.
  induction l as [|e l IH]; intros c; cbv zeta.
  - simpl. repeat split; lia.
  - simpl. specialize (IH ((round obs_at force) c e)). cbv zeta in IH.
    pose proof (tally_sums (obs_at (snd e)) (fst (fst e)) force c) as T.
    cbv zeta in T. fold (round obs_at force c e) in T.
    destruct IH as [I1 [I2 [I3 [I4 I5]]]]. destruct T as [T1 [T2 [T3 [T4 T5]]]].
    repeat split; lia.
Qed.

Lemma main_is_fold (pkgs completed : list (text * text * nat)) :
  main obs_at force pkgs completed = fold_left (round obs_at force) completed (start (List.length pkgs)).
Proof. reflexivity. Qed.

End TemplateCounters.

(** The summary of [gen_template_specs.py].  In whatever order the
    workers finish, every package of the list is counted once as bloom ok,
    error or timeout (a worker that raises counts as an error), every bloom
    ok once as copied, skipped or missing source, and the two lists of
    names are as long as their counters.  The numbers do not depend on the
    order of completion; the lists hold the same names, in the order of completion. *)
Theorem gen_template_specs_summary :
  forall (obs_at : nat -> gen_template_specs.package_obs) (force : bool)
         (pkgs completed : list (text * text * nat)),
    Permutation pkgs completed ->
    let c := gen_template_specs.main obs_at force pkgs completed in
    gen_template_specs.total c = List.length pkgs
    /\ gen_template_specs.bloom_ok c + gen_template_specs.bloom_error c
       + gen_template_specs.bloom_timeout c = gen_template_specs.total c
    /\ gen_template_specs.copied c + gen_template_specs.skipped_existing c
       + gen_template_specs.missing_source c = gen_template_specs.bloom_ok c
    /\ List.length (gen_template_specs.error_pkgs c) = gen_template_specs.bloom_error c
    /\ List.length (gen_template_specs.timeout_pkgs c) = gen_template_specs.bloom_timeout c
    /\ same_summary c (gen_template_specs.main obs_at force pkgs pkgs).
Proof.
  intros obs_at force pkgs completed Hp c.
  pose proof (fold_sums obs_at force completed
                (gen_template_specs.start (List.length pkgs))) as H.
  cbv zeta in H. rewrite <- main_is_fold in H. fold c in H. cbn in H.
  destruct H as [H1 [H2 [H3 [H4 H5]]]].
  rewrite <- (Permutation_length Hp) in H2.
  split; [exact H1|]. split; [lia|]. split; [lia|]. split; [lia|]. split; [lia|].
  subst c. rewrite !main_is_fold. apply fold_permutation.
  - now apply Permutation_sym.
  - apply same_summary_refl.
Qed.

Lemma gen_template_specs_summary_witness :
  let c := gen_template_specs.main (fun _ => sample_obs) false
             [(txt "a", txt "src/a", 1); (txt "b", txt "src/b", 3)]
             [(txt "b", txt "src/b", 3); (txt "a", txt "src/a", 1)] in
  gen_template_specs.total c = 2
  /\ gen_template_specs.bloom_ok c + gen_template_specs.bloom_error c
     + gen_template_specs.bloom_timeout c = gen_template_specs.total c.
Proof.
  intros c.
  destruct (gen_template_specs_summary (fun _ => sample_obs) false
              [(txt "a", txt "src/a", 1); (txt "b", txt "src/b", 3)]
              [(txt "b", txt "src/b", 3); (txt "a", txt "src/a", 1)]
              (perm_swap _ _ _)) as [H1 [H2 _]].
  split; [exact H1 | exact H2].
Defined.

(** *** One round of [main], [fix_specs.py], and the next run *)

Lemma text_eqb_sym (a b : text) : text_eqb a b = text_eqb b a.
Proof.
  destruct (text_eqb a b) eqn:E.
  - apply text_eqb_eq in E. subst. symmetry. apply text_eqb_refl.
  - symmetry. apply text_eqb_neq. apply text_eqb_neq in E. congruence.
Qed.

Lemma ends_with_app (p a : text) : ends_with p (a ++ p) = true.
Proof. unfold ends_with. rewrite rev_app_distr. apply starts_with_app. Qed.

Section FixSpecsMain.

Import fix_specs_main.

Lemma read_write_same (n c : text) (d : directory) :
  read_file n (write_file n c d) = Some c.
Proof.
  unfold read_file. induction d as [|e d IH]; simpl.
  - now rewrite text_eqb_refl.
  - destruct (text_eqb (fst e) n) eqn:E; simpl.
    + now rewrite text_eqb_refl.
    + rewrite E. exact IH.
Qed.

Lemma read_write_other (f n c : text) (d : directory) :
  f <> n -> read_file f (write_file n c d) = read_file f d.
Proof.
  intros Hf. unfold read_file. induction d as [|e d IH]; simpl.
  - apply not_eq_sym, text_eqb_neq in Hf. now rewrite Hf.
  - destruct (text_eqb (fst e) n) eqn:E; simpl.
    + apply text_eqb_eq in E. rewrite E.
      apply not_eq_sym, text_eqb_neq in Hf. now rewrite Hf.
    + destruct (text_eqb (fst e) f); [reflexivity | exact IH].
Qed.

Lemma read_remove_other (f n : text) (d : directory) :
  f <> n -> read_file f (remove_file n d) = read_file f d.
Proof.
  intros Hf. unfold read_file, remove_file. induction d as [|e d IH]; simpl.
  - reflexivity.
  - destruct (text_eqb (fst e) n) eqn:E; simpl.
    + apply text_eqb_eq in E. rewrite E.
      apply not_eq_sym, text_eqb_neq in Hf. now rewrite Hf.
    + destruct (text_eqb (fst e) f); [reflexivity | exact IH].
Qed.

Lemma listdir_remove (n : text) (d : directory) :
  listdir (remove_file n d) = filter (fun f => negb (text_eqb f n)) (listdir d).
Proof.
  unfold listdir, remove_file. induction d as [|e d IH]; simpl; [reflexivity|].
  destruct (text_eqb (fst e) n); simpl; now rewrite IH.
Qed.

Lemma exists_remove (n : text) (d : directory) :
  exists_file n (remove_file n d) = false.
Proof.
  unfold exists_file. rewrite listdir_remove.
  induction (listdir d) as [|f l IH]; simpl; [reflexivity|].
  destruct (text_eqb f n) eqn:E; simpl; [exact IH|].
  now rewrite text_eqb_sym, E.
Qed.

Lemma listdir_write (n c : text) (d : directory) :
  listdir (write_file n c d)
  = if exists_file n d then listdir d else listdir d ++ [n].
Proof.
  unfold exists_file, listdir. induction d as [|e d IH]; simpl; [reflexivity|].
  rewrite (text_eqb_sym n (fst e)). destruct (text_eqb (fst e) n) eqn:E; simpl.
  - apply text_eqb_eq in E. now rewrite E.
  - rewrite IH. now destruct (existsb (text_eqb n) (map fst d)).
Qed.

Lemma existsb_text_eqb_in (n : text) (l : list text) :
  existsb (text_eqb n) l = true <-> In n l.
Proof.
  rewrite existsb_exists. split.
  - intros [x [Hx E]]. apply text_eqb_eq in E. now subst.
  - intros H. exists n. split; [exact H | apply text_eqb_refl].
Qed.

Lemma listdir_write_spec (n c : text) (d : directory) :
  NoDup (listdir d) ->
  NoDup (listdir (write_file n c d))
  /\ In n (listdir (write_file n c d))
  /\ (forall f, In f (listdir (write_file n c d)) -> f = n \/ In f (listdir d)).
Proof.
  intros Hd. rewrite listdir_write. destruct (exists_file n d) eqn:E.
  - apply existsb_text_eqb_in in E. repeat split; auto.
  - assert (Hn : ~ In n (listdir d)).
    { intros H. apply existsb_text_eqb_in in H. unfold exists_file in E. congruence. }
    split; [|split].
    + apply NoDup_app; [exact Hd | repeat constructor; intros [] |].
      intros x Hx [<- | []]. contradiction.
    + apply in_or_app. right. now left.
    + intros f Hf. apply in_app_or in Hf as [Hf | [<- | []]]; auto.
Qed.

Lemma filter_unique (P : text -> bool) (out : text) (l : list text) :
  NoDup l -> In out l -> P out = true ->
  (forall f, In f l -> P f = true -> f = out) ->
  filter P l = [out].
Proof.
  induction l as [|x l IH]; intros Hn Hin Hp Hu; [contradiction|].
  inversion Hn as [|? ? Hx Hn']; subst. simpl. destruct Hin as [-> | Hin].
  - rewrite Hp. f_equal.
    assert (Hnone : forall f, In f l -> P f = false).
    { intros f Hf. destruct (P f) eqn:E; [|reflexivity].
      assert (f = out) by (apply Hu; [now right | exact E]). subst. contradiction. }
    clear -Hnone. induction l as [|y l IH]; [reflexivity|]. simpl.
    rewrite (Hnone y (or_introl eq_refl)). apply IH. intros f Hf. apply Hnone. now right.
  - destruct (P x) eqn:E.
    + assert (x = out) by (apply Hu; [now left | exact E]). subst. contradiction.
    + apply IH; auto. intros f Hf. apply Hu. now right.
Qed.

Lemma read_file_exists (n c : text) (d : directory) :
  read_file n d = Some c -> exists_file n d = true.
Proof.
  unfold read_file, exists_file, listdir. induction d as [|e d IH]; simpl; [discriminate|].
  rewrite (text_eqb_sym n (fst e)). destruct (text_eqb (fst e) n); [reflexivity|].
  exact IH.
Qed.

Lemma patch_package_dry_run (ros_distro : text) (io : io_errors) (pkg_name : text)
      (spec_dir : option directory) :
  snd (patch_package ros_distro true io pkg_name spec_dir) = spec_dir.
Proof.
  unfold patch_package. destruct spec_dir as [d|]; [|reflexivity].
  destruct (find_input_spec d); [|reflexivity].
  destruct (if read_fails io then None else _); reflexivity.
Qed.

Lemma main_loop_spec (ros_distro : text) (dry_run : bool) (io_at : nat -> io_errors)
      (pkgs : list (text * text)) :
  forall i r c,
    let res := main_loop ros_distro dry_run io_at i pkgs r c in
    total (fst res) = total c + List.length pkgs
    /\ patched (fst res) + skipped (fst res) + total c
       = patched c + skipped c + total (fst res)
    /\ (forall name, ~ In name (map fst pkgs) -> snd res name = r name)
    /\ (dry_run = true -> forall name, snd res name = r name).
Proof.
  induction pkgs as [|[pkg_name pkg_path] rest IH]; intros i r c; cbv zeta.
  - simpl. repeat split; auto; lia.
  - cbn [main_loop].
    pose proof (patch_package_dry_run ros_distro (io_at i) pkg_name (r pkg_name)) as Hdry.
    destruct (patch_package ros_distro dry_run (io_at i) pkg_name (r pkg_name))
      as [v d] eqn:Ep.
    match goal with
    | |- context [main_loop _ _ _ _ _ ?r1 ?c1] => specialize (IH (S i) r1 c1)
    end.
    cbv zeta in IH. destruct IH as [I1 [I2 [I3 I4]]].
    split; [|split; [|split]].
    + rewrite I1. destruct v; cbn [total List.length]; lia.
    + destruct v; cbn [total patched skipped] in *; lia.
    + intros name Hn. cbn [map fst] in Hn.
      rewrite I3 by (intros H; apply Hn; now right).
      unfold set_dir. destruct (text_eqb name pkg_name) eqn:E; [|reflexivity].
      apply text_eqb_eq in E. subst. elim Hn. now left.
    + intros Hd name. rewrite (I4 Hd). subst dry_run. rewrite Ep in Hdry.
      cbn [snd] in Hdry. subst d. unfold set_dir.
      destruct (text_eqb name pkg_name) eqn:E; [|reflexivity].
      apply text_eqb_eq in E. now subst.
Qed.

End FixSpecsMain.





(** *** [find_git_root] *)

Section GitRoot.

Import git_root.

Lemma rev_drop_while_prefix (f : ascii -> bool) (p : text) :
  exists r, p = rev (drop_while f (rev p)) ++ r.
Proof.
  exists (rev (take_while f (rev p))).
  rewrite <- rev_app_distr, drop_while_app_take. symmetry. apply rev_involutive.
Qed.

Lemma dirname_prefix (p : text) : exists r, p = dirname p ++ r.
Proof.
  unfold dirname.
  destruct (rev_drop_while_prefix (fun c => negb (Ascii.eqb c gen_tarballs.slash)) p)
    as [r1 E1].
  set (head := rev (drop_while (fun c => negb (Ascii.eqb c gen_tarballs.slash)) (rev p)))
    in *.
  destruct (nonempty head && negb (forallb (Ascii.eqb gen_tarballs.slash) head)).
  - destruct (rev_drop_while_prefix (Ascii.eqb gen_tarballs.slash) head) as [r2 E2].
    exists (r2 ++ r1). rewrite app_assoc, <- E2. exact E1.
  - now exists r1.
Qed.

Lemma dirname_shorter (p : text) :
  dirname p <> p -> List.length (dirname p) < List.length p.
Proof.
  intros H. destruct (dirname_prefix p) as [r E].
  destruct r as [|c r]; [rewrite app_nil_r in E; congruence|].
  rewrite E at 2. rewrite length_app. simpl. lia.
Qed.

Lemma iter_shift (k : nat) (p : text) :
  Nat.iter (S k) dirname p = Nat.iter k dirname (dirname p).
Proof. induction k as [|k IH]; [reflexivity|]. simpl in *. now rewrite IH. Qed.

Lemma iter_fixed (k : nat) (p : text) : dirname p = p -> Nat.iter k dirname p = p.
Proof. intros H. induction k as [|k IH]; [reflexivity|]. simpl. now rewrite IH. Qed.

Lemma iter_prefix (k : nat) (p : text) : starts_with (Nat.iter k dirname p) p = true.
Proof.
  induction k as [|k IH]; simpl.
  - rewrite <- (app_nil_r p) at 2. apply starts_with_app.
  - destruct (dirname_prefix (Nat.iter k dirname p)) as [r E].
    apply starts_with_trans with (b := Nat.iter k dirname p); [|exact IH].
    rewrite E at 2. apply starts_with_app.
Qed.

Lemma find_git_root_loop_spec (isdir : text -> bool) (fuel : nat) :
  forall cur,
    List.length cur < fuel ->
    exists r,
      find_git_root_loop fuel isdir cur = Some r
      /\ match r with
         | Some root =>
             exists k,
               root = Nat.iter k dirname cur
               /\ isdir (gen_tarballs.path_join root (txt ".git")) = true
               /\ forall j, j < k ->
                    isdir (gen_tarballs.path_join (Nat.iter j dirname cur) (txt ".git"))
                    = false
         | None =>
             forall k,
               isdir (gen_tarballs.path_join (Nat.iter k dirname cur) (txt ".git")) = false
         end.
Proof.
  induction fuel as [|fuel IH]; intros cur Hlen; [lia|].
  cbn [find_git_root_loop]. cbv zeta.
  destruct (isdir (gen_tarballs.path_join cur (txt ".git"))) eqn:Eg.
  - exists (Some cur). split; [reflexivity|]. exists 0.
    split; [reflexivity|]. split; [exact Eg | intros j Hj; lia].
  - destruct (text_eqb (dirname cur) cur) eqn:Ep.
    + apply text_eqb_eq in Ep. exists None. split; [reflexivity|].
      intros k. now rewrite (iter_fixed k cur Ep).
    + apply text_eqb_neq in Ep. pose proof (dirname_shorter cur Ep) as Hs.
      destruct (IH (dirname cur)) as [r [Hr Hspec]]; [lia|].
      exists r. split; [exact Hr|]. destruct r as [root|].
      * destruct Hspec as [k [H1 [H2 H3]]]. exists (S k).
        split; [now rewrite iter_shift|]. split; [exact H2|].
        intros [|j] Hj; [exact Eg|]. rewrite iter_shift. apply H3. lia.
      * intros [|k]; [exact Eg|]. rewrite iter_shift. apply Hspec.
Qed.

End GitRoot.

(** [find_git_root] always ends.  What it returns is the nearest
    directory, going from the start through its parents, that holds a
    [.git] directory: some [k]-th parent of the start (hence a prefix of
    its path) such that no parent before it holds one; it returns [None]
    exactly when no parent at all holds one. *)
Theorem find_git_root_nearest :
  forall (isdir : text -> bool) (cur : text),
    exists r,
      git_root.find_git_root isdir cur = Some r
      /\ match r with
         | Some root =>
             starts_with root cur = true
             /\ exists k,
                  root = Nat.iter k git_root.dirname cur
                  /\ isdir (gen_tarballs.path_join root (txt ".git")) = true
                  /\ forall j, j < k ->
                       isdir (gen_tarballs.path_join (Nat.iter j git_root.dirname cur)
                                                     (txt ".git")) = false
         | None =>
             forall k,
               isdir (gen_tarballs.path_join (Nat.iter k git_root.dirname cur)
                                             (txt ".git")) = false
         end.
Proof.
  intros isdir cur. unfold git_root.find_git_root.
  destruct (find_git_root_loop_spec isdir (S (List.length cur)) cur) as [r [Hr Hs]]; [lia|].
  exists r. split; [exact Hr|]. destruct r as [root|]; [|exact Hs].
  split; [|exact Hs]. destruct Hs as [k [-> _]]. apply iter_prefix.
Qed.

Lemma find_git_root_nearest_witness :
  exists r,
    git_root.find_git_root (fun p => text_eqb p (txt "/ws/.git")) (txt "/ws/src/demo/pkg")
    = Some r.
Proof.
  destruct (find_git_root_nearest (fun p => text_eqb p (txt "/ws/.git"))
                                  (txt "/ws/src/demo/pkg")) as [r [H _]].
  now exists r.
Defined.

(** From [/ws/src/demo/pkg], with a repository at [/ws], the root found is
    [/ws]; with none, the search ends at [/] with [None]. *)
Example find_git_root_sample :
  git_root.find_git_root (fun p => text_eqb p (txt "/ws/.git")) (txt "/ws/src/demo/pkg")
  = Some (Some (txt "/ws"))
  /\ git_root.find_git_root (fun _ => false) (txt "/ws/src/demo/pkg") = Some None
  /\ git_root.dirname (txt "/ws") = txt "/"
  /\ git_root.dirname (txt "/") = txt "/".
Proof. repeat split; vm_compute; reflexivity. Qed.

(** *** [safe_copytree] *)

Section SafeCopytree.

Import gen_tarballs legacy.

Lemma existsb_filter_text (a : text) (P : text -> bool) (l : list text) :
  existsb (text_eqb a) (filter P l) = existsb (text_eqb a) l && P a.
Proof.
  induction l as [|x l IH]; simpl; [reflexivity|].
  destruct (P x) eqn:Ex; simpl; rewrite IH.
  - destruct (text_eqb a x) eqn:E; simpl; [|reflexivity].
    apply text_eqb_eq in E. subst. now rewrite Ex.
  - destruct (text_eqb a x) eqn:E; simpl; [|reflexivity].
    apply text_eqb_eq in E. subst. rewrite Ex. now rewrite andb_false_r.
Qed.

Lemma ignore_listed (name : text) (names : list text) :
  In name names ->
  existsb (text_eqb name) (_ignore names) = existsb (text_eqb name) ig.
Proof.
  intros H. unfold _ignore. rewrite existsb_filter_text.
  apply existsb_text_eqb_in in H. rewrite H. apply andb_true_r.
Qed.

Lemma flat_map_ext_in (A B : Type) (f g : A -> list B) (l : list A) :
  (forall a, In a l -> f a = g a) -> flat_map f l = flat_map g l.
Proof.
  induction l as [|a l IH]; intros H; simpl; [reflexivity|].
  rewrite (H a (or_introl eq_refl)), IH; [reflexivity|].
  intros b Hb. apply H. now right.
Qed.

Lemma safe_copytree_dir (x : text) (entries : list node) :
  safe_copytree (Dir x entries)
  = Dir x (flat_map (fun e => if existsb (text_eqb (node_name e)) ig
                              then [] else [safe_copytree e]) entries).
Proof.
  cbn [safe_copytree]. cbv zeta. f_equal. apply flat_map_ext_in.
  intros e He. rewrite ignore_listed; [reflexivity|]. now apply in_map.
Qed.

Lemma safe_copytree_name (n : node) : node_name (safe_copytree n) = node_name n.
Proof. destruct n; [reflexivity|]. now rewrite safe_copytree_dir. Qed.

Lemma safe_copytree_clean (n : node) : clean (safe_copytree n) = true.
Proof.
  induction n as [x | x entries IH] using node_nested_ind; [reflexivity|].
  rewrite safe_copytree_dir. cbn [clean].
  induction entries as [|e entries IHe]; [reflexivity|].
  inversion IH as [|? ? IH1 IH2]; subst. cbn [flat_map].
  rewrite forallb_app, (IHe IH2), andb_true_r.
  destruct (existsb (text_eqb (node_name e)) ig) eqn:E; [reflexivity|].
  cbn [forallb]. now rewrite safe_copytree_name, E, IH1.
Qed.

Lemma safe_copytree_of_clean (n : node) : clean n = true -> safe_copytree n = n.
Proof.
  induction n as [x | x entries IH] using node_nested_ind; intros Hc; [reflexivity|].
  rewrite safe_copytree_dir. f_equal. cbn [clean] in Hc.
  induction entries as [|e entries IHe]; [reflexivity|].
  inversion IH as [|? ? IH1 IH2]; subst. cbn [forallb] in Hc.
  apply andb_true_iff in Hc as [He Hc]. apply andb_true_iff in He as [Hn He].
  apply negb_true_iff in Hn. cbn [flat_map]. rewrite Hn, (IH1 He), (IHe IH2 Hc).
  reflexivity.
Qed.

Lemma safe_copytree_paths (n : node) :
  forall arcname, incl (tree_paths arcname (safe_copytree n)) (tree_paths arcname n).
Proof.
  induction n as [x | x entries IH] using node_nested_ind; intros arcname p Hp;
    [exact Hp|].
  rewrite safe_copytree_dir in Hp. cbn [tree_paths] in *.
  destruct Hp as [Hp | Hp]; [now left | right].
  apply in_flat_map in Hp as [c [Hc Hp]].
  apply in_flat_map in Hc as [e [He Hc]].
  destruct (existsb (text_eqb (node_name e)) ig); [contradiction|].
  destruct Hc as [<- | []]. rewrite safe_copytree_name in Hp.
  apply in_flat_map. exists e. split; [exact He|].
  rewrite Forall_forall in IH. now apply (IH e He).
Qed.

End SafeCopytree.

(** The tree [safe_copytree] writes has, below its root, no entry named
    [.git], [.svn], [.hg], [build], [install], [log] or [__pycache__], at
    any depth; its paths are paths of the source; a source tree without
    such entries is copied as it is, so that copying the copy changes
    nothing. *)
Theorem safe_copytree_drops_ignored :
  forall src : gen_tarballs.node,
    legacy.clean (legacy.safe_copytree src) = true
    /\ gen_tarballs.node_name (legacy.safe_copytree src) = gen_tarballs.node_name src
    /\ (forall arcname,
           incl (gen_tarballs.tree_paths arcname (legacy.safe_copytree src))
                (gen_tarballs.tree_paths arcname src))
    /\ (legacy.clean src = true -> legacy.safe_copytree src = src)
    /\ legacy.safe_copytree (legacy.safe_copytree src) = legacy.safe_copytree src.
Proof.
  intros src. split; [apply safe_copytree_clean|]. split; [apply safe_copytree_name|].
  split; [apply safe_copytree_paths|]. split; [apply safe_copytree_of_clean|].
  apply safe_copytree_of_clean, safe_copytree_clean.
Qed.

Lemma safe_copytree_drops_ignored_witness :
  legacy.safe_copytree sample_tree
  = gen_tarballs.Dir (txt "foo_bar")
      [gen_tarballs.File (txt ".gitignore"); gen_tarballs.File (txt "package.xml");
       gen_tarballs.Dir (txt "src") [gen_tarballs.File (txt "main.cpp")]]
  /\ legacy.safe_copytree (legacy.safe_copytree sample_tree)
     = legacy.safe_copytree sample_tree.
Proof.
  split; [vm_compute; reflexivity|].
  destruct (safe_copytree_drops_ignored (legacy.safe_copytree sample_tree))
    as [_ [_ [_ [H _]]]].
  apply H. vm_compute. reflexivity.
Defined.

(** *** The names of the legacy script and of [gen_tarballs.py] *)

(** [split_legacy.py] and [gen_tarballs.py] give the archive of a package
    the same top-level directory, [ros-<distro>-<name>-<version>], and
    different file names: the legacy name has a hyphen before the version
    where the current one has an underscore. *)
Theorem legacy_names_differ :
  forall distro name ver : text,
    legacy.topdir distro name ver = gen_tarballs.prefix_dir distro name ver
    /\ legacy.tar_name distro name ver
       = gen_tarballs.ros_pkg_name distro name ++ txt "-" ++ ver ++ txt ".orig.tar.gz"
    /\ gen_tarballs.tarball_name distro name ver
       = gen_tarballs.ros_pkg_name distro name ++ txt "_" ++ ver ++ txt ".orig.tar.gz"
    /\ legacy.tar_name distro name ver <> gen_tarballs.tarball_name distro name ver.
Proof.
  intros distro name ver.
  assert (H1 : legacy.topdir distro name ver = gen_tarballs.prefix_dir distro name ver).
  { unfold legacy.topdir, gen_tarballs.prefix_dir, gen_tarballs.ros_pkg_name,
      legacy.hy, gen_tarballs.name_hyphen.
    now rewrite <- !app_assoc. }
  assert (H2 : legacy.tar_name distro name ver
               = gen_tarballs.ros_pkg_name distro name ++ txt "-" ++ ver
                 ++ txt ".orig.tar.gz").
  { unfold legacy.tar_name. rewrite H1. unfold gen_tarballs.prefix_dir.
    now rewrite <- !app_assoc. }
  split; [exact H1|]. split; [exact H2|]. split; [reflexivity|].
  rewrite H2. unfold gen_tarballs.tarball_name. intros E.
  apply app_inv_head in E. discriminate E.
Qed.

(** *** [ensure_debug_disabled] on a document with Unix line ends *)

Lemma splitlines_from_unix (s : text) :
  forall cur,
    forallb (fun c => negb (is_linebreak c) || is_lf c) s = true ->
    (s = [] -> cur = []) ->
    (s = [] \/ exists u, s = u ++ [lf]) ->
    Forall (fun l => exists u, l = u ++ [lf]) (splitlines_from true cur s).
Proof.
  induction s as [|c s IH]; intros cur Hall Hcur Hend.
  - rewrite (Hcur eq_refl). constructor.
  - cbn [forallb] in Hall. apply andb_true_iff in Hall as [Hc Hall].
    assert (Hend' : s = [] \/ exists u, s = u ++ [lf]).
    { destruct Hend as [Hend | [u Hend]]; [discriminate|].
      destruct s as [|d s]; [now left | right].
      destruct u as [|x u]; [discriminate Hend|]. injection Hend as _ Hend.
      now exists u. }
    cbn [splitlines_from]. destruct (is_linebreak c) eqn:Elb.
    + cbn [negb orb] in Hc. unfold is_lf in Hc. apply Ascii.eqb_eq in Hc. subst c.
      destruct s as [|c2 s'].
      * constructor; [now exists cur | constructor].
      * change (Ascii.eqb lf cr) with false. cbn [andb].
        constructor; [now exists cur|].
        apply IH; [exact Hall | discriminate | exact Hend'].
    + apply IH; [exact Hall | | exact Hend'].
      intros ->. destruct Hend as [Hend | [u Hend]]; [discriminate|].
      destruct u as [|x u]; [|destruct u; discriminate Hend].
      injection Hend as ->. discriminate Elb.
Qed.

Lemma unix_lines_end_lf (t : text) :
  unix_lines t = true ->
  Forall (fun l => exists u, l = u ++ [lf]) (splitlines_keepends t).
Proof.
  intros H. unfold unix_lines in H. apply andb_true_iff in H as [H1 H2].
  apply splitlines_from_unix; [exact H1 | reflexivity |].
  destruct (rev t) as [|c r] eqn:E.
  - left. apply (f_equal (@rev ascii)) in E. now rewrite rev_involutive in E.
  - right. exists (rev r). apply (f_equal (@rev ascii)) in E.
    rewrite rev_involutive in E. rewrite E. simpl.
    unfold is_lf in H2. apply Ascii.eqb_eq in H2. now subst.
Qed.

Lemma concat_lines_end_lf (ls : list text) :
  Forall (fun l => exists u, l = u ++ [lf]) ls -> ls <> [] ->
  exists u, List.concat ls = u ++ [lf].
Proof.
  induction ls as [|l ls IH]; intros H Hn; [congruence|].
  inversion H as [|? ? [u Hu] H']; subst. destruct ls as [|l2 ls].
  - exists u. simpl. now rewrite app_nil_r.
  - destruct (IH H') as [v Hv]; [discriminate|].
    exists ((u ++ [lf]) ++ v). rewrite concat_cons, Hv. now rewrite <- !app_assoc.
Qed.

Lemma in_firstn_in (A : Type) (n : nat) (l : list A) (x : A) :
  In x (firstn n l) -> In x l.
Proof.
  intros H. rewrite <- (firstn_skipn n l). apply in_or_app. now left.
Qed.

Lemma last_bcond_from_some (ls : list text) :
  forall i idx, fix_specs.last_bcond_from i ls = Some idx -> ls <> [].
Proof. destruct ls; intros i idx H; [discriminate H | discriminate]. Qed.

Lemma debug_line_is_directive (x : text) :
  fix_specs.debug_directive_at (fix_specs.debug_line ++ x) = true.
Proof. reflexivity. Qed.

(** On a document with Unix line ends, [ensure_debug_disabled] leaves a
    document that has a directive disabling the debug package at a line
    start, and a second application changes nothing. *)
Theorem ensure_debug_disabled_settles :
  forall t : text,
    unix_lines t = true ->
    fix_specs.has_debug_directive (fix_specs.ensure_debug_disabled t) = true
    /\ fix_specs.ensure_debug_disabled (fix_specs.ensure_debug_disabled t)
       = fix_specs.ensure_debug_disabled t.
Proof.
  intros t Hu.
  assert (H : fix_specs.has_debug_directive (fix_specs.ensure_debug_disabled t) = true).
  { unfold fix_specs.ensure_debug_disabled.
    destruct (fix_specs.has_debug_directive t) eqn:E; [exact E|].
    pose proof (unix_lines_end_lf t Hu) as Hl.
    destruct (fix_specs.last_bcond_from 0 (splitlines_keepends t)) as [idx|] eqn:Eb.
    - set (n := S idx + fix_specs.count_blank (skipn (S idx) (splitlines_keepends t))).
      rewrite !concat_app.
      change (List.concat [fix_specs.debug_line; [lf]]) with (fix_specs.debug_line ++ [lf]).
      destruct (concat_lines_end_lf (firstn n (splitlines_keepends t))) as [u Hc].
      + apply Forall_forall. intros l Hin. rewrite Forall_forall in Hl.
        apply Hl. now apply in_firstn_in with (n := n).
      + apply last_bcond_from_some in Eb.
        destruct (splitlines_keepends t); [congruence | discriminate].
      + unfold fix_specs.has_debug_directive.
        destruct (search_ml _ _ _) eqn:Es; [reflexivity|].
        exfalso. revert Es. rewrite <- app_assoc. apply search_ml_exists.
        * rewrite Hc. replace (u ++ [lf]) with (u ++ lf :: []) by reflexivity.
          now rewrite bol_after_lf.
        * apply debug_line_is_directive.
    - unfold fix_specs.has_debug_directive.
      destruct (search_ml _ _ _) eqn:Es; [reflexivity|].
      exfalso. revert Es. apply (search_ml_exists _ [] _ true); [reflexivity|].
      apply debug_line_is_directive. }
  split; [exact H|]. unfold fix_specs.ensure_debug_disabled at 1. now rewrite H.
Qed.

Lemma ensure_debug_disabled_settles_witness :
  fix_specs.has_debug_directive (fix_specs.ensure_debug_disabled build_install_only) = true
  /\ fix_specs.ensure_debug_disabled (fix_specs.ensure_debug_disabled build_install_only)
     = fix_specs.ensure_debug_disabled build_install_only.
Proof.
  apply ensure_debug_disabled_settles. vm_compute. reflexivity.
Defined.

(** *** [inject_ros_pythonpath]: one block for each section found *)

Section InjectCount.

Import fix_specs.

Lemma starts_with_line_local (lit : text) :
  no_lf lit = true -> line_local (starts_with lit).
Proof.
  intros Hl u. revert lit Hl. induction u as [|c u IH]; intros lit Hl x y.
  - destruct lit as [|a lit]; [reflexivity|]. simpl in Hl.
    apply andb_true_iff in Hl as [Ha _]. unfold not_lf, is_lf in Ha.
    apply negb_true_iff in Ha. simpl. now rewrite Ha.
  - destruct lit as [|a lit]; [reflexivity|]. simpl in Hl.
    apply andb_true_iff in Hl as [_ Hl]. simpl. now rewrite (IH lit Hl x y).
Qed.

Lemma skipn_head_line_local (n : nat) (u x y : text) :
  match skipn n (u ++ lf :: x) with [] => true | c :: _ => negb (is_word c) end
  = match skipn n (u ++ lf :: y) with [] => true | c :: _ => negb (is_word c) end
  \/ List.length u < n.
Proof.
  revert n. induction u as [|c u IH]; intros n.
  - destruct n; [now left | right; simpl; lia].
  - destruct n; [now left|]. simpl. destruct (IH n) as [H | H]; [now left | right; lia].
Qed.

Lemma starts_with_short (lit s : text) :
  starts_with lit s = true -> List.length lit <= List.length s.
Proof.
  intros H. apply starts_with_iff in H as [r ->]. rewrite length_app. lia.
Qed.

Lemma starts_with_lf_inside (lit u x : text) :
  no_lf lit = true -> List.length u < List.length lit ->
  starts_with lit (u ++ lf :: x) = false.
Proof.
  revert lit. induction u as [|c u IH]; intros lit Hl Hn.
  - destruct lit as [|a lit]; [simpl in Hn; lia|]. simpl in Hl.
    apply andb_true_iff in Hl as [Ha _]. unfold not_lf, is_lf in Ha.
    apply negb_true_iff in Ha. simpl. now rewrite Ha.
  - destruct lit as [|a lit]; [simpl in Hn; lia|]. simpl in Hl.
    apply andb_true_iff in Hl as [_ Hl]. simpl. rewrite IH; [apply andb_false_r | exact Hl|].
    simpl in Hn. lia.
Qed.

Lemma lit_boundary_line_local (lit : text) :
  no_lf lit = true -> line_local (lit_boundary lit).
Proof.
  intros Hl u x y. unfold lit_boundary.
  rewrite (starts_with_line_local lit Hl u x y).
  destruct (skipn_head_line_local (List.length lit) u x y) as [H | H].
  - now rewrite H.
  - now rewrite (starts_with_lf_inside lit u y Hl H).
Qed.

Lemma after_line_has_lf (u x : text) : after_line (u ++ lf :: x) <> [].
Proof.
  unfold after_line. induction u as [|c u IH]; simpl; [discriminate|].
  destruct (negb (is_lf c)); [exact IH | discriminate].
Qed.

Lemma section_header_at_line_local (section : text) :
  no_lf section = true -> line_local (section_header_at section).
Proof.
  intros Hs u x y. unfold section_header_at.
  rewrite (lit_boundary_line_local (txt "%" ++ section)) with (y := y) by exact Hs.
  pose proof (after_line_has_lf u x) as Hx. pose proof (after_line_has_lf u y) as Hy.
  destruct (after_line (u ++ lf :: x)); [congruence|].
  destruct (after_line (u ++ lf :: y)); [congruence | reflexivity].
Qed.

Section Count.

Variable test : text -> bool.
Hypothesis test_local : line_local test.
Hypothesis test_nil : test [] = false.

Lemma count_ml_app_lines (a x : text) :
  forall bol, bol_after bol a = true ->
              count_ml test bol (a ++ x) = count_ml test bol a + count_ml test true x.
Proof.
  induction a as [|c a IH]; intros bol Hb.
  - simpl in Hb. subst bol. simpl. rewrite test_nil. reflexivity.
  - destruct (bol_after_true_ends_lf bol (c :: a) Hb ltac:(discriminate)) as [u Hu].
    change ((c :: a) ++ x) with (c :: (a ++ x)). cbn [count_ml].
    rewrite (IH (is_lf c) Hb).
    replace (c :: a ++ x) with (u ++ lf :: x)
      by (change (c :: a ++ x) with ((c :: a) ++ x); rewrite Hu, <- app_assoc; reflexivity).
    rewrite Hu. replace (u ++ [lf]) with (u ++ lf :: []) by reflexivity.
    rewrite (test_local u x []). lia.
Qed.

Lemma count_ml_line (u : text) :
  no_lf u = true ->
  forall bol, count_ml test bol (u ++ [lf]) = if bol && test (u ++ [lf]) then 1 else 0.
Proof.
  induction u as [|c u IH]; intros Hu bol.
  - simpl. rewrite test_nil. simpl. lia.
  - simpl in Hu. apply andb_true_iff in Hu as [Hc Hu]. unfold not_lf in Hc.
    apply negb_true_iff in Hc.
    change ((c :: u) ++ [lf]) with (c :: (u ++ [lf])). cbn [count_ml].
    rewrite (IH Hu), Hc. cbn [andb]. lia.
Qed.

Lemma count_ml_lines (us : list text) :
  Forall (fun u => no_lf u = true) us ->
  count_ml test true (List.concat (map (fun u => u ++ [lf]) us))
  = List.length (filter (fun u => test (u ++ [lf])) us).
Proof.
  induction us as [|u us IH]; intros H.
  - simpl. now rewrite test_nil.
  - inversion H as [|? ? Hu H']; subst. cbn [map List.concat filter].
    rewrite count_ml_app_lines
      by (replace (u ++ [lf]) with (u ++ lf :: []) by reflexivity; apply bol_after_lf).
    rewrite (count_ml_line u Hu), (IH H'). cbn [andb].
    destruct (test (u ++ [lf])); reflexivity.
Qed.

Lemma search_ml_none_count (s : text) :
  forall bol, search_ml test bol s = None <-> count_ml test bol s = 0.
Proof.
  induction s as [|c s IH]; intros bol; simpl.
  - destruct (bol && test []); split; (discriminate || reflexivity || lia).
  - destruct (bol && test (c :: s)).
    + split; [discriminate | lia].
    + rewrite <- (IH (is_lf c)). destruct (search_ml test (is_lf c) s) as [[p q]|];
        split; (discriminate || reflexivity).
Qed.

End Count.

Lemma contains_false_count (p t : text) :
  contains p t = false -> forall bol, count_ml (starts_with p) bol t = 0.
Proof.
  induction t as [|c t IH]; intros H bol.
  - rewrite contains_unfold in H. rewrite orb_false_r in H. simpl. rewrite H.
    now rewrite andb_false_r.
  - rewrite contains_unfold in H. apply orb_false_iff in H as [H1 H2].
    cbn [count_ml]. rewrite H1, andb_false_r, (IH H2). reflexivity.
Qed.

Variable ros_prefix : text.
Hypothesis ros_prefix_line : no_lf ros_prefix = true.

Lemma block_is_lines :
  block ros_prefix ++ [lf] = List.concat (map (fun u => u ++ [lf]) (block_lines ros_prefix)).
Proof.
  unfold block, block_lines. cbn [map List.concat]. rewrite <- !app_assoc. reflexivity.
Qed.

Lemma block_lines_no_lf : Forall (fun u => no_lf u = true) (block_lines ros_prefix).
Proof.
  unfold block_lines. repeat constructor.
  unfold no_lf. rewrite !forallb_app. fold (no_lf ros_prefix).
  now rewrite ros_prefix_line.
Qed.

Lemma block_marker_count :
  count_ml (starts_with marker) true (block ros_prefix ++ [lf]) = 1.
Proof.
  rewrite block_is_lines, count_ml_lines.
  - reflexivity.
  - now apply starts_with_line_local.
  - reflexivity.
  - apply block_lines_no_lf.
Qed.

Lemma block_header_count (section : text) :
  no_lf section = true ->
  count_ml (section_header_at section) true (block ros_prefix ++ [lf]) = 0.
Proof.
  intros Hs. rewrite block_is_lines, count_ml_lines.
  - reflexivity.
  - now apply section_header_at_line_local.
  - reflexivity.
  - apply block_lines_no_lf.
Qed.

Lemma has_header_end (section t : text) :
  has_header section t
  = match section_header_end section t with Some _ => true | None => false end.
Proof.
  unfold has_header, section_header_end.
  destruct (search_ml (section_header_at section) true t) as [[pre suf]|] eqn:E;
    [|reflexivity].
  apply search_ml_sound in E as [_ [_ [E _]]]. unfold section_header_at in E.
  apply andb_true_iff in E as [_ E]. now destruct (after_line suf).
Qed.

Lemma inject_section_count (test : text -> bool) (t section : text) :
  line_local test -> test [] = false ->
  count_ml test true (inject_section ros_prefix t section)
  = count_ml test true t
    + if has_header section t then count_ml test true (block ros_prefix ++ [lf]) else 0.
Proof.
  intros Hl Hn. rewrite has_header_end.
  destruct (section_header_end section t) as [[upto rest]|] eqn:E.
  - destruct (inject_section_some ros_prefix t section upto rest E) as [Et [Hb ->]].
    rewrite Et.
    replace (upto ++ block ros_prefix ++ [lf] ++ rest)
      with (upto ++ (block ros_prefix ++ [lf]) ++ rest) by now rewrite <- !app_assoc.
    rewrite !(count_ml_app_lines test Hl Hn upto) by exact Hb.
    rewrite (count_ml_app_lines test Hl Hn (block ros_prefix ++ [lf])).
    + lia.
    + replace (block ros_prefix ++ [lf]) with (block ros_prefix ++ lf :: [])
        by reflexivity.
      apply bol_after_lf.
  - unfold inject_section. rewrite E. lia.
Qed.

Lemma has_header_count (section t : text) :
  has_header section t = negb (count_ml (section_header_at section) true t =? 0).
Proof.
  unfold has_header.
  destruct (search_ml (section_header_at section) true t) as [p|] eqn:E.
  - destruct (count_ml (section_header_at section) true t =? 0) eqn:Ec; [|reflexivity].
    apply Nat.eqb_eq in Ec. apply search_ml_none_count in Ec; congruence.
  - apply search_ml_none_count in E. now rewrite E.
Qed.

Lemma inject_section_keeps_header (t section other : text) :
  no_lf other = true ->
  has_header other (inject_section ros_prefix t section) = has_header other t.
Proof.
  intros Ho. rewrite !has_header_count. rewrite inject_section_count.
  - rewrite (block_header_count other Ho). destruct (has_header section t);
      now rewrite Nat.add_0_r.
  - now apply section_header_at_line_local.
  - reflexivity.
Qed.

Lemma inject_section_marker_count (t section : text) :
  count_ml (starts_with marker) true (inject_section ros_prefix t section)
  = count_ml (starts_with marker) true t + if has_header section t then 1 else 0.
Proof.
  rewrite inject_section_count.
  - now rewrite block_marker_count.
  - now apply starts_with_line_local.
  - reflexivity.
Qed.

End InjectCount.

(** In a document without the marker, [inject_ros_pythonpath] puts one
    block for each of the sections build, install and check that has a
    header line: afterwards the marker stands at as many line starts as
    there are such sections, and each of the three sections has a header
    line exactly if it had one before (the prefix has no line feed). *)
Theorem inject_ros_pythonpath_one_block_per_section :
  forall t ros_prefix : text,
    no_lf ros_prefix = true ->
    contains fix_specs.marker t = false ->
    count_ml (starts_with fix_specs.marker) true
             (fix_specs.inject_ros_pythonpath t ros_prefix)
    = List.length (filter (fun section => has_header section t) fix_specs.sections)
    /\ (forall section, In section fix_specs.sections ->
          has_header section (fix_specs.inject_ros_pythonpath t ros_prefix)
          = has_header section t).
Proof.
  intros t ros_prefix Hp Hm.
  rewrite (inject_ros_pythonpath_unfold t ros_prefix Hm).
  assert (Hsec : forall section, In section fix_specs.sections -> no_lf section = true).
  { intros section [<- | [<- | [<- | []]]]; reflexivity. }
  split.
  - rewrite !inject_section_marker_count by exact Hp.
    rewrite !inject_section_keeps_header by (exact Hp || reflexivity).
    rewrite (contains_false_count _ _ Hm). unfold fix_specs.sections. cbn [filter].
    destruct (has_header (txt "build") t), (has_header (txt "install") t),
      (has_header (txt "check") t); reflexivity.
  - intros section Hin. rewrite !inject_section_keeps_header; auto.
Qed.

Lemma inject_ros_pythonpath_one_block_per_section_witness :
  count_ml (starts_with fix_specs.marker) true
           (fix_specs.inject_ros_pythonpath build_install_only jazzy_prefix) = 2.
Proof.
  destruct (inject_ros_pythonpath_one_block_per_section build_install_only jazzy_prefix)
    as [H _]; [vm_compute; reflexivity | vm_compute; reflexivity |].
  rewrite H. vm_compute. reflexivity.
Defined.

(** *** [process_package] on a package that can be read *)


